(** * Particle Swarm Optimisation with OpenMP: a shallow embedding

    This development embeds the C sources [pso_utils.c] and
    [optimize_using_omp.c] and proves properties of the swarm update
    engine and of the global-best reduction.

    Modelling conventions.
    - C [float] is IEEE-754 binary32 and C [double] is binary64, both with
      round-to-nearest-even and every operation rounded to its own format
      (FLT_EVAL_METHOD = 0, no contraction).  They are represented by
      [spec_float] at precisions (24,128) and (53,1024).
    - C [int] and [unsigned int] are [Z]; the only wrap-around that occurs
      is [seed += i] on an [unsigned int], written out with [mod 2^32].
    - Arrays are lists, read with [!!] and written with [<[i:=v]>].  A read
      outside an object is undefined in C; the model yields a fixed dummy
      value there and the theorems that depend on such a read carry the
      range hypothesis.
    - Objects that C leaves uninitialised (a variable-length array, an
      OpenMP [private] copy) are explicit extra arguments.
    - An OpenMP work-sharing loop is parameterised by its schedule: one
      list of loop indices per thread, empty for a thread that gets no
      iteration or is not in the team.  Threads are run one after the
      other in thread-id order; for the loops whose iterations touch
      disjoint data (the reduction, the broadcast of [g]) every execution
      gives this result, for the update loop and the initialisation it is
      one of the possible executions, and the only one with one thread.
    - Allocation is taken to succeed, which confines the definitions of
      the initialisation to requests that can be granted:
      [swarm_size >= 0] and [dim >= 0].  A negative [swarm_size] makes
      [malloc] fail, [pso_init_omp] return [NULL] and
      [optimize_using_omp] exit; a negative [dim] leaves the arrays of a
      particle null.  The theorems that let the initialisation return
      carry these ranges, together with [dim_in_range] for the reads of
      the objective and [num_threads >= 1] for the team.
    - What the program prints is left out. *)

From Stdlib Require Import ZArith Lia Bool String List Permutation.
From Stdlib Require Import Floats.SpecFloat.
From stdpp Require Import base list.

Local Open Scope Z_scope.

(** ** Floating point *)

Abbreviation float := spec_float.
Abbreviation double := spec_float.

Module F32.
Definition prec : Z := 24.
Definition emax : Z := 128.
Definition add : float -> float -> float := SFadd prec emax.
Definition sub : float -> float -> float := SFsub prec emax.
Definition mul : float -> float -> float := SFmul prec emax.
Definition div : float -> float -> float := SFdiv prec emax.
Definition opp : float -> float := SFopp.
Definition fabsf : float -> float := SFabs.
Definition ltb : float -> float -> bool := SFltb.
Definition gtb (a b : float) : bool := ltb b a.
Definition eqb : float -> float -> bool := SFeqb.
Definition leb : float -> float -> bool := SFleb.
(** [(float) k] for an integer [k] *)
Definition of_int (k : Z) : float := binary_normalize prec emax k 0 false.
(** [(float) d] for a double [d] *)
Definition of_double (d : double) : float :=
  match d with
  | S754_finite s m e => binary_normalize prec emax (cond_Zopp s (Zpos m)) e s
  | _ => d
  end.
Definition INFINITY : float := S754_infinity false.
End F32.

Module F64.
Definition prec : Z := 53.
Definition emax : Z := 1024.
Definition add : double -> double -> double := SFadd prec emax.
Definition sub : double -> double -> double := SFsub prec emax.
Definition mul : double -> double -> double := SFmul prec emax.
Definition div : double -> double -> double := SFdiv prec emax.
Definition opp : double -> double := SFopp.
Definition sqrt : double -> double := SFsqrt prec emax.
Definition of_int (k : Z) : double := binary_normalize prec emax k 0 false.
(** [(double) f] for a float [f]: exact, the mantissa is re-normalised *)
Definition of_float (f : float) : double :=
  match f with
  | S754_finite s m e => binary_normalize prec emax (cond_Zopp s (Zpos m)) e s
  | _ => f
  end.
End F64.

Declare Scope f32_scope.
Delimit Scope f32_scope with f32.
Infix "+" := F32.add : f32_scope.
Infix "-" := F32.sub : f32_scope.
Infix "*" := F32.mul : f32_scope.
Infix "/" := F32.div : f32_scope.
Notation "- x" := (F32.opp x) : f32_scope.
Infix "<?" := F32.ltb : f32_scope.
Infix ">?" := F32.gtb : f32_scope.
Infix "==?" := F32.eqb (at level 70) : f32_scope.

Declare Scope f64_scope.
Delimit Scope f64_scope with f64.
Infix "+" := F64.add : f64_scope.
Infix "-" := F64.sub : f64_scope.
Infix "*" := F64.mul : f64_scope.
Infix "/" := F64.div : f64_scope.
Notation "- x" := (F64.opp x) : f64_scope.

(** *** Classes of floats and the order seen by the comparisons *)

Definition is_nan (f : float) : bool :=
  match f with S754_nan => true | _ => false end.

Definition is_finite (f : float) : bool :=
  match f with S754_zero _ | S754_finite _ _ _ => true | _ => false end.

(** [a <= b] and [a < b] as propositions, and "strictly below +infinity",
    which is what the reducer needs of a fitness value. *)
Definition fle (a b : float) : Prop := F32.leb a b = true.
Definition flt (a b : float) : Prop := F32.ltb a b = true.
Definition feq (a b : float) : Prop := F32.eqb a b = true.
Definition below_inf (a : float) : Prop := flt a F32.INFINITY.

(** A float that is not a NaN is ranked by a triple compared
    lexicographically: the class (-inf, negative, zero, positive, +inf),
    then exponent and mantissa, both negated for negative numbers. *)
Definition key (f : float) : Z * Z * Z :=
  match f with
  | S754_nan => (3, 0, 0)
  | S754_infinity true => (-2, 0, 0)
  | S754_infinity false => (2, 0, 0)
  | S754_zero _ => (0, 0, 0)
  | S754_finite true m e => (-1, - e, Zneg m)
  | S754_finite false m e => (1, e, Zpos m)
  end.

Definition klt (k1 k2 : Z * Z * Z) : Prop :=
  let '(c1, e1, m1) := k1 in
  let '(c2, e2, m2) := k2 in
  c1 < c2 \/ (c1 = c2 /\ (e1 < e2 \/ (e1 = e2 /\ m1 < m2))).

Definition keq (k1 k2 : Z * Z * Z) : Prop :=
  let '(c1, e1, m1) := k1 in
  let '(c2, e2, m2) := k2 in
  c1 = c2 /\ e1 = e2 /\ m1 = m2.

Definition key_compare (k1 k2 : Z * Z * Z) : comparison :=
  let '(c1, e1, m1) := k1 in
  let '(c2, e2, m2) := k2 in
  match c1 ?= c2 with
  | Eq => match e1 ?= e2 with Eq => m1 ?= m2 | r => r end
  | r => r
  end.

(** ** Data model (declared in pso.h, reconstructed from its uses) *)

Module Particle.
Record t := mk {
  dim : Z;              (* int dim *)
  x : list float;       (* float *x: current position *)
  v : list float;       (* float *v: velocity *)
  pbest : list float;   (* float *pbest: best position seen *)
  fitness : float;      (* float fitness: fitness at pbest *)
  g : Z                 (* int g: index of the swarm's best particle *)
}.
Definition set_x p l := mk (dim p) l (v p) (pbest p) (fitness p) (g p).
Definition set_v p l := mk (dim p) (x p) l (pbest p) (fitness p) (g p).
Definition set_pbest p l := mk (dim p) (x p) (v p) l (fitness p) (g p).
Definition set_fitness p f := mk (dim p) (x p) (v p) (pbest p) f (g p).
Definition set_g p k := mk (dim p) (x p) (v p) (pbest p) (fitness p) k.
End Particle.
Abbreviation particle_t := Particle.t.

Module Swarm.
Record t := mk {
  num_particles : Z;            (* int num_particles *)
  particle : list particle_t    (* particle_t *particle *)
}.
Definition set_particle sw i p :=
  mk (num_particles sw) (<[i:=p]> (particle sw)).
End Swarm.
Abbreviation swarm_t := Swarm.t.

(** Reads.  Outside the object the value is a fixed dummy. *)
Definition rdf (a : list float) (i : nat) : float := default S754_nan (a !! i).
Definition rdz (a : list Z) (i : nat) : Z := default 0 (a !! i).
Definition no_particle : particle_t :=
  Particle.mk 0 [] [] [] S754_nan 0.
Definition particle_at (sw : swarm_t) (i : nat) : particle_t :=
  default no_particle (Swarm.particle sw !! i).
(** [swarm->particle[k]] for a C [int] index [k] *)
Definition particle_ix (sw : swarm_t) (k : Z) : particle_t :=
  if k <? 0 then no_particle else particle_at sw (Z.to_nat k).

(** ** OpenMP work sharing

    [#pragma omp for] over [for (i = 0; i < n; i++)] hands each thread of
    the team a list of loop indices, which the thread runs in list order.
    The schedule is the list of these lists, indexed by thread id.  A
    parallel region runs one function per thread. *)
Definition schedule := list (list nat).

Fixpoint omp_threads_from {S : Type} (tid : nat) (sched : schedule)
    (thread : nat -> list nat -> S -> S) (s : S) : S :=
  match sched with
  | [] => s
  | blk :: rest =>
      omp_threads_from (Datatypes.S tid) rest thread (thread tid blk s)
  end.

Definition omp_threads {S : Type} (sched : schedule)
    (thread : nat -> list nat -> S -> S) (s : S) : S :=
  omp_threads_from 0%nat sched thread s.

Definition omp_for {S : Type} (sched : schedule)
    (body : nat -> nat -> S -> S) (s : S) : S :=
  omp_threads sched (fun tid blk s => fold_left (fun s i => body tid i s) blk s) s.

(** A schedule of a loop of [n] iterations: every index is handed out
    exactly once. *)
Definition block_partition (n : nat) (sched : schedule) : Prop :=
  Permutation (concat sched) (seq 0 n).

(** The static schedule of libgomp: [n / p] iterations per thread, the
    first [n mod p] threads take one more, blocks are contiguous. *)
Fixpoint static_blocks (start q r : nat) (p : nat) : schedule :=
  match p with
  | O => []
  | Datatypes.S p' =>
      let len := (if r is O then q else Datatypes.S q) in
      seq start len :: static_blocks (start + len)%nat q (Nat.pred r) p'
  end.

Definition static_schedule (n p : nat) : schedule :=
  static_blocks 0 (n / p) (n mod p) p.

(** A team reduced to its first thread: the other [p - 1] threads get no
    iteration.  This is what a parallel region nested in another one gets
    when nested parallelism is off, which is libgomp's default. *)
Definition serial_schedule (n p : nat) : schedule :=
  seq 0 n :: replicate (Nat.pred p) [].

(** ** The C library and the run-time environment *)

(** Library functions the program calls and that IEEE-754 does not pin
    down.  [rand_r s] is the pair of the value returned by [rand_r(&seed)]
    when [seed = s] and the value it leaves in [seed]. *)
Record libc := Libc {
  rand_r : Z -> Z * Z;
  sin : double -> double;
  cos : double -> double;
  exp : double -> double;
  pow : double -> double -> double
}.

(** [RAND_MAX] and [EXIT_FAILURE] of glibc's stdlib.h *)
Definition RAND_MAX : Z := 2147483647.
Definition EXIT_FAILURE : Z := 1.

(** What a run depends on besides its arguments: the clock; the schedule
    the OpenMP runtime gives a loop of [n] iterations over a team of [p]
    threads, for the loops of [pso_init_omp] and [optimize_using_omp]
    ([omp_schedule]) and for the loop of the reducer ([reducer_schedule]),
    whose parallel region is nested in theirs and may get a smaller team;
    and the contents of the objects the program reads before writing
    them: cell [i] of the array [local_g] at the [k]-th call of the
    reducer ([local_g_at k i]), and the
    [private] copies of [seed] and [curr_fitness] of thread [tid] on
    entering the parallel region of iteration [iter]. *)
Record environment := Environment {
  time : Z;
  omp_schedule : Z -> Z -> schedule;
  reducer_schedule : Z -> Z -> schedule;
  local_g_at : nat -> nat -> Z;
  seed_at : nat -> nat -> Z;
  curr_fitness_at : nat -> nat -> float
}.

(** The function either returns or leaves through [exit(status)]; in the
    second case [heap] is the swarm as built so far. *)
Inductive outcome (A : Type) : Type :=
| Returned (a : A)
| Exited (status : Z) (heap : swarm_t).
Arguments Returned {A} a.
Arguments Exited {A} status heap.

Definition bind {A B : Type} (o : outcome A) (k : A -> outcome B) : outcome B :=
  match o with
  | Returned a => k a
  | Exited status heap => Exited status heap
  end.

(** Double constants of the sources *)
Definition M_PI : double := S754_finite false 7074237752028440 (-51).
Definition lit_418_9829 : double := S754_finite false 7370825126228944 (-44).
Definition lit_0_79 : double := S754_finite false 7115687411245384 (-53).
Definition lit_1_49 : double := S754_finite false 6710363444782039 (-52).

(** ** The program *)

Module Pso.

Section WithLibc.
Variable L : libc.

(** [float uniform_omp(float min, float max, unsigned int *seed)] *)
Definition uniform_omp (min max : float) (seed : Z) : float * Z :=
  let '(k, seed) := rand_r L seed in
  let normalized := (F32.of_int k / F32.of_int RAND_MAX)%f32 in
  ((min + normalized * (max - min))%f32, seed).

(** [float pso_eval_eggholder(particle_t *particle)] *)
Definition pso_eval_eggholder (particle : particle_t) : float :=
  let x0 := rdf (Particle.x particle) 0 in
  let x1 := rdf (Particle.x particle) 1 in
  let a := (- (x1 + F32.of_int 47))%f32 in
  let s1 :=
    sin L (F64.sqrt (F64.of_float
      (F32.fabsf (x0 / F32.of_int 2 + x1 + F32.of_int 47)%f32))) in
  let s2 :=
    sin L (F64.sqrt (F64.of_float
      (F32.fabsf (x0 - (x1 + F32.of_int 47))%f32))) in
  F32.of_double (F64.of_float a * s1 - F64.of_float x0 * s2)%f64.

(** [float pso_eval_schwefel(particle_t *particle)] *)
Definition pso_eval_schwefel (particle : particle_t) : float :=
  let sum :=
    fold_left
      (fun sum i =>
         let xi := rdf (Particle.x particle) i in
         F32.of_double
           (F64.of_float sum
            + F64.of_float xi
              * sin L (F64.sqrt (F64.of_float (F32.fabsf xi))))%f64)
      (seq 0 (Z.to_nat (Particle.dim particle))) (F32.of_int 0) in
  F32.of_double
    (lit_418_9829 * F64.of_int (Particle.dim particle) - F64.of_float sum)%f64.

(** [float pso_eval_holder_table(particle_t *particle)] *)
Definition pso_eval_holder_table (particle : particle_t) : float :=
  let x0 := F64.of_float (rdf (Particle.x particle) 0) in
  let x1 := F64.of_float (rdf (Particle.x particle) 1) in
  let two := F64.of_int 2 in
  let inner :=
    F32.fabsf (F32.of_double
      (F64.of_int 1 - F64.sqrt (pow L x0 two + pow L x1 two) / M_PI)%f64) in
  (- F32.fabsf (F32.of_double
       (sin L x0 * cos L x1 * exp L (F64.of_float inner))%f64))%f32.

(** [float pso_eval_rastrigin(particle_t *particle)] *)
Definition pso_eval_rastrigin (particle : particle_t) : float :=
  fold_left
    (fun fitness i =>
       let xi := F64.of_float (rdf (Particle.x particle) i) in
       F32.of_double
         (F64.of_float fitness
          + (pow L xi (F64.of_int 2)
             - F64.of_int 10 * cos L (F64.of_int 2 * M_PI * xi)))%f64)
    (seq 0 (Z.to_nat (Particle.dim particle)))
    (F32.of_int (10 * Particle.dim particle)).

(** [float pso_eval_booth(particle_t *particle)] *)
Definition pso_eval_booth (particle : particle_t) : float :=
  let x0 := rdf (Particle.x particle) 0 in
  let x1 := rdf (Particle.x particle) 1 in
  let a := (x0 + F32.of_int 2 * x1 - F32.of_int 7)%f32 in
  let b := (F32.of_int 2 * x0 + x1 - F32.of_int 5)%f32 in
  F32.of_double
    (pow L (F64.of_float a) (F64.of_int 2)
     + pow L (F64.of_float b) (F64.of_int 2))%f64.

(** [int pso_eval_fitness(char *function, particle_t *particle,
    float *fitness)]: the status and the contents of [*fitness] on return;
    the particle is only read. *)
Definition pso_eval_fitness (function : string) (particle : particle_t)
    (fitness : float) : Z * float :=
  if (function =? "booth")%string then (0, pso_eval_booth particle)
  else if (function =? "rastrigin")%string then (0, pso_eval_rastrigin particle)
  else if (function =? "holder_table")%string then (0, pso_eval_holder_table particle)
  else if (function =? "eggholder")%string then (0, pso_eval_eggholder particle)
  else if (function =? "schwefel")%string then (0, pso_eval_schwefel particle)
  else (-1, fitness).

End WithLibc.

(** [float min(float *input, int length)] *)
Definition min (input : list float) (length : Z) : float :=
  fold_left
    (fun res i => if (res >? rdf input i)%f32 then rdf input i else res)
    (seq 0 (Z.to_nat length)) (rdf input 0).

(** Body of the work-shared loop of [pso_get_best_fitness_omp]; the state
    is the pair of arrays [local_fitness], [local_g]. *)
Definition local_best_body (swarm : swarm_t) (tid i : nat)
    (st : list float * list Z) : list float * list Z :=
  let '(local_fitness, local_g) := st in
  let particle := particle_at swarm i in
  if (Particle.fitness particle <? rdf local_fitness tid)%f32
  then (<[tid := Particle.fitness particle]> local_fitness,
        <[tid := Z.of_nat i]> local_g)
  else (local_fitness, local_g).

(** [int pso_get_best_fitness_omp(swarm_t *swarm, int num_threads)].
    [sched] is the schedule of its work-shared loop and [local_g0] the
    contents of the array [local_g] when it is declared. *)
Definition pso_get_best_fitness_omp (sched : schedule) (local_g0 : list Z)
    (swarm : swarm_t) (num_threads : Z) : Z :=
  let nt := Z.to_nat num_threads in
  let local_g := local_g0 in
  let local_fitness :=
    fold_left (fun a i => <[i := F32.INFINITY]> a) (seq 0 nt)
      (replicate nt S754_nan) in
  let '(local_fitness, local_g) :=
    omp_for sched (local_best_body swarm) (local_fitness, local_g) in
  let fitness := min local_fitness num_threads in
  let global_g := rdz local_g 0 in
  fold_left
    (fun global_g i =>
       if (rdf local_fitness i ==? fitness)%f32 then rdz local_g i
       else global_g)
    (seq 0 nt) global_g.

(** [int pso_get_best_fitness(swarm_t *swarm)], the serial reducer *)
Definition pso_get_best_fitness (swarm : swarm_t) : Z :=
  snd (fold_left
         (fun '(best_fitness, g) i =>
            let particle := particle_at swarm i in
            if (Particle.fitness particle <? best_fitness)%f32
            then (Particle.fitness particle, Z.of_nat i)
            else (best_fitness, g))
         (seq 0 (Z.to_nat (Swarm.num_particles swarm)))
         (F32.INFINITY, -1)).

Section WithEnvironment.
Variable L : libc.
Variable E : environment.

(** [for (j = 0; j < dim; j++) a[j] = uniform_omp(lo, hi, &seed);] on a
    freshly allocated array *)
Definition sample_array (dim : Z) (lo hi : float) (seed : Z) : list float * Z :=
  fold_left
    (fun '(a, seed) j =>
       let '(u, seed) := uniform_omp L lo hi seed in (<[j := u]> a, seed))
    (seq 0 (Z.to_nat dim)) (replicate (Z.to_nat dim) S754_nan, seed).

(** [for (j = 0; j < dim; j++) particle->pbest[j] = particle->x[j];] *)
Definition copy_pbest (dim : Z) (particle : particle_t) : particle_t :=
  fold_left
    (fun p j =>
       Particle.set_pbest p (<[j := rdf (Particle.x p) j]> (Particle.pbest p)))
    (seq 0 (Z.to_nat dim)) particle.

(** [for (i = 0; i < swarm->num_particles; i++) swarm->particle[i].g = g;]
    as a work-shared loop *)
Definition broadcast_g (sched : schedule) (g : Z) (swarm : swarm_t) : swarm_t :=
  omp_for sched
    (fun _ i swarm =>
       Swarm.set_particle swarm i (Particle.set_g (particle_at swarm i) g))
    swarm.

(** Body of the work-shared loop of [pso_init_omp] (lines 341-368).  The
    state is the swarm and the shared variable [seed].  The private
    [fitness] is written by [pso_eval_fitness] before it is read, or the
    run exits; what it holds before is immaterial and is a NaN here. *)
Definition init_particle (function : string) (dim : Z) (xmin xmax : float)
    (i : nat) (st : outcome (swarm_t * Z)) : outcome (swarm_t * Z) :=
  bind st (fun '(swarm, seed) =>
    let seed := (seed + Z.of_nat i) mod 2 ^ 32 in
    let '(x, seed) := sample_array dim xmin xmax seed in
    let r := F32.fabsf (xmax - xmin)%f32 in
    let '(v, seed) := sample_array dim (- r)%f32 r seed in
    let particle :=
      copy_pbest dim
        (Particle.mk dim x v (replicate (Z.to_nat dim) S754_nan)
           (Particle.fitness (particle_at swarm i))
           (Particle.g (particle_at swarm i))) in
    let swarm := Swarm.set_particle swarm i particle in
    let '(status, fitness) := pso_eval_fitness L function particle S754_nan in
    if status <? 0 then Exited EXIT_FAILURE swarm
    else
      let particle := Particle.set_g (Particle.set_fitness particle fitness) (-1) in
      Returned (Swarm.set_particle swarm i particle, seed)).

(** [swarm_t *pso_init_omp(char *function, int dim, int swarm_size,
    float xmin, float xmax, int num_threads)], for [swarm_size >= 0]:
    both allocations are taken to succeed, so that the test
    [swarm->particle == NULL] fails and the function goes on to the
    parallel region. *)
Definition pso_init_omp (function : string) (dim swarm_size : Z)
    (xmin xmax : float) (num_threads : Z) : outcome swarm_t :=
  let seed := time E mod 2 ^ 32 in
  let swarm :=
    Swarm.mk swarm_size (replicate (Z.to_nat swarm_size) no_particle) in
  let sched := omp_schedule E (Swarm.num_particles swarm) num_threads in
  bind
    (omp_for sched (fun _ i st => init_particle function dim xmin xmax i st)
       (Returned (swarm, seed)))
    (fun '(swarm, _) =>
       let local_g0 := map (local_g_at E 0) (seq 0 (Z.to_nat num_threads)) in
       let nested :=
         reducer_schedule E (Swarm.num_particles swarm) num_threads in
       let g := pso_get_best_fitness_omp nested local_g0 swarm num_threads in
       Returned (broadcast_g sched g swarm)).

(** The coefficients: [float w = 0.79, c1 = 1.49, c2 = 1.49] *)
Definition w : float := F32.of_double lit_0_79.
Definition c1 : float := F32.of_double lit_1_49.
Definition c2 : float := F32.of_double lit_1_49.

(** Body of the loop over the dimensions (lines 50-65) for particle [i]
    and dimension [j].  The state is the swarm and the thread's [seed]. *)
Definition update_dim (xmin xmax : float) (i j : nat)
    (st : swarm_t * Z) : swarm_t * Z :=
  let '(swarm, seed) := st in
  let particle := particle_at swarm i in
  let gbest := particle_ix swarm (Particle.g particle) in
  let '(k1, seed) := rand_r L seed in
  let r1 := (F32.of_int k1 / F32.of_int RAND_MAX)%f32 in
  let '(k2, seed) := rand_r L seed in
  let r2 := (F32.of_int k2 / F32.of_int RAND_MAX)%f32 in
  let xj := rdf (Particle.x particle) j in
  let vj :=
    (w * rdf (Particle.v particle) j
     + c1 * r1 * (rdf (Particle.pbest particle) j - xj)
     + c2 * r2 * (rdf (Particle.x gbest) j - xj))%f32 in
  let r := F32.fabsf (xmax - xmin)%f32 in
  let '(vj, seed) :=
    if ((vj <? - r) || (vj >? r))%f32 then uniform_omp L (- r)%f32 r seed
    else (vj, seed) in
  let xj := (xj + vj)%f32 in
  let xj := if (xj >? xmax)%f32 then xmax else xj in
  let xj := if (xj <? xmin)%f32 then xmin else xj in
  let particle :=
    Particle.set_x
      (Particle.set_v particle (<[j := vj]> (Particle.v particle)))
      (<[j := xj]> (Particle.x particle)) in
  (Swarm.set_particle swarm i particle, seed).

(** Body of the loop over the particles (lines 46-76).  The state is the
    swarm and the thread's private [seed] and [curr_fitness]. *)
Definition update_particle (function : string) (xmin xmax : float) (i : nat)
    (st : swarm_t * Z * float) : swarm_t * Z * float :=
  let '(swarm, seed, curr_fitness) := st in
  let seed := (seed + Z.of_nat i) mod 2 ^ 32 in
  let dim := Particle.dim (particle_at swarm i) in
  let '(swarm, seed) :=
    fold_left (fun st j => update_dim xmin xmax i j st)
      (seq 0 (Z.to_nat dim)) (swarm, seed) in
  let particle := particle_at swarm i in
  let '(_, curr_fitness) := pso_eval_fitness L function particle curr_fitness in
  let swarm :=
    if (curr_fitness <? Particle.fitness particle)%f32
    then
      Swarm.set_particle swarm i
        (copy_pbest (Particle.dim particle)
           (Particle.set_fitness particle curr_fitness))
    else swarm in
  (swarm, seed, curr_fitness).

(** One thread's share of the update loop in iteration [iter] *)
Definition update_thread (function : string) (xmin xmax : float) (iter : nat)
    (tid : nat) (blk : list nat) (swarm : swarm_t) : swarm_t :=
  fst (fst
    (fold_left (fun st i => update_particle function xmin xmax i st) blk
       (swarm, seed_at E iter tid mod 2 ^ 32, curr_fitness_at E iter tid))).

(** Body of the [while] loop (lines 41-93).  The state is the swarm and the
    shared variable [g]. *)
Definition iteration (function : string) (xmin xmax : float)
    (num_threads : Z) (iter : nat) (st : swarm_t * Z) : swarm_t * Z :=
  let '(swarm, _) := st in
  let sched := omp_schedule E (Swarm.num_particles swarm) num_threads in
  let swarm := omp_threads sched (update_thread function xmin xmax iter) swarm in
  let local_g0 :=
    map (local_g_at E (Datatypes.S iter)) (seq 0 (Z.to_nat num_threads)) in
  let nested := reducer_schedule E (Swarm.num_particles swarm) num_threads in
  let g := pso_get_best_fitness_omp nested local_g0 swarm num_threads in
  (broadcast_g sched g swarm, g).

(** [while (iter < max_iter) { ...; iter++; }] *)
Fixpoint while_loop (fuel : nat) (function : string) (xmin xmax : float)
    (max_iter num_threads : Z) (iter : nat) (st : swarm_t * Z) : swarm_t * Z :=
  match fuel with
  | O => st
  | Datatypes.S fuel =>
      if Z.of_nat iter <? max_iter
      then
        while_loop fuel function xmin xmax max_iter num_threads
          (Datatypes.S iter)
          (iteration function xmin xmax num_threads iter st)
      else st
  end.

(** The state of [optimize_using_omp] when its loop is left: the swarm
    and [g], for [swarm_size >= 0].  The initialisation returns [NULL]
    only when its allocation fails; with the allocation granted the test
    [swarm == NULL] fails and the function goes on.  The value
    [time(NULL)] gives [seed] is not used: [seed] is [private] in the
    parallel region, whose threads start from [seed_at]. *)
Definition optimize_state (function : string) (dim swarm_size : Z)
    (xmin xmax : float) (max_iter num_threads : Z) : outcome (swarm_t * Z) :=
  bind (pso_init_omp function dim swarm_size xmin xmax num_threads)
    (fun swarm =>
       let seed := time E mod 2 ^ 32 in
       let iter := 0%nat in
       let g := -1 in
       Returned
         (while_loop (Z.to_nat max_iter) function xmin xmax max_iter
            num_threads iter (swarm, g))).

(** [int optimize_using_omp(char *function, int dim, int swarm_size,
    float xmin, float xmax, int max_iter, int num_threads)]: the value
    returned, after the solution is printed and the swarm freed *)
Definition optimize_using_omp (function : string) (dim swarm_size : Z)
    (xmin xmax : float) (max_iter num_threads : Z) : outcome Z :=
  bind
    (optimize_state function dim swarm_size xmin xmax max_iter num_threads)
    (fun '(_, g) => Returned g).

End WithEnvironment.

End Pso.

(** *** The reduction as the specification words it

    Within a partition the first particle strictly smaller than the
    running local best is kept; the local results are then scanned in
    worker order and the last worker whose local best equals the global
    minimum overwrites the running choice. *)
Fixpoint spec_local_best (fit : nat -> float) (blk : list nat)
    (running : Z * float) : Z * float :=
  match blk with
  | [] => running
  | i :: rest =>
      spec_local_best fit rest
        (if (fit i <? snd running)%f32 then (Z.of_nat i, fit i) else running)
  end.

Definition spec_minimum (l : list float) : float :=
  match l with
  | [] => S754_nan
  | f :: rest => fold_left (fun m y => if (y <? m)%f32 then y else m) rest f
  end.

Fixpoint spec_last_equal (m : float) (locals : list (Z * float))
    (running : Z) : Z :=
  match locals with
  | [] => running
  | (gi, fi) :: rest =>
      spec_last_equal m rest (if (fi ==? m)%f32 then gi else running)
  end.

Definition spec_reducer (fit : nat -> float) (sched : schedule)
    (local_g0 : list Z) : Z :=
  let locals :=
    zip_with (fun blk g0 => spec_local_best fit blk (g0, F32.INFINITY))
      sched local_g0 in
  spec_last_equal (spec_minimum (locals.*2)) locals (rdz (locals.*1) 0).

Definition fitness_of (sw : swarm_t) (i : nat) : float :=
  Particle.fitness (particle_at sw i).

(** *** What the two stages select *)

(** [r] is the running pair after a block: either nothing in the block was
    strictly below the initial value, or [r] is the first element of the
    block that is strictly below everything before it and not above
    anything after it. *)
Definition first_strict_min (fit : nat -> float) (blk : list nat)
    (start : Z * float) (r : Z * float) : Prop :=
  (r = start /\ forall k, k ∈ blk -> ~ flt (fit k) (snd start))
  \/ exists pre i post,
       blk = pre ++ i :: post /\ r = (Z.of_nat i, fit i) /\
       flt (fit i) (snd start) /\
       (forall k, k ∈ pre -> is_nan (fit k) = false -> flt (fit i) (fit k)) /\
       (forall k, k ∈ post -> ~ flt (fit k) (fit i)).

(** *** The per-dimension rule as the specification words it *)

(** A uniform sample of [[lo, hi]] from a draw [k] of [rand_r]: the draw
    scaled to [[0, 1]] by [RAND_MAX], then to the range, in binary32 *)
Definition uniform_sample (lo hi : float) (k : Z) : float :=
  (lo + (F32.of_int k / F32.of_int RAND_MAX) * (hi - lo))%f32.

(** The velocity just computed is kept when it lies in [[-r, r]] and is
    otherwise replaced by a uniform sample of [[-r, r]] made from the
    next draw of the stream in state [seed]. *)
Definition resample_outside (L : libc) (r vnew : float) (seed : Z) : float * Z :=
  if (F32.ltb vnew (F32.opp r) || F32.gtb vnew r)%bool
  then
    let d := rand_r L seed in
    (uniform_sample (F32.opp r) r (fst d), snd d)
  else (vnew, seed).

(** Clamping to the nearer bound *)
Definition hard_clamp (xmin xmax y : float) : float :=
  if F32.gtb y xmax then (if F32.ltb xmax xmin then xmin else xmax)
  else if F32.ltb y xmin then xmin
  else y.

(** The velocity formula with the two draws [k1], [k2] *)
Definition new_velocity (k1 k2 : Z) (vj pbestj xj gxj : float) : float :=
  let r1 := (F32.of_int k1 / F32.of_int RAND_MAX)%f32 in
  let r2 := (F32.of_int k2 / F32.of_int RAND_MAX)%f32 in
  (Pso.w * vj + Pso.c1 * r1 * (pbestj - xj) + Pso.c2 * r2 * (gxj - xj))%f32.

(** One dimension of the update of a particle: from the old velocity,
    personal best and position in that dimension, the position of the
    global best there, and the state of the random stream, to the new
    velocity, the new position and the next state of the stream. *)
Definition dim_step (L : libc) (xmin xmax : float)
    (vj pbestj xj gxj : float) (seed : Z) : float * float * Z :=
  let d1 := rand_r L seed in
  let d2 := rand_r L (snd d1) in
  let vnew := new_velocity (fst d1) (fst d2) vj pbestj xj gxj in
  let rs := resample_outside L (F32.fabsf (xmax - xmin)%f32) vnew (snd d2) in
  (fst rs, hard_clamp xmin xmax (xj + fst rs)%f32, snd rs).

(** Cell [j] of particle [i] after the update, [p'], is what [dim_step]
    makes of cell [j] before the update, [p], for some state of the
    thread's random stream. *)
Definition dim_rule (L : libc) (xmin xmax : float) (sw : swarm_t)
    (j : nat) (p p' : particle_t) : Prop :=
  exists seed : Z,
    (rdf (Particle.v p') j, rdf (Particle.x p') j)
    = fst (dim_step L xmin xmax
             (rdf (Particle.v p) j) (rdf (Particle.pbest p) j)
             (rdf (Particle.x p) j)
             (rdf (Particle.x (particle_ix sw (Particle.g p))) j) seed).

(** The state of the thread's random stream when the update of a
    particle, begun with the stream in state [seed], reaches dimension
    [j]: every earlier dimension has taken two draws, and a third one if
    its velocity was resampled.  [p] is the particle and [gbest] the
    global best before the update. *)
Fixpoint stream_at (L : libc) (xmin xmax : float) (p gbest : particle_t)
    (seed : Z) (j : nat) : Z :=
  match j with
  | O => seed
  | S j' =>
      snd (dim_step L xmin xmax
             (rdf (Particle.v p) j') (rdf (Particle.pbest p) j')
             (rdf (Particle.x p) j') (rdf (Particle.x gbest) j')
             (stream_at L xmin xmax p gbest seed j'))
  end.

(** What the update, entered with the thread's [seed], leaves in
    dimension [j] of particle [i], whose state before the update is read
    in [sw] and whose state after it is [p'].  With [k1], [k2], [k3] the
    next three draws of the thread's stream when it reaches dimension
    [j]:
    - the new velocity is the value of the formula on [k1], [k2] if that
      lies in [[-r, r]], [r = |xmax - xmin|], and otherwise the uniform
      sample of [[-r, r]] made from [k3];
    - the new position is the old position plus the new velocity, moved to
      [xmax] if above it and to [xmin] if below it, which puts it in
      [[xmin, xmax]] when [xmin <= xmax] and the sum is not a NaN. *)
Definition update_rule_at (L : libc) (xmin xmax : float) (sw : swarm_t)
    (i j : nat) (seed : Z) (p' : particle_t) : Prop :=
  let p := particle_at sw i in
  let gbest := particle_ix sw (Particle.g p) in
  let r := F32.fabsf (xmax - xmin)%f32 in
  let s0 := stream_at L xmin xmax p gbest ((seed + Z.of_nat i) mod 2 ^ 32) j in
  let d1 := rand_r L s0 in
  let d2 := rand_r L (snd d1) in
  let d3 := rand_r L (snd d2) in
  let vnew :=
    new_velocity (fst d1) (fst d2)
      (rdf (Particle.v p) j) (rdf (Particle.pbest p) j)
      (rdf (Particle.x p) j) (rdf (Particle.x gbest) j) in
  let moved := (rdf (Particle.x p) j + rdf (Particle.v p') j)%f32 in
  rdf (Particle.v p') j
  = (if (F32.ltb vnew (F32.opp r) || F32.gtb vnew r)%bool
     then uniform_sample (F32.opp r) r (fst d3)
     else vnew) /\
  rdf (Particle.x p') j = hard_clamp xmin xmax moved /\
  (rdf (Particle.x p') j = moved \/ rdf (Particle.x p') j = xmin \/
   rdf (Particle.x p') j = xmax) /\
  (fle xmin xmax -> is_nan moved = false ->
   fle xmin (rdf (Particle.x p') j) /\ fle (rdf (Particle.x p') j) xmax).

(** The rule as the specification has it, for every update: a velocity
    computed outside [[-r, r]] is replaced by a sample of [[-r, r]], so
    that the velocity stored lies in that range, and the position stored
    lies in [[xmin, xmax]]. *)
Definition spec_update_rule (L : libc) (xmin xmax : float) (sw : swarm_t)
    (i j : nat) (seed : Z) (p' : particle_t) : Prop :=
  let p := particle_at sw i in
  let gbest := particle_ix sw (Particle.g p) in
  let r := F32.fabsf (xmax - xmin)%f32 in
  let s0 := stream_at L xmin xmax p gbest ((seed + Z.of_nat i) mod 2 ^ 32) j in
  let d1 := rand_r L s0 in
  let d2 := rand_r L (snd d1) in
  let vnew :=
    new_velocity (fst d1) (fst d2)
      (rdf (Particle.v p) j) (rdf (Particle.pbest p) j)
      (rdf (Particle.x p) j) (rdf (Particle.x gbest) j) in
  (if (F32.ltb vnew (F32.opp r) || F32.gtb vnew r)%bool
   then fle (F32.opp r) (rdf (Particle.v p') j) /\ fle (rdf (Particle.v p') j) r
   else rdf (Particle.v p') j = vnew) /\
  fle xmin (rdf (Particle.x p') j) /\ fle (rdf (Particle.x p') j) xmax.

(** The loop over the dimensions of particle [i], from dimension [a], for
    [n] dimensions *)
Definition dims_loop (L : libc) (xmin xmax : float) (i a n : nat)
    (st : swarm_t * Z) : swarm_t * Z :=
  fold_left (fun st j => Pso.update_dim L xmin xmax i j st) (seq a n) st.

(** [f'] is not above [f]: unchanged, or strictly smaller *)
Definition non_increasing (f' f : float) : Prop := f' = f \/ flt f' f.

(** [sw'] is [sw] after some updates: the same number of particles, and
    no stored fitness has gone up. *)
Definition improves (sw' sw : swarm_t) : Prop :=
  Swarm.num_particles sw' = Swarm.num_particles sw /\
  length (Swarm.particle sw') = length (Swarm.particle sw) /\
  forall k, non_increasing (fitness_of sw' k) (fitness_of sw k).

(** A particle whose three arrays hold [dim] cells *)
Definition particle_ok (p : particle_t) : Prop :=
  length (Particle.x p) = Z.to_nat (Particle.dim p) /\
  length (Particle.v p) = Z.to_nat (Particle.dim p) /\
  length (Particle.pbest p) = Z.to_nat (Particle.dim p).

(** The reduction is well defined on [sw] with a team of [num_threads]:
    there is a particle and a worker, the schedule of the reducer's loop
    has one block per worker and hands out every particle index once, and
    every stored fitness is comparable and below +infinity. *)
Definition reducible (E : environment) (num_threads : Z) (sw : swarm_t) : Prop :=
  let N := Z.to_nat (Swarm.num_particles sw) in
  let sched := reducer_schedule E (Swarm.num_particles sw) num_threads in
  (1 <= N)%nat /\ 1 <= num_threads /\
  length sched = Z.to_nat num_threads /\
  block_partition N sched /\
  forall i, (i < N)%nat -> below_inf (fitness_of sw i).

(** What the update makes of the stored fitness and personal best of
    particle [i]: [curr'] is the fitness evaluated at the updated position,
    and both fields are overwritten exactly when [curr'] is strictly
    smaller than the stored fitness. *)
Definition pbest_rule_at (L : libc) (function : string) (sw : swarm_t)
    (i : nat) (curr : float) (p' : particle_t) (curr' : float) : Prop :=
  let p := particle_at sw i in
  exists moved : particle_t,
    Particle.dim moved = Particle.dim p /\
    Particle.x moved = Particle.x p' /\
    curr' = snd (Pso.pso_eval_fitness L function moved curr) /\
    if F32.ltb curr' (Particle.fitness p)
    then Particle.fitness p' = curr' /\
         (particle_ok p -> Particle.pbest p' = Particle.x p')
    else Particle.fitness p' = Particle.fitness p /\
         Particle.pbest p' = Particle.pbest p.

(** *** Configuration errors as the specification words them *)

Definition known_objectives : list string :=
  ["booth"; "rastrigin"; "holder_table"; "eggholder"; "schwefel"]%string.

Definition known_objective (function : string) : Prop :=
  function ∈ known_objectives.

(** The objectives that read [x[0]] and [x[1]] whatever [dim] is *)
Definition two_dimensional : list string :=
  ["booth"; "holder_table"; "eggholder"]%string.

(** The dimensions in which the run of [function] stays inside its
    arrays and its [int] arithmetic: the arrays of a particle have [dim]
    cells, the two-dimensional objectives read [x[0]] and [x[1]], and
    [pso_eval_rastrigin] computes [10 * dim]. *)
Definition dim_in_range (function : string) (dim : Z) : Prop :=
  0 <= dim <= 214748364 /\ (function ∈ two_dimensional -> 2 <= dim).

(** An unknown objective, a non-positive [dim], [N] or [P], or
    [xmin >= xmax] *)
Definition configuration_error (function : string) (dim swarm_size : Z)
    (xmin xmax : float) (num_threads : Z) : Prop :=
  ~ known_objective function \/ dim <= 0 \/ swarm_size <= 0 \/
  num_threads <= 0 \/ fle xmax xmin.

(** No particle of the heap has been given any state. *)
Definition nothing_constructed (heap : swarm_t) : Prop :=
  forall p, p ∈ Swarm.particle heap -> p = no_particle.

(** The run leaves through [exit] before any particle state exists. *)
Definition aborts_before_construction {A : Type} (o : outcome A) : Prop :=
  exists status heap, o = Exited status heap /\ nothing_constructed heap.

(** The particle [init_particle] has built for index [i] when it
    evaluates the fitness: [dim] sampled positions and velocities, and
    the personal best copied from the position. *)
Definition built_particle (L : libc) (dim : Z) (xmin xmax : float)
    (sw : swarm_t) (i : nat) (seed : Z) : particle_t :=
  let seed := (seed + Z.of_nat i) mod 2 ^ 32 in
  let xs := Pso.sample_array L dim xmin xmax seed in
  let r := F32.fabsf (xmax - xmin)%f32 in
  let vs := Pso.sample_array L dim (- r)%f32 r (snd xs) in
  Pso.copy_pbest dim
    (Particle.mk dim (fst xs) (fst vs) (replicate (Z.to_nat dim) S754_nan)
       (Particle.fitness (particle_at sw i)) (Particle.g (particle_at sw i))).

(** ** Concrete inputs used in the examples *)

(** glibc's [rand_r] (stdlib/rand_r.c) *)
Definition glibc_rand_r (seed : Z) : Z * Z :=
  let next := (seed * 1103515245 + 12345) mod 2 ^ 32 in
  let result := (next / 65536) mod 2048 in
  let next := (next * 1103515245 + 12345) mod 2 ^ 32 in
  let result := Z.lxor (result * 1024) ((next / 65536) mod 1024) in
  let next := (next * 1103515245 + 12345) mod 2 ^ 32 in
  let result := Z.lxor (result * 1024) ((next / 65536) mod 1024) in
  (result, next).

(** A C library for runs on the Booth function, the only objective that
    needs no transcendental function: [pow] is exact squaring when the
    exponent is 2, and every other call yields a NaN. *)
Definition booth_libc : libc :=
  Libc glibc_rand_r
    (fun _ => S754_nan) (fun _ => S754_nan) (fun _ => S754_nan)
    (fun x y =>
       if SFeqb y (F64.of_int 2) then F64.mul x x else S754_nan).

(** A swarm of which only the fitness values matter *)
Definition swarm_of_fitness (fs : list float) : swarm_t :=
  Swarm.mk (Z.of_nat (length fs))
    (map (fun f => Particle.mk 0 [] [] [] f (-1)) fs).

(** Two particles in two dimensions on [[-10, 10]]; particle 1 is the
    global best.  The first velocity of particle 0 is large enough for
    the formula to leave [[-20, 20]]. *)
Definition two_particles : swarm_t :=
  Swarm.mk 2
    [ Particle.mk 2 [F32.of_int 1; F32.of_int 2] [F32.of_int 30; F32.of_int 0]
        [F32.of_int 1; F32.of_int 2] (F32.of_int 2) 1;
      Particle.mk 2 [F32.of_int 2; F32.of_int 3] [F32.of_int 1; F32.of_int (-1)]
        [F32.of_int 2; F32.of_int 3] (F32.of_int 2) 1 ].

(** One particle in two dimensions on [[0, 2e38]], its own global best:
    position (0, 0), velocity (2e38, 0), personal best (2e38, 0), all
    inside their ranges *)
Definition fast_particle : swarm_t :=
  let big := S754_finite false 9860761 104 in
  let zero := S754_zero false in
  Swarm.mk 1
    [ Particle.mk 2 [zero; zero] [big; zero] [big; zero] F32.INFINITY 0 ].

(** One particle in two dimensions on [[-10, 10]] whose first velocity is
    a NaN *)
Definition nan_particle : swarm_t :=
  Swarm.mk 1
    [ Particle.mk 2 [F32.of_int 1; F32.of_int 3] [S754_nan; F32.of_int 0]
        [F32.of_int 1; F32.of_int 3] (F32.of_int 0) 0 ].

(** Fitness 3, 1, 2, 1, 5: the minimum occurs in both blocks of two workers *)
Definition tied_swarm : swarm_t :=
  swarm_of_fitness (map F32.of_int [3; 1; 2; 1; 5]).

(** An environment with libgomp's defaults: the static schedule, and the
    nested region of the reducer run by one thread; [-1] in every cell
    of [local_g], [s] in every private [seed], a NaN in every private
    [curr_fitness]; the clock reads [t]. *)
Definition static_environment (t s : Z) : environment :=
  Environment t
    (fun n p => static_schedule (Z.to_nat n) (Z.to_nat p))
    (fun n p => serial_schedule (Z.to_nat n) (Z.to_nat p))
    (fun _ _ => -1) (fun _ _ => s) (fun _ _ => S754_nan).

(** ** Further definitions: scores, invariants, the serial initialisation *)

(** The value the objective [function] gives the position [xs] in
    dimension [dim]: what [pso_eval_fitness] writes for a particle with
    that position. *)
Definition score (L : libc) (function : string) (dim : Z) (xs : list float) : float :=
  snd (Pso.pso_eval_fitness L function (Particle.mk dim xs [] [] S754_nan 0)
         S754_nan).

(** A particle of a run in dimension [dim] on [function]: its arrays hold
    [dim] cells and its stored fitness is the score of its personal
    best. *)
Definition particle_inv (L : libc) (function : string) (dim : Z)
    (p : particle_t) : Prop :=
  Particle.dim p = dim /\ particle_ok p /\
  Particle.fitness p = score L function dim (Particle.pbest p).

(** Every particle in the range of the swarm satisfies [particle_inv]. *)
Definition swarm_inv (L : libc) (function : string) (dim : Z)
    (sw : swarm_t) : Prop :=
  forall i, (i < length (Swarm.particle sw))%nat ->
    particle_inv L function dim (particle_at sw i).

(** The index [r] is handed out by the schedule. *)
Definition handed_out (sched : schedule) (r : nat) : Prop := r ∈ concat sched.

(** The index [i], found in the block of worker [w] between [pre] and
    [post], is the one the two-stage rule selects: within its block it is
    the first with its fitness (everything comparable before it is
    strictly larger, nothing after it is strictly smaller); its fitness
    is the least handed out; and every particle of a later worker is
    strictly larger or not comparable, so that [w] is the last worker
    whose local best equals the minimum. *)
Definition two_stage_selects (fit : nat -> float) (sched : schedule)
    (w : nat) (pre : list nat) (i : nat) (post : list nat) : Prop :=
  sched !! w = Some (pre ++ i :: post) /\
  below_inf (fit i) /\
  (forall k, k ∈ pre -> is_nan (fit k) = false -> flt (fit i) (fit k)) /\
  (forall k, k ∈ post -> ~ flt (fit k) (fit i)) /\
  (forall k, handed_out sched k -> ~ flt (fit k) (fit i)) /\
  (forall w' blk' k,
     (w < w')%nat -> sched !! w' = Some blk' -> k ∈ blk' ->
     ~ fle (fit k) (fit i)).

(** Fitness 7, NaN, +infinity, 4, NaN, 4: the comparable values below
    +infinity are at 0, 3 and 5. *)
Definition patchy_swarm : swarm_t :=
  swarm_of_fitness
    [F32.of_int 7; S754_nan; F32.INFINITY; F32.of_int 4; S754_nan; F32.of_int 4].

(** Fitness NaN, +infinity, NaN: nothing is below +infinity. *)
Definition blank_swarm : swarm_t :=
  swarm_of_fitness [S754_nan; F32.INFINITY; S754_nan].

(** A particle as the initialisation leaves it, before [g] is broadcast:
    [dim] cells in each array, the personal best equal to the position,
    the fitness equal to the score of the position, and [g = -1]. *)
Definition init_post (L : libc) (function : string) (dim : Z)
    (p : particle_t) : Prop :=
  Particle.dim p = dim /\ particle_ok p /\
  Particle.pbest p = Particle.x p /\
  Particle.fitness p = score L function dim (Particle.x p) /\
  Particle.g p = -1.

(** The state after the iterations [0 .. n-1] of the loop *)
Definition iterations (L : libc) (E : environment) (function : string)
    (xmin xmax : float) (num_threads : Z) (n : nat) (st : swarm_t * Z) :
    swarm_t * Z :=
  fold_left (fun st iter => Pso.iteration L E function xmin xmax num_threads iter st)
    (seq 0 n) st.

(** Two particles in two dimensions with their Booth scores: (1, 3) is
    the minimum of the Booth function, with score 0, and (1, 2) has score
    5.  Particle 0 is the global best. *)
Definition booth_swarm : swarm_t :=
  Swarm.mk 2
    [ Particle.mk 2 [F32.of_int 1; F32.of_int 3] [F32.of_int 0; F32.of_int 0]
        [F32.of_int 1; F32.of_int 3] (F32.of_int 0) 0;
      Particle.mk 2 [F32.of_int 1; F32.of_int 2] [F32.of_int 1; F32.of_int (-1)]
        [F32.of_int 1; F32.of_int 2] (F32.of_int 5) 0 ].

(** The swarm a run of the initialisation returns, for the examples *)
Definition initial_swarm : swarm_t :=
  match
    Pso.pso_init_omp booth_libc (static_environment 0 0) "booth" 2 3
      (F32.of_int (-10)) (F32.of_int 10) 2
  with
  | Returned sw => sw
  | Exited _ heap => heap
  end.

(** ** The serial initialisation (pso_utils.c, [uniform] and [pso_init]) *)

Module PsoSerial.

Section WithRand.
Variable L : libc.
(** [rand s] is the pair of the value [rand()] returns when the hidden
    state of the generator is [s] and the state it leaves. *)
Variable rand : Z -> Z * Z.

(** [float uniform(float min, float max)], on the state of [rand] *)
Definition uniform (min max : float) (s : Z) : float * Z :=
  let '(k, s) := rand s in
  let normalized := (F32.of_int k / F32.of_int RAND_MAX)%f32 in
  ((min + normalized * (max - min))%f32, s).

(** [for (j = 0; j < dim; j++) a[j] = uniform(lo, hi);] on a freshly
    allocated array *)
Definition sample_array (dim : Z) (lo hi : float) (s : Z) : list float * Z :=
  fold_left
    (fun '(a, s) j => let '(u, s) := uniform lo hi s in (<[j := u]> a, s))
    (seq 0 (Z.to_nat dim)) (replicate (Z.to_nat dim) S754_nan, s).

(** Body of the first loop of [pso_init] (lines 278-304).  The state is
    [inl] of the swarm and the state of [rand] while the loop runs, and
    [inr] of them once [return NULL] has been executed. *)
Definition init_particle (function : string) (dim : Z) (xmin xmax : float)
    (i : nat) (st : swarm_t * Z + swarm_t * Z) : swarm_t * Z + swarm_t * Z :=
  match st with
  | inr stopped => inr stopped
  | inl (swarm, s) =>
      let '(x, s) := sample_array dim xmin xmax s in
      let r := F32.fabsf (xmax - xmin)%f32 in
      let '(v, s) := sample_array dim (- r)%f32 r s in
      let particle :=
        Pso.copy_pbest dim
          (Particle.mk dim x v (replicate (Z.to_nat dim) S754_nan)
             (Particle.fitness (particle_at swarm i))
             (Particle.g (particle_at swarm i))) in
      let swarm := Swarm.set_particle swarm i particle in
      let '(status, fitness) :=
        Pso.pso_eval_fitness L function particle S754_nan in
      if status <? 0 then inr (swarm, s)
      else
        let particle :=
          Particle.set_g (Particle.set_fitness particle fitness) (-1) in
        inl (Swarm.set_particle swarm i particle, s)
  end.

(** [swarm_t *pso_init(char *function, int dim, int swarm_size,
    float xmin, float xmax)] from the state [s] of [rand]: [inl] of the
    swarm returned, or [inr] of the heap left behind when [NULL] is
    returned, each with the state of [rand] on return.  Allocation is
    taken to succeed. *)
Definition pso_init (function : string) (dim swarm_size : Z)
    (xmin xmax : float) (s : Z) : swarm_t * Z + swarm_t * Z :=
  let swarm :=
    Swarm.mk swarm_size (replicate (Z.to_nat swarm_size) no_particle) in
  let n := Z.to_nat (Swarm.num_particles swarm) in
  match
    fold_left (fun st i => init_particle function dim xmin xmax i st)
      (seq 0 n) (inl (swarm, s))
  with
  | inr stopped => inr stopped
  | inl (swarm, s) =>
      let g := Pso.pso_get_best_fitness swarm in
      let swarm :=
        fold_left
          (fun swarm i =>
             Swarm.set_particle swarm i (Particle.set_g (particle_at swarm i) g))
          (seq 0 (Z.to_nat (Swarm.num_particles swarm))) swarm in
      inl (swarm, s)
  end.

End WithRand.

End PsoSerial.

(** glibc's [rand_r] taken as the generator behind [rand], for the
    examples: the value and the next state *)
Definition example_rand (s : Z) : Z * Z := glibc_rand_r s.

(** The state of [rand] after [n] calls from the state [s] *)
Definition rand_state_after (rand : Z -> Z * Z) (n : nat) (s : Z) : Z :=
  Nat.iter n (fun s => snd (rand s)) s.

(** * Proofs *)

(** ** The order of the comparisons *)

Lemma key_compare_Lt k1 k2 : key_compare k1 k2 = Lt <-> klt k1 k2.
Proof.
  destruct k1 as [[c1 e1] m1], k2 as [[c2 e2] m2]; simpl.
  destruct (Z.compare_spec c1 c2), (Z.compare_spec e1 e2),
    (Z.compare_spec m1 m2); split; intros; try discriminate; try lia; auto.
Qed.

Lemma key_compare_Eq k1 k2 : key_compare k1 k2 = Eq <-> keq k1 k2.
Proof.
  destruct k1 as [[c1 e1] m1], k2 as [[c2 e2] m2]; simpl.
  destruct (Z.compare_spec c1 c2), (Z.compare_spec e1 e2),
    (Z.compare_spec m1 m2); split; intros; try discriminate; try lia; auto.
Qed.

Lemma key_compare_Gt k1 k2 : key_compare k1 k2 = Gt <-> klt k2 k1.
Proof.
  destruct k1 as [[c1 e1] m1], k2 as [[c2 e2] m2]; simpl.
  destruct (Z.compare_spec c1 c2), (Z.compare_spec e1 e2),
    (Z.compare_spec m1 m2); split; intros; try discriminate; try lia; auto.
Qed.

Lemma SFcompare_key a b :
  is_nan a = false -> is_nan b = false ->
  SFcompare a b = Some (key_compare (key a) (key b)).
Proof.
  destruct a as [sa|sa| |sa ma ea], b as [sb|sb| |sb mb eb];
    try discriminate; intros _ _;
    repeat match goal with s : bool |- _ => destruct s end;
    simpl; try reflexivity.
  rewrite Z.compare_opp.
  destruct (Z.compare_spec ea eb) as [->|Hlt|Hgt].
  - rewrite Z.compare_refl. reflexivity.
  - destruct (Z.compare_spec eb ea); try lia. reflexivity.
  - destruct (Z.compare_spec eb ea); try lia. reflexivity.
Qed.

Lemma ltb_spec a b :
  F32.ltb a b = true <->
  is_nan a = false /\ is_nan b = false /\ klt (key a) (key b).
Proof.
  unfold F32.ltb, SFltb.
  destruct (is_nan a) eqn:Ha; [destruct a; try discriminate; simpl; intuition discriminate|].
  destruct (is_nan b) eqn:Hb;
    [destruct a, b; try discriminate; simpl; intuition discriminate|].
  rewrite SFcompare_key by assumption. rewrite <- key_compare_Lt.
  destruct (key_compare (key a) (key b)); intuition discriminate.
Qed.

Lemma eqb_spec a b :
  F32.eqb a b = true <->
  is_nan a = false /\ is_nan b = false /\ keq (key a) (key b).
Proof.
  unfold F32.eqb, SFeqb.
  destruct (is_nan a) eqn:Ha; [destruct a; try discriminate; simpl; intuition discriminate|].
  destruct (is_nan b) eqn:Hb;
    [destruct a, b; try discriminate; simpl; intuition discriminate|].
  rewrite SFcompare_key by assumption. rewrite <- key_compare_Eq.
  destruct (key_compare (key a) (key b)); intuition discriminate.
Qed.

Lemma leb_spec a b :
  F32.leb a b = true <->
  is_nan a = false /\ is_nan b = false /\
  (klt (key a) (key b) \/ keq (key a) (key b)).
Proof.
  unfold F32.leb, SFleb.
  destruct (is_nan a) eqn:Ha; [destruct a; try discriminate; simpl; intuition discriminate|].
  destruct (is_nan b) eqn:Hb;
    [destruct a, b; try discriminate; simpl; intuition discriminate|].
  rewrite SFcompare_key by assumption.
  rewrite <- key_compare_Lt, <- key_compare_Eq.
  destruct (key_compare (key a) (key b)); intuition discriminate.
Qed.

(** Turns every comparison in the context and the goal into linear
    arithmetic on the keys. *)
Ltac forder :=
  unfold below_inf, non_increasing, fle, flt, feq, F32.gtb in *;
  repeat match goal with
  | H : F32.ltb _ _ = true |- _ => apply ltb_spec in H; destruct H as (? & ? & H)
  | H : F32.leb _ _ = true |- _ => apply leb_spec in H; destruct H as (? & ? & H)
  | H : F32.eqb _ _ = true |- _ => apply eqb_spec in H; destruct H as (? & ? & H)
  end;
  repeat match goal with
  | H : F32.ltb ?a ?b = false |- _ =>
      apply not_true_iff_false in H; rewrite ltb_spec in H
  | H : F32.leb ?a ?b = false |- _ =>
      apply not_true_iff_false in H; rewrite leb_spec in H
  | H : F32.eqb ?a ?b = false |- _ =>
      apply not_true_iff_false in H; rewrite eqb_spec in H
  end;
  repeat match goal with
  | H : ~ (?A /\ ?B /\ ?K) |- _ =>
      let H' := fresh in
      assert (H' : ~ K) by (intro; apply H; repeat split; assumption);
      clear H
  end;
  try match goal with
  | |- F32.ltb _ _ = true => apply ltb_spec
  | |- F32.leb _ _ = true => apply leb_spec
  | |- F32.eqb _ _ = true => apply eqb_spec
  | |- F32.ltb _ _ = false => apply not_true_iff_false; rewrite ltb_spec
  | |- F32.leb _ _ = false => apply not_true_iff_false; rewrite leb_spec
  | |- F32.eqb _ _ = false => apply not_true_iff_false; rewrite eqb_spec
  end;
  try match goal with
  | |- _ /\ _ /\ _ => split; [assumption|split; [assumption|]]
  end;
  repeat match goal with
  | |- context [key ?a] =>
      let c := fresh "c" in let e := fresh "e" in let m := fresh "m" in
      destruct (key a) as [[c e] m]
  | H : context [key ?a] |- _ =>
      let c := fresh "c" in let e := fresh "e" in let m := fresh "m" in
      destruct (key a) as [[c e] m]
  end;
  unfold klt, keq in *;
  try solve [intuition (first [congruence | lia])].

Lemma flt_trans a b c : flt a b -> flt b c -> flt a c.
Proof. intros; forder. Qed.

Lemma fle_trans a b c : fle a b -> fle b c -> fle a c.
Proof. intros; forder. Qed.

Lemma flt_fle_trans a b c : flt a b -> fle b c -> flt a c.
Proof. intros; forder. Qed.

Lemma fle_flt_trans a b c : fle a b -> flt b c -> flt a c.
Proof. intros; forder. Qed.

Lemma flt_fle a b : flt a b -> fle a b.
Proof. intros; forder. Qed.

Lemma feq_fle a b : feq a b -> fle a b.
Proof. intros; forder. Qed.

Lemma feq_sym a b : feq a b -> feq b a.
Proof. intros; forder. Qed.

Lemma feq_fle_trans a b c : feq a b -> fle b c -> fle a c.
Proof. intros; forder. Qed.

Lemma flt_irrefl a : ~ flt a a.
Proof. intros H; forder. Qed.

Lemma fle_flt_absurd a b : fle a b -> flt b a -> False.
Proof. intros; forder. Qed.

Lemma fle_refl a : is_nan a = false -> fle a a.
Proof. intros; forder. Qed.

Lemma feq_refl a : is_nan a = false -> feq a a.
Proof. intros; forder. Qed.

Lemma not_flt_fle a b :
  is_nan a = false -> is_nan b = false -> F32.ltb a b = false -> fle b a.
Proof. intros; forder. Qed.

Lemma flt_not_nan_l a b : flt a b -> is_nan a = false.
Proof. intros; forder. Qed.

Lemma flt_not_nan_r a b : flt a b -> is_nan b = false.
Proof. intros; forder. Qed.

Lemma below_inf_not_nan a : below_inf a -> is_nan a = false.
Proof. apply flt_not_nan_l. Qed.

Lemma finite_below_inf a : is_finite a = true -> below_inf a.
Proof. destruct a as [s|s| |s m e]; try discriminate; destruct s; reflexivity. Qed.

Lemma not_nan_fle_inf a : is_nan a = false -> fle a F32.INFINITY.
Proof. destruct a as [s|s| |s m e]; try discriminate; destruct s; reflexivity. Qed.

(** ** Proofs about the reduction *)

Section ArrayLoops.
Context {A : Type}.

(** A counted loop that reads [input[i]] is a fold over the array. *)
Lemma fold_index_app {B : Type} (d : A) (f : B -> A -> B)
    (pre l : list A) (b : B) :
  fold_left (fun acc i => f acc (default d ((pre ++ l) !! i)))
    (seq (length pre) (length l)) b
  = fold_left f l b.
Proof.
  revert pre b. induction l as [|a l IH]; intros pre b; [reflexivity|].
  cbn [length seq fold_left].
  rewrite list_lookup_middle by reflexivity. cbn [default].
  specialize (IH (pre ++ [a]) (f b a)).
  rewrite length_app, Nat.add_1_r, <- app_assoc in IH. exact IH.
Qed.

Lemma fold_index {B : Type} (d : A) (f : B -> A -> B) (l : list A) (b : B) :
  fold_left (fun acc i => f acc (default d (l !! i))) (seq 0 (length l)) b
  = fold_left f l b.
Proof. exact (fold_index_app d f [] l b). Qed.

(** Filling an array of [n] cells from index 0 upwards. *)
Lemma fill_lookup (v : A) (k s : nat) (l : list A) (j : nat) :
  fold_left (fun a i => <[i:=v]> a) (seq s k) l !! j
  = if decide (s <= j < s + k /\ j < length l)%nat then Some v else l !! j.
Proof.
  revert s l. induction k as [|k IH]; intros s l; cbn [seq fold_left].
  - destruct (decide _) as [H|H]; [lia|reflexivity].
  - rewrite IH, length_insert.
    destruct (decide (s = j)) as [->|Hne].
    + destruct (decide (S j <= j < _ /\ _)%nat) as [H|_]; [lia|].
      destruct (decide (j <= j < _ /\ _)%nat) as [H|H].
      * apply list_lookup_insert_eq. lia.
      * rewrite list_insert_ge by lia. reflexivity.
    + rewrite list_lookup_insert_ne by assumption.
      repeat destruct (decide _); try reflexivity; lia.
Qed.

Lemma fill_replicate (v d : A) (n : nat) :
  fold_left (fun a i => <[i:=v]> a) (seq 0 n) (replicate n d)
  = replicate n v.
Proof.
  apply list_eq; intros j. rewrite fill_lookup, length_replicate.
  destruct (decide _) as [H|H].
  - symmetry. apply lookup_replicate_2. lia.
  - rewrite !(proj2 (lookup_ge_None _ _)); [reflexivity| |];
      rewrite length_replicate; lia.
Qed.
End ArrayLoops.

Lemma rdf_insert_eq (l : list float) (i : nat) (a : float) :
  (i < length l)%nat -> rdf (<[i:=a]> l) i = a.
Proof. intros H. unfold rdf. rewrite list_lookup_insert_eq by assumption. reflexivity. Qed.

Lemma rdz_insert_eq (l : list Z) (i : nat) (a : Z) :
  (i < length l)%nat -> rdz (<[i:=a]> l) i = a.
Proof. intros H. unfold rdz. rewrite list_lookup_insert_eq by assumption. reflexivity. Qed.

Section ReducerRefinement.
Variable sw : swarm_t.
Let fit := fitness_of sw.

(** One thread's pass over its block only touches its own cells. *)
Lemma local_block_scan tid blk (lf : list float) (lg : list Z) :
  (tid < length lf)%nat -> (tid < length lg)%nat ->
  fold_left (fun s i => Pso.local_best_body sw tid i s) blk (lf, lg)
  = let r := spec_local_best fit blk (rdz lg tid, rdf lf tid) in
    (<[tid := snd r]> lf, <[tid := fst r]> lg).
Proof.
  revert lf lg. induction blk as [|i blk IH]; intros lf lg Hf Hg.
  - cbn. unfold rdf, rdz.
    destruct (lookup_lt_is_Some_2 lf tid Hf) as [a Ha].
    destruct (lookup_lt_is_Some_2 lg tid Hg) as [b Hb].
    rewrite Ha, Hb. cbn. rewrite !list_insert_id by assumption. reflexivity.
  - cbn [fold_left spec_local_best]. unfold Pso.local_best_body at 2.
    fold (fitness_of sw i). fold fit. cbn [snd].
    destruct (fit i <? rdf lf tid)%f32 eqn:Hlt.
    + rewrite IH by (rewrite length_insert; assumption).
      rewrite rdf_insert_eq, rdz_insert_eq by assumption.
      cbv zeta. rewrite !list_insert_insert_eq. reflexivity.
    + apply IH; assumption.
Qed.

Lemma omp_for_local_best (done_f : list float) (done_g : list Z)
    (sched : schedule) (todo_g : list Z) :
  length done_f = length done_g ->
  length todo_g = length sched ->
  let locals :=
    zip_with (fun blk g0 => spec_local_best fit blk (g0, F32.INFINITY))
      sched todo_g in
  omp_threads_from (length done_f) sched
    (fun tid blk s => fold_left (fun s i => Pso.local_best_body sw tid i s) blk s)
    (done_f ++ replicate (length sched) F32.INFINITY, done_g ++ todo_g)
  = (done_f ++ locals.*2, done_g ++ locals.*1).
Proof.
  revert done_f done_g todo_g.
  induction sched as [|blk rest IH]; intros done_f done_g todo_g Hd Ht.
  - destruct todo_g; [|discriminate]. reflexivity.
  - destruct todo_g as [|g0 todo_g]; [discriminate|].
    cbn [omp_threads_from length replicate zip_with fmap list_fmap].
    rewrite local_block_scan
      by (rewrite length_app; cbn [length]; lia).
    unfold rdf, rdz.
    rewrite (list_lookup_middle done_f _ _ _ eq_refl).
    rewrite (list_lookup_middle done_g _ _ (length done_f) Hd).
    cbn [default]. cbv zeta.
    rewrite (insert_app_r_alt done_f) by lia.
    rewrite (insert_app_r_alt done_g) by lia.
    rewrite Nat.sub_diag, <- Hd, Nat.sub_diag. cbn [insert list_insert].
    set (r := spec_local_best fit blk (g0, F32.INFINITY)).
    specialize (IH (done_f ++ [snd r]) (done_g ++ [fst r]) todo_g).
    rewrite !length_app in IH. cbn [length] in IH.
    rewrite Nat.add_1_r, <- !app_assoc in IH. cbn [app] in IH.
    cbn [length] in Ht.
    apply IH; lia.
Qed.

Lemma min_spec_minimum (l : list float) :
  Pso.min l (Z.of_nat (length l)) = spec_minimum l.
Proof.
  unfold Pso.min. rewrite Nat2Z.id. unfold rdf at 1 2.
  rewrite (fold_index S754_nan
             (fun res y => if (res >? y)%f32 then y else res)).
  destruct l as [|f rest]; [reflexivity|].
  cbn [fold_left spec_minimum]. unfold rdf. cbn.
  replace (F32.gtb f f) with false; [reflexivity|].
  unfold F32.gtb. symmetry. apply not_true_iff_false.
  exact (flt_irrefl f).
Qed.

Lemma merge_scan (m : float) (pre locals : list (Z * float)) (run : Z) :
  fold_left
    (fun global_g i =>
       if (rdf ((pre ++ locals).*2) i ==? m)%f32
       then rdz ((pre ++ locals).*1) i else global_g)
    (seq (length pre) (length locals)) run
  = spec_last_equal m locals run.
Proof.
  revert pre run. induction locals as [|[gi fi] rest IH]; intros pre run;
    [reflexivity|].
  cbn [length seq fold_left spec_last_equal].
  unfold rdf at 2, rdz at 2.
  rewrite !list_lookup_fmap, (list_lookup_middle pre _ _ _ eq_refl).
  cbn [fmap option_fmap option_map default fst snd].
  specialize (IH (pre ++ [(gi, fi)])).
  rewrite length_app, Nat.add_1_r, <- app_assoc in IH. apply IH.
Qed.

(** The array program computes what the specification describes. *)
Lemma reducer_refines_spec (P : nat) (sched : schedule) (local_g0 : list Z) :
  length sched = P -> length local_g0 = P ->
  Pso.pso_get_best_fitness_omp sched local_g0 sw (Z.of_nat P)
  = spec_reducer fit sched local_g0.
Proof.
  intros Hs Hg. unfold Pso.pso_get_best_fitness_omp, spec_reducer, omp_for, omp_threads.
  rewrite Nat2Z.id, fill_replicate.
  pose proof (omp_for_local_best [] [] sched local_g0 eq_refl) as H.
  cbn [length app] in H. rewrite Hs in H. rewrite H by lia. clear H.
  set (locals := zip_with _ sched local_g0).
  assert (Hl : length locals = P).
  { unfold locals. rewrite length_zip_with; lia. }
  replace (Z.of_nat P) with (Z.of_nat (length (locals.*2)))
    by (rewrite length_fmap, Hl; reflexivity).
  rewrite min_spec_minimum.
  rewrite <- Hl. exact (merge_scan _ [] locals _).
Qed.
End ReducerRefinement.

Lemma spec_local_best_first_strict_min fit blk start :
  first_strict_min fit blk start (spec_local_best fit blk start).
Proof.
  revert start. induction blk as [|i rest IH]; intros [g f].
  - left. split; [reflexivity|]. intros k Hk. inversion Hk.
  - cbn [spec_local_best snd].
    destruct (fit i <? f)%f32 eqn:Hlt.
    + destruct (IH (Z.of_nat i, fit i)) as [[-> Hnone]|(pre & i' & post & -> & -> & Hi' & Hpre & Hpost)].
      * right. exists [], i, rest. repeat split; auto.
        intros k Hk. inversion Hk.
      * right. exists (i :: pre), i', post. cbn [snd] in *. repeat split; auto.
        -- exact (flt_trans _ _ _ Hi' Hlt).
        -- intros k Hk Hnan. apply elem_of_cons in Hk as [->|Hk]; auto.
    + destruct (IH (g, f)) as [[-> Hnone]|(pre & i' & post & -> & -> & Hi' & Hpre & Hpost)].
      * left. split; [reflexivity|]. intros k Hk.
        apply elem_of_cons in Hk as [->|Hk]; auto.
        cbn [snd]. unfold flt. rewrite Hlt. discriminate.
      * right. exists (i :: pre), i', post. cbn [snd] in *. repeat split; auto.
        intros k Hk Hnan. apply elem_of_cons in Hk as [->|Hk]; auto.
        apply (flt_fle_trans _ f); [assumption|].
        apply not_flt_fle; [assumption| |assumption].
        exact (flt_not_nan_r _ _ Hi').
Qed.

Lemma spec_local_best_not_nan fit blk start :
  is_nan (snd start) = false ->
  is_nan (snd (spec_local_best fit blk start)) = false.
Proof.
  intros Hs.
  destruct (spec_local_best_first_strict_min fit blk start)
    as [[-> _]|(pre & i & post & _ & -> & Hi & _)]; [assumption|].
  exact (flt_not_nan_l _ _ Hi).
Qed.

(** The local best of a block is below every comparable element of it. *)
Lemma spec_local_best_lower_bound fit blk g0 k :
  k ∈ blk -> is_nan (fit k) = false ->
  fle (snd (spec_local_best fit blk (g0, F32.INFINITY))) (fit k).
Proof.
  intros Hk Hnan.
  destruct (spec_local_best_first_strict_min fit blk (g0, F32.INFINITY))
    as [[-> Hnone]|(pre & i & post & -> & -> & Hi & Hpre & Hpost)]; cbn [snd] in *.
  - apply not_flt_fle; [assumption|reflexivity|].
    apply not_true_iff_false. exact (Hnone k Hk).
  - apply elem_of_app in Hk as [Hk|Hk].
    + apply flt_fle. auto.
    + apply elem_of_cons in Hk as [->|Hk].
      * apply fle_refl. assumption.
      * apply not_flt_fle; [assumption|exact (flt_not_nan_l _ _ Hi)|].
        apply not_true_iff_false. exact (Hpost k Hk).
Qed.

(** A block with an element below +infinity yields one of its elements. *)
Lemma spec_local_best_found fit blk g0 k :
  k ∈ blk -> below_inf (fit k) ->
  exists i, i ∈ blk /\
    spec_local_best fit blk (g0, F32.INFINITY) = (Z.of_nat i, fit i) /\
    below_inf (fit i).
Proof.
  intros Hk Hb.
  destruct (spec_local_best_first_strict_min fit blk (g0, F32.INFINITY))
    as [[_ Hnone]|(pre & i & post & -> & -> & Hi & _)]; cbn [snd] in *.
  - destruct (Hnone k Hk Hb).
  - exists i. split; [|split; [reflexivity|assumption]].
    apply elem_of_app. right. apply elem_of_cons. left. reflexivity.
Qed.

Lemma fold_minimum_spec (rest : list float) (f : float) :
  is_nan f = false -> (forall y, y ∈ rest -> is_nan y = false) ->
  let m := fold_left (fun m y => if (y <? m)%f32 then y else m) rest f in
  m ∈ f :: rest /\ fle m f /\ forall y, y ∈ rest -> fle m y.
Proof.
  revert f. induction rest as [|a rest IH]; intros f Hf Hrest; cbn [fold_left].
  - split; [apply elem_of_cons; left; reflexivity|].
    split; [apply fle_refl; assumption|]. intros y Hy. inversion Hy.
  - assert (Ha : is_nan a = false) by (apply Hrest, elem_of_cons; left; reflexivity).
    assert (Hr : forall y, y ∈ rest -> is_nan y = false)
      by (intros y Hy; apply Hrest, elem_of_cons; right; assumption).
    destruct (a <? f)%f32 eqn:Hlt.
    + destruct (IH a Ha Hr) as (Hin & Hle & Hall).
      split; [apply elem_of_cons; right; assumption|].
      split; [exact (fle_trans _ _ _ Hle (flt_fle _ _ Hlt))|].
      intros y Hy. apply elem_of_cons in Hy as [->|Hy]; auto.
    + destruct (IH f Hf Hr) as (Hin & Hle & Hall).
      split.
      { apply elem_of_cons in Hin as [Hin|Hin]; apply elem_of_cons; auto.
        right. apply elem_of_cons. right. assumption. }
      split; [assumption|].
      intros y Hy. apply elem_of_cons in Hy as [->|Hy]; auto.
      apply (fle_trans _ f); [assumption|]. apply not_flt_fle; assumption.
Qed.

Lemma spec_minimum_spec (l : list float) :
  l <> [] -> (forall y, y ∈ l -> is_nan y = false) ->
  spec_minimum l ∈ l /\ forall y, y ∈ l -> fle (spec_minimum l) y.
Proof.
  destruct l as [|f rest]; [congruence|]. intros _ Hall. cbn [spec_minimum].
  destruct (fold_minimum_spec rest f) as (Hin & Hle & Hrest).
  - apply Hall, elem_of_cons. left. reflexivity.
  - intros y Hy. apply Hall, elem_of_cons. right. assumption.
  - split; [assumption|]. intros y Hy.
    apply elem_of_cons in Hy as [->|Hy]; auto.
Qed.

Lemma spec_last_equal_spec (m : float) (locals : list (Z * float)) (run : Z) :
  (spec_last_equal m locals run = run /\
   forall l, l ∈ locals -> ~ feq (snd l) m)
  \/ exists pre l post,
       locals = pre ++ l :: post /\ spec_last_equal m locals run = fst l /\
       feq (snd l) m /\ forall l', l' ∈ post -> ~ feq (snd l') m.
Proof.
  revert run. induction locals as [|[gi fi] rest IH]; intros run.
  - left. split; [reflexivity|]. intros l Hl. inversion Hl.
  - cbn [spec_last_equal].
    destruct (fi ==? m)%f32 eqn:Heq.
    + destruct (IH gi) as [[Hr Hnone]|(pre & l & post & -> & Hr & Hl & Hpost)].
      * right. exists [], (gi, fi), rest. repeat split; auto.
      * right. exists ((gi, fi) :: pre), l, post. repeat split; auto.
    + destruct (IH run) as [[Hr Hnone]|(pre & l & post & -> & Hr & Hl & Hpost)].
      * left. split; [assumption|]. intros l Hl.
        apply elem_of_cons in Hl as [->|Hl]; auto.
        cbn [snd]. unfold feq. rewrite Heq. discriminate.
      * right. exists ((gi, fi) :: pre), l, post. repeat split; auto.
Qed.

Lemma partition_covers n sched i :
  block_partition n sched -> (i < n)%nat ->
  exists w blk, sched !! w = Some blk /\ i ∈ blk.
Proof.
  intros Hp Hi.
  assert (Hin : In i (concat sched)).
  { apply (Permutation_in _ (Permutation_sym Hp)), in_seq. lia. }
  apply in_concat in Hin as (blk & Hblk & Hiblk).
  apply list_elem_of_In, list_elem_of_lookup in Hblk as [w Hw].
  exists w, blk. split; [assumption|]. apply list_elem_of_In. assumption.
Qed.

Lemma partition_bound n sched w blk i :
  block_partition n sched -> sched !! w = Some blk -> i ∈ blk -> (i < n)%nat.
Proof.
  intros Hp Hw Hi.
  assert (Hin : In i (seq 0 n)).
  { apply (Permutation_in _ Hp), in_concat. exists blk.
    split; apply list_elem_of_In; [|assumption].
    apply list_elem_of_lookup. exists w. assumption. }
  apply in_seq in Hin. lia.
Qed.

(** The schedules of libgomp hand out every index once. *)
Lemma static_blocks_spec (p start q r : nat) :
  length (static_blocks start q r p) = p /\
  concat (static_blocks start q r p) = seq start (p * q + Nat.min r p).
Proof.
  revert start r. induction p as [|p IH]; intros start r.
  { split; [reflexivity|]. rewrite Nat.min_0_r. reflexivity. }
  cbn [static_blocks]. cbv zeta.
  destruct (IH (start + (if r is O then q else S q))%nat (Nat.pred r)) as [Hl Hc].
  split; [cbn [length]; rewrite Hl; reflexivity|].
  cbn [concat]. rewrite Hc, <- seq_app. f_equal.
  destruct r as [|r]; cbn [Nat.pred]; lia.
Qed.

Lemma static_schedule_partition (n p : nat) :
  (1 <= p)%nat ->
  length (static_schedule n p) = p /\ block_partition n (static_schedule n p).
Proof.
  intros Hp. unfold static_schedule, block_partition.
  destruct (static_blocks_spec p 0 (n / p) (n mod p)) as [Hl Hc].
  split; [exact Hl|]. rewrite Hc.
  pose proof (Nat.div_mod_eq n p) as Hdiv.
  pose proof (Nat.mod_upper_bound n p ltac:(lia)) as Hmod.
  replace (p * (n / p) + Nat.min (n mod p) p)%nat with n by lia.
  apply Permutation_refl.
Qed.

Lemma serial_schedule_partition (n p : nat) :
  (1 <= p)%nat ->
  length (serial_schedule n p) = p /\ block_partition n (serial_schedule n p).
Proof.
  intros Hp. unfold serial_schedule, block_partition. split.
  - cbn [length]. rewrite length_replicate. lia.
  - cbn [concat].
    assert (H : forall k, concat (replicate k ([] : list nat)) = []).
    { induction k as [|k IH]; [reflexivity|exact IH]. }
    rewrite H, app_nil_r. apply Permutation_refl.
Qed.

(** The merge picks the last worker whose local best is the least. *)
Lemma spec_reducer_selects fit (sched : schedule) (local_g0 : list Z) :
  sched <> [] -> length local_g0 = length sched ->
  exists w blk g0,
    sched !! w = Some blk /\ local_g0 !! w = Some g0 /\
    let best := spec_local_best fit blk (g0, F32.INFINITY) in
    spec_reducer fit sched local_g0 = fst best /\
    forall w' blk' g0',
      sched !! w' = Some blk' -> local_g0 !! w' = Some g0' ->
      let best' := spec_local_best fit blk' (g0', F32.INFINITY) in
      fle (snd best) (snd best') /\ ((w < w')%nat -> flt (snd best) (snd best')).
Proof.
  intros Hne Hlen. unfold spec_reducer.
  set (locals := zip_with _ sched local_g0).
  assert (Hnan : forall y, y ∈ locals.*2 -> is_nan y = false).
  { intros y Hy. apply list_elem_of_fmap in Hy as (l & -> & Hl).
    apply list_elem_of_lookup in Hl as [w Hw].
    apply lookup_zip_with_Some in Hw as (blk & g0 & -> & _ & _).
    apply spec_local_best_not_nan. reflexivity. }
  assert (Hlne : locals.*2 <> []).
  { intros H. apply (f_equal length) in H.
    rewrite length_fmap in H. unfold locals in H.
    rewrite length_zip_with in H.
    destruct sched; [congruence|]. cbn [length] in H, Hlen. lia. }
  destruct (spec_minimum_spec _ Hlne Hnan) as (Hmin & Hleast).
  set (m := spec_minimum (locals.*2)) in *.
  destruct (spec_last_equal_spec m locals (rdz (locals.*1) 0))
    as [[_ Hnone]|(pre & l & post & Hsplit & Hr & Hl & Hpost)].
  { exfalso. apply list_elem_of_fmap in Hmin as (l & Hm & Hl).
    apply (Hnone l Hl). rewrite <- Hm. apply feq_refl, Hnan.
    rewrite Hm. apply list_elem_of_fmap. exists l. auto. }
  assert (Hw : locals !! length pre = Some l).
  { rewrite Hsplit. apply list_lookup_middle. reflexivity. }
  pose proof Hw as Hw0.
  apply lookup_zip_with_Some in Hw as (blk & g0 & -> & Hblk & Hg0).
  exists (length pre), blk, g0. split; [assumption|]. split; [assumption|].
  cbv zeta. split; [exact Hr|].
  intros w' blk' g0' Hblk' Hg0'.
  set (best' := spec_local_best fit blk' (g0', F32.INFINITY)).
  assert (Hw' : locals !! w' = Some best').
  { apply lookup_zip_with_Some. exists blk', g0'. auto. }
  assert (Hle : fle m (snd best')).
  { apply Hleast, list_elem_of_fmap. exists best'. split; [reflexivity|].
    apply list_elem_of_lookup. exists w'. assumption. }
  split.
  - exact (feq_fle_trans _ _ _ Hl Hle).
  - intros Hlt.
    assert (Hin : best' ∈ post).
    { rewrite Hsplit in Hw'.
      rewrite lookup_app_r in Hw' by lia.
      destruct (w' - length pre)%nat as [|d] eqn:Hd; [lia|].
      cbn in Hw'. apply list_elem_of_lookup. exists d. assumption. }
    specialize (Hpost _ Hin).
    assert (Hneq : F32.eqb (snd best') m = false)
      by (apply not_true_iff_false; exact Hpost).
    clear - Hl Hle Hneq. forder.
Qed.

(** ** The reducer returns a particle of least fitness *)

(** The reduction returns a least particle as soon as every fitness is
    comparable and below +infinity. *)
Lemma reducer_least (sw : swarm_t) (N P : nat) (sched : schedule)
    (local_g0 : list Z) :
  (1 <= N)%nat ->
  length sched = P -> length local_g0 = P ->
  block_partition N sched ->
  (forall i, (i < N)%nat -> below_inf (fitness_of sw i)) ->
  exists r : nat,
    Pso.pso_get_best_fitness_omp sched local_g0 sw (Z.of_nat P) = Z.of_nat r /\
    (r < N)%nat /\
    forall j, (j < N)%nat -> fle (fitness_of sw r) (fitness_of sw j).
Proof.
  intros HN Hs Hg Hpart Hfin.
  rewrite (reducer_refines_spec sw P sched local_g0 Hs Hg).
  destruct (partition_covers N sched 0%nat Hpart) as (w0 & blk0 & Hblk0 & H0); [lia|].
  assert (Hne : sched <> []) by (destruct sched; discriminate).
  destruct (spec_reducer_selects (fitness_of sw) sched local_g0 Hne)
    as (w & blk & g0 & Hblk & Hg0 & Hr & Hleast); [lia|].
  cbv zeta in Hr, Hleast. rewrite Hr.
  (* the block of particle 0 has a local best below +infinity *)
  destruct (lookup_lt_is_Some_2 local_g0 w0) as [g00 Hg00].
  { rewrite Hg, <- Hs. exact (lookup_lt_Some _ _ _ Hblk0). }
  destruct (spec_local_best_found (fitness_of sw) blk0 g00 0%nat H0)
    as (i0 & _ & Hbest0 & Hb0).
  { apply Hfin. lia. }
  destruct (Hleast w0 blk0 g00 Hblk0 Hg00) as [Hle0 _].
  rewrite Hbest0 in Hle0. cbn [snd] in Hle0.
  (* hence the selected worker recorded one of its particles *)
  destruct (spec_local_best_first_strict_min (fitness_of sw) blk (g0, F32.INFINITY))
    as [[Hsame _]|(pre & i & post & Hsplit & Hbest & Hi & _)].
  { exfalso. rewrite Hsame in Hle0. cbn [snd] in Hle0.
    exact (fle_flt_absurd _ _ Hle0 Hb0). }
  rewrite Hbest in *. cbn [fst snd] in *.
  assert (Hin : i ∈ blk).
  { rewrite Hsplit. apply elem_of_app. right. apply elem_of_cons. auto. }
  exists i. split; [reflexivity|].
  split; [exact (partition_bound N sched w blk i Hpart Hblk Hin)|].
  intros j Hj.
  destruct (partition_covers N sched j Hpart Hj) as (wj & blkj & Hblkj & Hjin).
  destruct (lookup_lt_is_Some_2 local_g0 wj) as [gj Hgj].
  { rewrite Hg, <- Hs. exact (lookup_lt_Some _ _ _ Hblkj). }
  destruct (Hleast wj blkj gj Hblkj Hgj) as [Hlej _].
  apply (fle_trans _ _ _ Hlej).
  apply spec_local_best_lower_bound; [assumption|].
  apply below_inf_not_nan, Hfin. assumption.
Qed.

(** C1. For a swarm whose particles all have a finite fitness and a team
    of [P] workers, [1 <= P <= N], whose blocks hand out every particle
    index once, [pso_get_best_fitness_omp] returns the index of a particle
    whose fitness is the minimum over the swarm: it is in range and no
    particle has a smaller fitness. *)
Theorem reducer_returns_minimum (sw : swarm_t) (P : nat) (sched : schedule)
    (local_g0 : list Z) :
  let N := Z.to_nat (Swarm.num_particles sw) in
  (1 <= P <= N)%nat ->
  length sched = P -> length local_g0 = P ->
  block_partition N sched ->
  (forall i, (i < N)%nat -> is_finite (fitness_of sw i) = true) ->
  exists r : nat,
    Pso.pso_get_best_fitness_omp sched local_g0 sw (Z.of_nat P) = Z.of_nat r /\
    (r < N)%nat /\
    forall j, (j < N)%nat -> fle (fitness_of sw r) (fitness_of sw j).
Proof.
  intros N HP Hs Hg Hpart Hfin.
  apply reducer_least; try assumption; [lia|].
  intros i Hi. apply finite_below_inf, Hfin, Hi.
Qed.

Lemma reducer_returns_minimum_witness :
  exists r : nat,
    Pso.pso_get_best_fitness_omp (static_schedule 5 2) [-7; 42] tied_swarm
      (Z.of_nat 2) = Z.of_nat r /\
    (r < 5)%nat /\
    forall j, (j < 5)%nat -> fle (fitness_of tied_swarm r) (fitness_of tied_swarm j).
Proof.
  apply (reducer_returns_minimum tied_swarm 2 (static_schedule 5 2) [-7; 42]).
  - cbn. lia.
  - reflexivity.
  - reflexivity.
  - apply Permutation_refl.
  - intros i Hi. cbn in Hi.
    do 5 (destruct i as [|i]; [reflexivity|]). lia.
Defined.

(** C2 fails on the code.  When no particle has a fitness below
    +infinity no worker writes its cell of [local_g], every local fitness
    equals the minimum +infinity, and the merge returns the last cell of
    [local_g] as it was when the array was declared.  The initialisation
    on the Booth function over [[1e30, 2e38]] builds such a swarm: every
    fitness overflows to +infinity.  On it, with the same two blocks, the
    reduction returns 42 when [local_g] held 42 and 1000000 when its last
    cell held 1000000: the result is not fixed by the partition and the
    fitness values, and is no index of the swarm.  The serial reducer
    returns -1 there.  Inside the initialisation the value found in
    [local_g], -1 in this environment, is stored as [g] in every
    particle. *)
Theorem reducer_result_indeterminate :
  let lo := S754_finite false 13234890 76 in
  let big := S754_finite false 9860761 104 in
  let sched := static_schedule 3 2 in
  exists sw,
    Pso.pso_init_omp booth_libc (static_environment 0 0) "booth" 2 3 lo big 2
    = Returned sw /\
    map Particle.fitness (Swarm.particle sw)
    = [F32.INFINITY; F32.INFINITY; F32.INFINITY] /\
    sched = [[0; 1]; [2]]%nat /\
    Pso.pso_get_best_fitness_omp sched [42; 42] sw 2 = 42 /\
    Pso.pso_get_best_fitness_omp sched [7; 1000000] sw 2 = 1000000 /\
    Pso.pso_get_best_fitness sw = -1 /\
    map Particle.g (Swarm.particle sw) = [-1; -1; -1].
Proof.
  cbv zeta. eexists. split; [vm_compute; reflexivity|].
  repeat split; vm_compute; reflexivity.
Qed.

(** ** Swarm reads and writes *)

Lemma particle_at_set_eq sw i p :
  (i < length (Swarm.particle sw))%nat ->
  particle_at (Swarm.set_particle sw i p) i = p.
Proof.
  intros H. unfold particle_at, Swarm.set_particle. cbn.
  rewrite list_lookup_insert_eq by assumption. reflexivity.
Qed.

Lemma particle_at_set_ne sw i k p :
  i <> k -> particle_at (Swarm.set_particle sw i p) k = particle_at sw k.
Proof.
  intros H. unfold particle_at, Swarm.set_particle. cbn.
  rewrite list_lookup_insert_ne by assumption. reflexivity.
Qed.

Lemma set_particle_length sw i p :
  length (Swarm.particle (Swarm.set_particle sw i p))
  = length (Swarm.particle sw).
Proof. apply length_insert. Qed.

Lemma set_particle_num sw i p :
  Swarm.num_particles (Swarm.set_particle sw i p) = Swarm.num_particles sw.
Proof. reflexivity. Qed.

Lemma set_particle_set sw i p q :
  Swarm.set_particle (Swarm.set_particle sw i p) i q = Swarm.set_particle sw i q.
Proof.
  unfold Swarm.set_particle. cbn. rewrite list_insert_insert_eq. reflexivity.
Qed.

Lemma set_particle_same sw i :
  Swarm.set_particle sw i (particle_at sw i) = sw.
Proof.
  destruct sw as [n ps]. unfold Swarm.set_particle, particle_at. cbn.
  f_equal. destruct (ps !! i) eqn:H.
  - apply list_insert_id. assumption.
  - apply list_insert_ge. apply lookup_ge_None. assumption.
Qed.

Lemma particle_ix_set sw i p k :
  (i < length (Swarm.particle sw))%nat ->
  particle_ix (Swarm.set_particle sw i p) k
  = if (0 <=? k) && (Z.to_nat k =? i)%nat then p else particle_ix sw k.
Proof.
  intros H. unfold particle_ix.
  destruct (k <? 0) eqn:Hk.
  - replace (0 <=? k) with false by lia. reflexivity.
  - replace (0 <=? k) with true by lia. cbn [andb].
    destruct (Nat.eqb_spec (Z.to_nat k) i) as [->|Hne].
    + apply particle_at_set_eq. assumption.
    + apply particle_at_set_ne. congruence.
Qed.

(** ** The update of one dimension *)

Section UpdateDim.
Variable L : libc.
Variables xmin xmax : float.

(** [update_dim] writes cell [j] of the velocity and of the position of
    particle [i] by the rule of the specification. *)
Lemma update_dim_rule (i j : nat) (sw : swarm_t) (seed : Z) :
  let p := particle_at sw i in
  let gbest := particle_ix sw (Particle.g p) in
  let st :=
    dim_step L xmin xmax (rdf (Particle.v p) j) (rdf (Particle.pbest p) j)
      (rdf (Particle.x p) j) (rdf (Particle.x gbest) j) seed in
  Pso.update_dim L xmin xmax i j (sw, seed)
  = (Swarm.set_particle sw i
       (Particle.set_x
          (Particle.set_v p (<[j := fst (fst st)]> (Particle.v p)))
          (<[j := snd (fst st)]> (Particle.x p))),
     snd st).
Proof.
  unfold Pso.update_dim, dim_step, resample_outside, hard_clamp, new_velocity,
    uniform_sample, Pso.uniform_omp.
  cbv zeta.
  destruct (rand_r L seed) as [k1 s1]. cbn [fst snd].
  destruct (rand_r L s1) as [k2 s2]. cbn [fst snd].
  destruct (F32.ltb _ _ || F32.gtb _ _).
  - destruct (rand_r L s2) as [k3 s3]. cbn [fst snd].
    destruct (F32.gtb _ xmax) eqn:Hgt; reflexivity.
  - cbn [fst snd]. destruct (F32.gtb _ xmax) eqn:Hgt; reflexivity.
Qed.

Lemma dims_loop_spec (i n a : nat) (sw : swarm_t) (seed : Z) :
  (i < length (Swarm.particle sw))%nat ->
  let p := particle_at sw i in
  let sw' := fst (dims_loop L xmin xmax i a n (sw, seed)) in
  let p' := particle_at sw' i in
  sw' = Swarm.set_particle sw i p' /\
  Particle.dim p' = Particle.dim p /\
  Particle.pbest p' = Particle.pbest p /\
  Particle.fitness p' = Particle.fitness p /\
  Particle.g p' = Particle.g p /\
  length (Particle.x p') = length (Particle.x p) /\
  length (Particle.v p') = length (Particle.v p) /\
  (forall j, (j < a \/ a + n <= j)%nat ->
     Particle.x p' !! j = Particle.x p !! j /\
     Particle.v p' !! j = Particle.v p !! j) /\
  (forall j, (a <= j < a + n)%nat ->
     (j < length (Particle.x p))%nat -> (j < length (Particle.v p))%nat ->
     (rdf (Particle.v p') j, rdf (Particle.x p') j)
     = fst (dim_step L xmin xmax
              (rdf (Particle.v p) j) (rdf (Particle.pbest p) j)
              (rdf (Particle.x p) j)
              (rdf (Particle.x (particle_ix sw (Particle.g p))) j)
              (snd (dims_loop L xmin xmax i a (j - a) (sw, seed))))).
Proof.
  revert a sw seed. induction n as [|n IH]; intros a sw seed Hi p sw' p'.
  - subst sw' p'. cbn [dims_loop seq fold_left fst]. fold p.
    rewrite set_particle_same.
    repeat split; try reflexivity. intros j Hj. lia.
  - subst sw' p'.
    change (dims_loop L xmin xmax i a (S n) (sw, seed))
      with (dims_loop L xmin xmax i (S a) n (Pso.update_dim L xmin xmax i a (sw, seed))).
    pose proof (update_dim_rule i a sw seed) as Hstep. cbv zeta in Hstep.
    fold p in Hstep.
    set (st := dim_step L xmin xmax _ _ _ _ seed) in Hstep.
    set (p1 := Particle.set_x _ _) in Hstep.
    rewrite Hstep.
    assert (Hi1 : (i < length (Swarm.particle (Swarm.set_particle sw i p1)))%nat)
      by (rewrite set_particle_length; exact Hi).
    specialize (IH (S a) (Swarm.set_particle sw i p1) (snd st) Hi1).
    cbv zeta in IH. rewrite particle_at_set_eq in IH by exact Hi.
    set (sw' := fst (dims_loop L xmin xmax i (S a) n (Swarm.set_particle sw i p1, snd st))) in *.
    set (p' := particle_at sw' i) in *.
    destruct IH as (Hsw & Hdim & Hpb & Hfit & Hg & Hlx & Hlv & Hframe & Hrule).
    rewrite set_particle_set in Hsw.
    assert (Hframe1 : forall j, j <> a ->
              Particle.x p1 !! j = Particle.x p !! j /\
              Particle.v p1 !! j = Particle.v p !! j).
    { intros j Hj. subst p1. cbn.
      rewrite !list_lookup_insert_ne by congruence. auto. }
    split; [exact Hsw|].
    split; [rewrite Hdim; reflexivity|].
    split; [rewrite Hpb; reflexivity|].
    split; [rewrite Hfit; reflexivity|].
    split; [rewrite Hg; reflexivity|].
    split; [rewrite Hlx; subst p1; cbn; apply length_insert|].
    split; [rewrite Hlv; subst p1; cbn; apply length_insert|].
    split.
    + intros j Hj. destruct (Hframe j) as [Hx Hv]; [lia|].
      destruct (Hframe1 j) as [Hx1 Hv1]; [lia|].
      rewrite Hx, Hv. auto.
    + intros j Hj Hjx Hjv.
      destruct (decide (j = a)) as [->|Hne].
      * destruct (Hframe a) as [Hx Hv]; [lia|].
        rewrite Nat.sub_diag. cbn [dims_loop seq fold_left snd].
        fold st. unfold rdf at 1 2. rewrite Hx, Hv.
        subst p1. cbn [Particle.x Particle.v Particle.set_x Particle.set_v].
        rewrite !list_lookup_insert_eq by assumption.
        cbn [default]. destruct st as [[vj xj] s3]. reflexivity.
      * pose proof (Hrule j) as Hs.
        assert (Hja : (j - a = S (j - S a))%nat) by lia.
        rewrite Hja.
        change (dims_loop L xmin xmax i a (S (j - S a)) (sw, seed))
          with (dims_loop L xmin xmax i (S a) (j - S a)
                  (Pso.update_dim L xmin xmax i a (sw, seed))).
        rewrite Hstep.
        rewrite Hs; [|lia| |]; clear Hs.
        2:{ subst p1. cbn. rewrite length_insert. exact Hjx. }
        2:{ subst p1. cbn. rewrite length_insert. exact Hjv. }
        destruct (Hframe1 j Hne) as [Hx1 Hv1].
        assert (Hgb : rdf (Particle.x (particle_ix (Swarm.set_particle sw i p1)
                                         (Particle.g p1))) j
                      = rdf (Particle.x (particle_ix sw (Particle.g p))) j).
        { rewrite particle_ix_set by exact Hi.
          replace (Particle.g p1) with (Particle.g p) by reflexivity.
          destruct (0 <=? Particle.g p) eqn:Hg0; cbn [andb]; [|reflexivity].
          destruct (Nat.eqb_spec (Z.to_nat (Particle.g p)) i) as [Hgi|_];
            [|reflexivity].
          unfold rdf. rewrite Hx1. unfold particle_ix.
          replace (Particle.g p <? 0) with false by lia.
          rewrite Hgi. reflexivity. }
        rewrite Hgb. unfold rdf at 1 2 3. rewrite Hx1, Hv1.
        replace (Particle.pbest p1) with (Particle.pbest p) by reflexivity.
        reflexivity.
Qed.

(** The stream reaches dimension [n] in the state [stream_at] gives. *)
Lemma dims_loop_stream (i n : nat) (sw : swarm_t) (seed : Z) :
  (i < length (Swarm.particle sw))%nat ->
  let p := particle_at sw i in
  snd (dims_loop L xmin xmax i 0 n (sw, seed))
  = stream_at L xmin xmax p (particle_ix sw (Particle.g p)) seed n.
Proof.
  intros Hi p. induction n as [|n IH]; [reflexivity|].
  unfold dims_loop. rewrite seq_S, fold_left_app. cbn [fold_left Nat.add].
  fold (dims_loop L xmin xmax i 0 n (sw, seed)).
  destruct (dims_loop_spec i n 0 sw seed Hi)
    as (Hsw & _ & Hpb & _ & Hg & _ & _ & Hframe & _).
  fold p in Hsw, Hpb, Hg, Hframe.
  destruct (dims_loop L xmin xmax i 0 n (sw, seed)) as [swn sn] eqn:Hloop.
  cbn [fst snd] in *. subst sn.
  set (pn := particle_at swn i) in *.
  destruct (Hframe n) as [Hx Hv]; [lia|].
  pose proof (update_dim_rule i n swn
                (stream_at L xmin xmax p (particle_ix sw (Particle.g p)) seed n))
    as Hstep.
  cbv zeta in Hstep. fold pn in Hstep. rewrite Hstep. cbn [snd stream_at].
  assert (Hgb : rdf (Particle.x (particle_ix swn (Particle.g pn))) n
                = rdf (Particle.x (particle_ix sw (Particle.g p))) n).
  { rewrite Hsw, particle_ix_set, Hg by exact Hi.
    destruct (0 <=? Particle.g p) eqn:Hg0; cbn [andb]; [|reflexivity].
    destruct (Nat.eqb_spec (Z.to_nat (Particle.g p)) i) as [Hgi|_];
      [|reflexivity].
    unfold rdf. rewrite Hx. unfold particle_ix.
    replace (Particle.g p <? 0) with false by lia.
    rewrite Hgi. reflexivity. }
  rewrite Hgb, Hpb. unfold rdf at 1 3. rewrite Hx, Hv. reflexivity.
Qed.
End UpdateDim.

(** ** The update of one particle *)

Lemma copy_pbest_from (n a : nat) (q : particle_t) :
  let q' :=
    fold_left
      (fun p j =>
         Particle.set_pbest p (<[j := rdf (Particle.x p) j]> (Particle.pbest p)))
      (seq a n) q in
  Particle.dim q' = Particle.dim q /\ Particle.x q' = Particle.x q /\
  Particle.v q' = Particle.v q /\ Particle.fitness q' = Particle.fitness q /\
  Particle.g q' = Particle.g q /\
  length (Particle.pbest q') = length (Particle.pbest q) /\
  forall j,
    Particle.pbest q' !! j
    = if decide ((a <= j < a + n)%nat /\ (j < length (Particle.pbest q))%nat)
      then Some (rdf (Particle.x q) j) else Particle.pbest q !! j.
Proof.
  revert a q. induction n as [|n IH]; intros a q; cbn [seq fold_left].
  - repeat split; try reflexivity. intros j.
    destruct (decide _) as [H|H]; [lia|reflexivity].
  - set (q1 := Particle.set_pbest q _).
    destruct (IH (S a) q1) as (Hd & Hx & Hv & Hf & Hg & Hl & Hp).
    cbv zeta. rewrite Hd, Hx, Hv, Hf, Hg, Hl.
    repeat split; try reflexivity.
    + subst q1. cbn. apply length_insert.
    + intros j. rewrite Hp. subst q1. cbn. rewrite length_insert.
      destruct (decide (j = a)) as [->|Hne].
      * destruct (decide ((S a <= a < _)%nat /\ _)) as [H|_]; [lia|].
        destruct (decide ((a <= a < _)%nat /\ _)) as [H|H].
        -- apply list_lookup_insert_eq. lia.
        -- rewrite list_insert_ge by lia. reflexivity.
      * rewrite list_lookup_insert_ne by congruence.
        repeat destruct (decide _); try reflexivity; lia.
Qed.

Lemma copy_pbest_spec (q : particle_t) :
  let q' := Pso.copy_pbest (Particle.dim q) q in
  Particle.dim q' = Particle.dim q /\ Particle.x q' = Particle.x q /\
  Particle.v q' = Particle.v q /\ Particle.fitness q' = Particle.fitness q /\
  Particle.g q' = Particle.g q /\
  (particle_ok q -> Particle.pbest q' = Particle.x q).
Proof.
  destruct (copy_pbest_from (Z.to_nat (Particle.dim q)) 0 q)
    as (Hd & Hx & Hv & Hf & Hg & Hl & Hp).
  cbv zeta. unfold Pso.copy_pbest.
  repeat split; try assumption.
  intros (Hlx & _ & Hlp). apply list_eq. intros j. rewrite Hp, Hlp.
  destruct (decide _) as [H|H].
  - unfold rdf. destruct (lookup_lt_is_Some_2 (Particle.x q) j) as [y Hy]; [lia|].
    rewrite Hy. reflexivity.
  - rewrite !(proj2 (lookup_ge_None _ _)); [reflexivity|lia|lia].
Qed.

Section UpdateParticle.
Variable L : libc.
Variable function : string.
Variables xmin xmax : float.

Lemma update_particle_spec (i : nat) (sw : swarm_t) (seed : Z) (curr : float) :
  (i < length (Swarm.particle sw))%nat ->
  let p := particle_at sw i in
  let seed1 := (seed + Z.of_nat i) mod 2 ^ 32 in
  let moved :=
    particle_at
      (fst (dims_loop L xmin xmax i 0 (Z.to_nat (Particle.dim p)) (sw, seed1))) i in
  let curr' := snd (Pso.pso_eval_fitness L function moved curr) in
  let res := Pso.update_particle L function xmin xmax i (sw, seed, curr) in
  snd res = curr' /\
  fst (fst res)
  = Swarm.set_particle sw i
      (if (curr' <? Particle.fitness p)%f32
       then Pso.copy_pbest (Particle.dim p) (Particle.set_fitness moved curr')
       else moved).
Proof.
  intros Hi p seed1 moved curr' res.
  destruct (dims_loop_spec L xmin xmax i (Z.to_nat (Particle.dim p)) 0 sw seed1 Hi)
    as (Hsw & Hdim & _ & Hfit & _).
  fold p in Hsw, Hdim, Hfit. fold moved in Hsw, Hdim, Hfit.
  subst res. unfold Pso.update_particle. fold seed1. fold p.
  fold (dims_loop L xmin xmax i 0 (Z.to_nat (Particle.dim p)) (sw, seed1)).
  destruct (dims_loop L xmin xmax i 0 (Z.to_nat (Particle.dim p)) (sw, seed1))
    as [sw1 seed2] eqn:Hloop.
  cbn [fst] in Hsw. change (particle_at sw1 i) with moved.
  subst curr'.
  destruct (Pso.pso_eval_fitness L function moved curr) as [status c] eqn:Heval.
  cbn [fst snd].
  split; [reflexivity|].
  rewrite Hfit, Hdim.
  destruct (c <? Particle.fitness p)%f32.
  - rewrite Hsw. apply set_particle_set.
  - exact Hsw.
Qed.

(** Outside the array no write takes effect. *)
Lemma update_particle_outside (i : nat) (sw : swarm_t) (seed : Z) (curr : float) :
  (length (Swarm.particle sw) <= i)%nat ->
  fst (fst (Pso.update_particle L function xmin xmax i (sw, seed, curr))) = sw.
Proof.
  intros Hi.
  assert (Hnop : forall q, Swarm.set_particle sw i q = sw).
  { intros q. destruct sw as [n0 ps0]. unfold Swarm.set_particle. cbn in *.
    rewrite list_insert_ge by lia. reflexivity. }
  assert (Hloop : forall n a s, fst (dims_loop L xmin xmax i a n (sw, s)) = sw).
  { induction n as [|n IH]; intros a s; [reflexivity|].
    unfold dims_loop. cbn [seq fold_left].
    pose proof (update_dim_rule L xmin xmax i a sw s) as Hstep.
    cbv zeta in Hstep. rewrite Hstep, Hnop. apply IH. }
  unfold Pso.update_particle.
  fold (dims_loop L xmin xmax i 0
          (Z.to_nat (Particle.dim (particle_at sw i)))
          (sw, (seed + Z.of_nat i) mod 2 ^ 32)).
  specialize (Hloop (Z.to_nat (Particle.dim (particle_at sw i))) 0%nat
                ((seed + Z.of_nat i) mod 2 ^ 32)).
  destruct (dims_loop _ _ _ _ _ _ _) as [sw1 s1]. cbn [fst] in Hloop. subst sw1.
  destruct (Pso.pso_eval_fitness _ _ _ _) as [status c].
  destruct (c <? _)%f32; cbn [fst]; [rewrite Hnop|]; reflexivity.
Qed.

(** Updating particle [i] leaves every other particle as it was. *)
Lemma update_particle_frame (i k : nat) (sw : swarm_t) (seed : Z) (curr : float) :
  i <> k ->
  particle_at (fst (fst (Pso.update_particle L function xmin xmax i (sw, seed, curr)))) k
  = particle_at sw k.
Proof.
  intros Hne.
  destruct (Nat.lt_ge_cases i (length (Swarm.particle sw))) as [Hi|Hi].
  - destruct (update_particle_spec i sw seed curr Hi) as [_ ->].
    apply particle_at_set_ne. assumption.
  - rewrite update_particle_outside by assumption. reflexivity.
Qed.

(** The stored fitness of every particle is unchanged or strictly smaller
    after the update of particle [i]. *)
Lemma update_particle_improves (i : nat) (sw : swarm_t) (seed : Z) (curr : float) :
  improves (fst (fst (Pso.update_particle L function xmin xmax i (sw, seed, curr)))) sw.
Proof.
  destruct (Nat.lt_ge_cases i (length (Swarm.particle sw))) as [Hi|Hi].
  2:{ rewrite update_particle_outside by assumption.
      repeat split. intros k. left. reflexivity. }
  split; [|split].
  - destruct (update_particle_spec i sw seed curr Hi) as [_ ->]. reflexivity.
  - destruct (update_particle_spec i sw seed curr Hi) as [_ ->].
    apply set_particle_length.
  - intros k. unfold fitness_of.
    destruct (decide (i = k)) as [<-|Hne];
      [|rewrite update_particle_frame by assumption; left; reflexivity].
    destruct (update_particle_spec i sw seed curr Hi) as [_ ->].
    rewrite particle_at_set_eq by assumption.
    destruct (dims_loop_spec L xmin xmax i
                (Z.to_nat (Particle.dim (particle_at sw i))) 0 sw
                ((seed + Z.of_nat i) mod 2 ^ 32) Hi)
      as (_ & _ & _ & Hfit & _).
    match goal with |- context [if ?c then _ else _] => destruct c eqn:Hlt end.
    + right.
      match goal with
      | |- context [Pso.copy_pbest ?d ?q] =>
          destruct (copy_pbest_from (Z.to_nat d) 0 q) as (_ & _ & _ & Hf & _)
      end.
      unfold Pso.copy_pbest. cbv zeta in Hf. rewrite Hf. exact Hlt.
    + left. exact Hfit.
Qed.
End UpdateParticle.

(** ** Velocity resampling and position clamping *)

Lemma hard_clamp_cases xmin xmax y :
  hard_clamp xmin xmax y = y \/ hard_clamp xmin xmax y = xmin \/
  hard_clamp xmin xmax y = xmax.
Proof.
  unfold hard_clamp.
  destruct (F32.gtb y xmax), (F32.ltb xmax xmin), (F32.ltb y xmin); auto.
Qed.

Lemma hard_clamp_range xmin xmax y :
  fle xmin xmax -> is_nan y = false ->
  fle xmin (hard_clamp xmin xmax y) /\ fle (hard_clamp xmin xmax y) xmax.
Proof.
  intros Hb Hy. unfold hard_clamp.
  destruct (F32.gtb y xmax) eqn:H1; [destruct (F32.ltb xmax xmin) eqn:H2|
    destruct (F32.ltb y xmin) eqn:H3]; split; forder.
Qed.

(** A NaN is on neither side of the range: it is kept, not replaced. *)
Lemma resample_outside_nan (L : libc) (r : float) (seed : Z) :
  resample_outside L r S754_nan seed = (S754_nan, seed).
Proof.
  unfold resample_outside, F32.gtb, F32.ltb, SFltb.
  destruct r as [s|s| |s m e]; reflexivity.
Qed.

(** The rule of the specification fails on three updates of particle 0
    of a swarm of one or two particles, entered with the seed 1.  With
    the bounds swapped, [xmin = 10] and [xmax = -10], the position ends
    on [xmin], which is not below [xmax].  On [[0, 2e38]], from a
    position, a velocity and a personal best inside their ranges, the
    formula gives a velocity above [r = 2e38]; the sample that replaces it
    is [-r + n * (r - (-r))], where [r - (-r)] overflows: the velocity
    stored is +infinity, outside [[-r, r]].  On [[-10, 10]] a velocity
    that is a NaN is not outside the range for the comparisons, is kept,
    and makes the position a NaN. *)
Lemma update_rule_counterexample :
  let ten := F32.of_int 10 in
  let minus_ten := F32.of_int (-10) in
  let zero := S754_zero false in
  let big := S754_finite false 9860761 104 in
  let updated xmin xmax sw :=
    particle_at
      (fst (fst (Pso.update_particle booth_libc "booth" xmin xmax 0
                   (sw, 1, S754_nan)))) 0 in
  (rdf (Particle.x (updated ten minus_ten two_particles)) 0 = ten /\
   ~ spec_update_rule booth_libc ten minus_ten two_particles 0 0 1
       (updated ten minus_ten two_particles)) /\
  (flt zero big /\
   rdf (Particle.v (updated zero big fast_particle)) 0 = F32.INFINITY /\
   ~ spec_update_rule booth_libc zero big fast_particle 0 0 1
       (updated zero big fast_particle)) /\
  (flt minus_ten ten /\
   rdf (Particle.x (updated minus_ten ten nan_particle)) 0 = S754_nan /\
   ~ spec_update_rule booth_libc minus_ten ten nan_particle 0 0 1
       (updated minus_ten ten nan_particle)).
Proof.
  cbv zeta. split; [|split].
  - split; [vm_compute; reflexivity|].
    intros (_ & _ & H). vm_compute in H. discriminate H.
  - split; [reflexivity|]. split; [vm_compute; reflexivity|].
    intros (H & _). vm_compute in H. destruct H as [_ H]. discriminate H.
  - split; [reflexivity|]. split; [vm_compute; reflexivity|].
    intros (_ & H & _). vm_compute in H. discriminate H.
Qed.

(** C3, as the code has it.  In the update of particle [i], entered with
    the thread's [seed], for every dimension [j], with [k1], [k2], [k3]
    the next draws of the thread's stream when it reaches [j]: the new
    velocity is the value of the velocity formula on [k1], [k2] when that
    lies in [[-|xmax-xmin|, |xmax-xmin|]] and otherwise the sample
    [-r + (k3 / RAND_MAX) * (r - (-r))] of that range made from the
    further draw [k3] (it is not moved to the boundary); the new position
    is the old one plus the new velocity, then moved to [xmax] or [xmin]
    (no draw is made), which puts it in [[xmin, xmax]] when
    [xmin <= xmax] and the sum is not a NaN.  The global best [g] of the
    particle is an index of the swarm and has a cell [j]. *)
Theorem update_resamples_velocity_clamps_position (L : libc)
    (function : string) (xmin xmax : float) (i j : nat) (sw : swarm_t)
    (seed : Z) (curr : float) :
  (i < length (Swarm.particle sw))%nat ->
  particle_ok (particle_at sw i) ->
  (j < Z.to_nat (Particle.dim (particle_at sw i)))%nat ->
  0 <= Particle.g (particle_at sw i) < Z.of_nat (length (Swarm.particle sw)) ->
  (j < length (Particle.x (particle_ix sw (Particle.g (particle_at sw i)))))%nat ->
  update_rule_at L xmin xmax sw i j seed
    (particle_at
       (fst (fst (Pso.update_particle L function xmin xmax i (sw, seed, curr))))
       i).
Proof.
  intros Hi (Hlx & Hlv & _) Hj _ _.
  destruct (update_particle_spec L function xmin xmax i sw seed curr Hi)
    as [_ Hsw].
  rewrite Hsw, particle_at_set_eq by exact Hi. clear Hsw.
  set (p := particle_at sw i) in *.
  set (seed1 := (seed + Z.of_nat i) mod 2 ^ 32).
  destruct (dims_loop_spec L xmin xmax i (Z.to_nat (Particle.dim p)) 0 sw
              seed1 Hi)
    as (_ & _ & _ & _ & _ & _ & _ & _ & Hrule).
  fold p in Hrule.
  set (moved := particle_at (fst (dims_loop _ _ _ _ _ _ _)) i) in *.
  pose proof (Hrule j) as Hs0. clear Hrule.
  rewrite Nat.sub_0_r, (dims_loop_stream L xmin xmax i j sw seed1 Hi) in Hs0.
  fold p in Hs0.
  specialize (Hs0 ltac:(lia) ltac:(lia) ltac:(lia)).
  (* the fitness update does not touch position and velocity *)
  match goal with
  | |- update_rule_at _ _ _ _ _ _ _ ?q =>
      assert (Hxv : Particle.x q = Particle.x moved /\
                    Particle.v q = Particle.v moved)
  end.
  { destruct (_ <? _)%f32; [|auto].
    match goal with
    | |- context [Pso.copy_pbest ?d ?q] =>
        destruct (copy_pbest_from (Z.to_nat d) 0 q) as (_ & Hx & Hv & _)
    end.
    unfold Pso.copy_pbest. cbv zeta in Hx, Hv. rewrite Hx, Hv. auto. }
  destruct Hxv as [Hx Hv].
  unfold update_rule_at. cbv zeta. rewrite Hx, Hv. fold p. fold seed1.
  unfold dim_step in Hs0. cbn [fst snd] in Hs0.
  injection Hs0 as Hvj Hxj. rewrite <- Hvj in Hxj.
  split.
  { rewrite Hvj. unfold resample_outside.
    match goal with |- context [if ?c then _ else _] => destruct c end;
      reflexivity. }
  split; [exact Hxj|].
  split; [rewrite Hxj; apply hard_clamp_cases|].
  rewrite Hxj. apply hard_clamp_range.
Qed.

Lemma update_resamples_velocity_clamps_position_witness :
  update_rule_at booth_libc (F32.of_int (-10)) (F32.of_int 10) two_particles 0 1 1
    (particle_at
       (fst (fst (Pso.update_particle booth_libc "booth" (F32.of_int (-10))
                    (F32.of_int 10) 0 (two_particles, 1, S754_nan))))
       0).
Proof.
  apply update_resamples_velocity_clamps_position.
  - cbn. lia.
  - repeat split.
  - cbn. lia.
  - change (0 <= 1 < 2). lia.
  - vm_compute. lia.
Defined.

(** In this update the formula gives about 24.5 in dimension 0, outside
    [[-20, 20]]: the stored velocity is the sample made from the third
    draw, about -10.6, strictly inside the range and not the bound 20;
    the position 1 - 10.6 lies in [[-10, 10]] and is kept.  Dimension 1
    starts from the stream after these three draws; its formula gives a
    velocity inside the range, which is kept. *)
Example update_resamples_example :
  let xmin := F32.of_int (-10) in
  let xmax := F32.of_int 10 in
  let d1 := glibc_rand_r 1 in
  let d2 := glibc_rand_r (snd d1) in
  let d3 := glibc_rand_r (snd d2) in
  let vnew :=
    new_velocity (fst d1) (fst d2) (F32.of_int 30) (F32.of_int 1) (F32.of_int 1)
      (F32.of_int 2) in
  let p := particle_at two_particles 0 in
  let p' :=
    particle_at
      (fst (fst (Pso.update_particle booth_libc "booth" xmin xmax 0
                   (two_particles, 1, S754_nan)))) 0 in
  F32.gtb vnew (F32.of_int 20) = true /\
  rdf (Particle.v p') 0 = uniform_sample (F32.of_int (-20)) (F32.of_int 20) (fst d3) /\
  rdf (Particle.v p') 0 = S754_finite true 11095123 (-20) /\
  flt (F32.of_int (-20)) (rdf (Particle.v p') 0) /\
  flt (rdf (Particle.v p') 0) (F32.of_int 20) /\
  rdf (Particle.x p') 0 = S754_finite true 10046547 (-20) /\
  stream_at booth_libc xmin xmax p (particle_at two_particles 1) 1 1 = snd d3 /\
  flt (F32.of_int (-20)) (rdf (Particle.v p') 1) /\
  flt (rdf (Particle.v p') 1) (F32.of_int 20).
Proof. vm_compute. repeat split. Qed.

(** ** Monotonicity of the stored fitness *)

Lemma non_increasing_refl f : non_increasing f f.
Proof. left. reflexivity. Qed.

Lemma non_increasing_trans a b c :
  non_increasing a b -> non_increasing b c -> non_increasing a c.
Proof.
  intros [->|Hab] [->|Hbc]; [left; reflexivity|right; assumption..|].
  right. exact (flt_trans _ _ _ Hab Hbc).
Qed.

Lemma non_increasing_below_inf a b :
  non_increasing a b -> below_inf b -> below_inf a.
Proof. intros [->|Hab] Hb; [assumption|]. exact (flt_trans _ _ _ Hab Hb). Qed.

Lemma non_increasing_fle a b c :
  non_increasing a b -> is_nan b = false -> fle c a -> fle c b.
Proof.
  intros [->|Hab] Hb Hc; [assumption|].
  exact (fle_trans _ _ _ Hc (flt_fle _ _ Hab)).
Qed.

Lemma improves_refl sw : improves sw sw.
Proof. repeat split. intros k. apply non_increasing_refl. Qed.

Lemma improves_trans sw2 sw1 sw0 :
  improves sw2 sw1 -> improves sw1 sw0 -> improves sw2 sw0.
Proof.
  intros (Hn2 & Hl2 & Hf2) (Hn1 & Hl1 & Hf1).
  split; [congruence|]. split; [congruence|].
  intros k. exact (non_increasing_trans _ _ _ (Hf2 k) (Hf1 k)).
Qed.

Section Iteration.
Variable L : libc.
Variable E : environment.
Variable function : string.
Variables xmin xmax : float.

Lemma update_block_improves (blk : list nat) (st : swarm_t * Z * float) :
  improves
    (fst (fst (fold_left (fun st i => Pso.update_particle L function xmin xmax i st)
                 blk st)))
    (fst (fst st)).
Proof.
  revert st. induction blk as [|i blk IH]; intros st; [apply improves_refl|].
  cbn [fold_left]. eapply improves_trans; [apply IH|].
  destruct st as [[sw seed] curr]. apply update_particle_improves.
Qed.

Lemma update_thread_improves (iter tid : nat) (blk : list nat) (sw : swarm_t) :
  improves (Pso.update_thread L E function xmin xmax iter tid blk sw) sw.
Proof. unfold Pso.update_thread. exact (update_block_improves blk (_, _, _)). Qed.

Lemma omp_threads_improves (thread : nat -> list nat -> swarm_t -> swarm_t)
    (sched : schedule) (tid : nat) (sw : swarm_t) :
  (forall tid blk sw, improves (thread tid blk sw) sw) ->
  improves (omp_threads_from tid sched thread sw) sw.
Proof.
  intros Hthread. revert tid sw.
  induction sched as [|blk rest IH]; intros tid sw; [apply improves_refl|].
  cbn [omp_threads_from]. eapply improves_trans; [apply IH|apply Hthread].
Qed.

(** Writing [g] into the particles keeps every fitness. *)
Lemma set_g_fitness (sw : swarm_t) (i k : nat) (g : Z) :
  fitness_of (Swarm.set_particle sw i (Particle.set_g (particle_at sw i) g)) k
  = fitness_of sw k.
Proof.
  unfold fitness_of.
  destruct (decide (i = k)) as [<-|Hne]; [|rewrite particle_at_set_ne; auto].
  destruct (Nat.lt_ge_cases i (length (Swarm.particle sw))) as [Hi|Hi].
  - rewrite particle_at_set_eq by assumption. reflexivity.
  - unfold Swarm.set_particle, particle_at. cbn.
    rewrite list_insert_ge by lia. reflexivity.
Qed.

Lemma broadcast_g_fitness (sched : schedule) (g : Z) (sw : swarm_t) :
  Swarm.num_particles (Pso.broadcast_g sched g sw) = Swarm.num_particles sw /\
  length (Swarm.particle (Pso.broadcast_g sched g sw))
  = length (Swarm.particle sw) /\
  forall k, fitness_of (Pso.broadcast_g sched g sw) k = fitness_of sw k.
Proof.
  unfold Pso.broadcast_g, omp_for, omp_threads. generalize 0%nat.
  revert sw. induction sched as [|blk rest IH]; intros sw tid; [auto|].
  cbn [omp_threads_from].
  match goal with
  | |- context [omp_threads_from _ rest _ ?s] =>
      assert (Hblk : Swarm.num_particles s = Swarm.num_particles sw /\
                     length (Swarm.particle s) = length (Swarm.particle sw) /\
                     forall k, fitness_of s k = fitness_of sw k)
  end.
  { clear. revert sw. induction blk as [|i blk IHb]; intros sw; [auto|].
    cbn [fold_left]. destruct (IHb (Swarm.set_particle sw i
                                     (Particle.set_g (particle_at sw i) g)))
      as (Hn & Hl & Hf).
    rewrite Hn, Hl. split; [reflexivity|]. split; [apply set_particle_length|].
    intros k. rewrite Hf. apply set_g_fitness. }
  destruct Hblk as (Hn & Hl & Hf).
  match goal with
  | |- context [omp_threads_from _ rest _ ?s] =>
      destruct (IH s (S tid)) as (Hn' & Hl' & Hf')
  end.
  rewrite Hn', Hl'. split; [assumption|]. split; [assumption|].
  intros k. rewrite Hf'. apply Hf.
Qed.

Lemma broadcast_g_improves (sched : schedule) (g : Z) (sw : swarm_t) :
  improves (Pso.broadcast_g sched g sw) sw.
Proof.
  destruct (broadcast_g_fitness sched g sw) as (Hn & Hl & Hf).
  split; [assumption|]. split; [assumption|].
  intros k. left. apply Hf.
Qed.

Lemma iteration_improves (num_threads : Z) (iter : nat) (st : swarm_t * Z) :
  improves (fst (Pso.iteration L E function xmin xmax num_threads iter st)) (fst st).
Proof.
  destruct st as [sw g]. unfold Pso.iteration. cbn [fst].
  eapply improves_trans; [apply broadcast_g_improves|].
  apply omp_threads_improves. intros. apply update_thread_improves.
Qed.


Lemma improves_reducible (num_threads : Z) (sw' sw : swarm_t) :
  improves sw' sw -> reducible E num_threads sw -> reducible E num_threads sw'.
Proof.
  intros (Hn & _ & Hf) (HN & HP & Hlen & Hpart & Hb).
  unfold reducible. rewrite Hn. repeat split; try assumption.
  intros i Hi. exact (non_increasing_below_inf _ _ (Hf i) (Hb i Hi)).
Qed.

(** After an iteration the shared [g] is the index of a particle that is
    least in the updated swarm, hence not above any fitness of before. *)
Lemma iteration_global_best (num_threads : Z) (iter : nat) (sw : swarm_t) (g : Z) :
  reducible E num_threads sw ->
  let N := Z.to_nat (Swarm.num_particles sw) in
  let st' := Pso.iteration L E function xmin xmax num_threads iter (sw, g) in
  exists r : nat,
    snd st' = Z.of_nat r /\ (r < N)%nat /\
    (forall k, (k < N)%nat -> fle (fitness_of (fst st') r) (fitness_of (fst st') k)) /\
    (forall k, (k < N)%nat -> fle (fitness_of (fst st') r) (fitness_of sw k)).
Proof.
  intros Hred N st'. subst st'. unfold Pso.iteration. cbn [fst snd].
  set (sched := omp_schedule E (Swarm.num_particles sw) num_threads).
  set (sw1 := omp_threads sched _ sw).
  assert (Himp : improves sw1 sw).
  { apply omp_threads_improves. intros. apply update_thread_improves. }
  pose proof (improves_reducible num_threads _ _ Himp Hred) as Hred1.
  destruct Himp as (Hn & _ & Hf).
  destruct Hred1 as (HN & HP & Hlen & Hpart & Hb).
  set (nested := reducer_schedule E (Swarm.num_particles sw1) num_threads) in *.
  assert (HN1 : Z.to_nat (Swarm.num_particles sw1) = N)
    by (unfold N; rewrite Hn; reflexivity).
  rewrite HN1 in HN, Hpart, Hb.
  set (local_g0 := map _ (seq 0 (Z.to_nat num_threads))).
  destruct (reducer_least sw1 N (Z.to_nat num_threads) nested local_g0)
    as (r & Hr & HrN & Hleast); try assumption.
  { unfold local_g0. rewrite length_map, length_seq. reflexivity. }
  rewrite Z2Nat.id in Hr by lia. rewrite Hr.
  exists r. split; [reflexivity|]. split; [assumption|].
  destruct (broadcast_g_fitness sched (Z.of_nat r) sw1) as (_ & _ & Hbf).
  split; intros k Hk; rewrite ?Hbf.
  - apply Hleast. assumption.
  - apply (non_increasing_fle _ _ _ (Hf k)).
    + destruct Hred as (_ & _ & _ & _ & Hb0).
      apply below_inf_not_nan, Hb0. assumption.
    + apply Hleast. assumption.
Qed.

End Iteration.

(** ** Personal best and the fitness across iterations *)

Lemma update_particle_pbest_rule (L : libc) (function : string)
    (xmin xmax : float) (i : nat) (sw : swarm_t) (seed : Z) (curr : float) :
  (i < length (Swarm.particle sw))%nat ->
  let res := Pso.update_particle L function xmin xmax i (sw, seed, curr) in
  pbest_rule_at L function sw i curr (particle_at (fst (fst res)) i) (snd res).
Proof.
  intros Hi res. subst res.
  destruct (update_particle_spec L function xmin xmax i sw seed curr Hi)
    as [Hc Hsw].
  rewrite Hc, Hsw, particle_at_set_eq by exact Hi. clear Hc Hsw.
  set (p := particle_at sw i) in *.
  destruct (dims_loop_spec L xmin xmax i (Z.to_nat (Particle.dim p)) 0 sw
              ((seed + Z.of_nat i) mod 2 ^ 32) Hi)
    as (_ & Hdim & Hpb & Hfit & _ & Hlx & Hlv & _).
  fold p in Hdim, Hpb, Hfit, Hlx, Hlv.
  set (moved := particle_at (fst (dims_loop _ _ _ _ _ _ _)) i) in *.
  set (curr' := snd (Pso.pso_eval_fitness L function moved curr)).
  unfold pbest_rule_at. fold p. exists moved.
  split; [exact Hdim|].
  destruct (curr' <? Particle.fitness p)%f32 eqn:Hlt.
  - pose proof (copy_pbest_spec (Particle.set_fitness moved curr')) as Hcopy.
    cbv zeta in Hcopy. cbn [Particle.dim Particle.set_fitness] in Hcopy.
    rewrite Hdim in Hcopy.
    destruct Hcopy as (_ & Hx & _ & Hf & _ & Hp).
    split; [symmetry; exact Hx|]. split; [reflexivity|].
    split; [exact Hf|].
    intros (Hokx & Hokv & Hokp). rewrite Hx. apply Hp.
    unfold particle_ok. cbn. rewrite Hdim, Hlx, Hlv, Hpb. auto.
  - split; [reflexivity|]. split; [reflexivity|]. auto.
Qed.



(** ** Dispatch on the name of the objective *)

Lemma eval_fitness_known (L : libc) (function : string) (p : particle_t)
    (f : float) :
  known_objective function -> fst (Pso.pso_eval_fitness L function p f) = 0.
Proof.
  unfold known_objective, known_objectives, Pso.pso_eval_fitness. intros Hin.
  repeat (apply elem_of_cons in Hin as [->|Hin]; [reflexivity|]).
  inversion Hin.
Qed.

Lemma eval_fitness_unknown (L : libc) (function : string) (p : particle_t)
    (f : float) :
  ~ known_objective function -> Pso.pso_eval_fitness L function p f = (-1, f).
Proof.
  unfold known_objective, known_objectives, Pso.pso_eval_fitness. intros Hnot.
  repeat match goal with
  | |- context [String.eqb function ?s] =>
      destruct (String.eqb_spec function s) as [->|?];
        [exfalso; apply Hnot; repeat constructor|]
  end.
  reflexivity.
Qed.

(** C8. [pso_eval_fitness] returns 0 exactly when the name is one of
    "booth", "rastrigin", "holder_table", "eggholder", "schwefel", and then
    [*fitness] holds the value of the evaluator of that name; for every
    other name it returns -1 and [*fitness] is as before.  The particle is
    only read. *)
Theorem pso_eval_fitness_dispatch (L : libc) (function : string)
    (particle : particle_t) (fitness : float) :
  let r := Pso.pso_eval_fitness L function particle fitness in
  (fst r = 0 <-> function ∈ known_objectives) /\
  (fst r = 0 \/ r = (-1, fitness)) /\
  (function ∉ known_objectives -> r = (-1, fitness)) /\
  (function = "booth"%string -> r = (0, Pso.pso_eval_booth L particle)) /\
  (function = "rastrigin"%string -> r = (0, Pso.pso_eval_rastrigin L particle)) /\
  (function = "holder_table"%string ->
   r = (0, Pso.pso_eval_holder_table L particle)) /\
  (function = "eggholder"%string -> r = (0, Pso.pso_eval_eggholder L particle)) /\
  (function = "schwefel"%string -> r = (0, Pso.pso_eval_schwefel L particle)).
Proof.
  intros r. subst r.
  assert (Hdec : known_objective function \/ ~ known_objective function).
  { unfold known_objective.
    destruct (in_dec string_dec function known_objectives) as [Hin|Hnin];
      [left|right]; rewrite list_elem_of_In; assumption. }
  split; [|split; [|split]].
  - destruct Hdec as [Hk|Hu].
    + rewrite (eval_fitness_known L function particle fitness Hk). tauto.
    + rewrite (eval_fitness_unknown L function particle fitness Hu). cbn.
      split; [discriminate|]. intros Hin. destruct (Hu Hin).
  - destruct Hdec as [Hk|Hu].
    + left. apply eval_fitness_known. assumption.
    + right. apply eval_fitness_unknown. assumption.
  - intros Hu. apply eval_fitness_unknown. exact Hu.
  - repeat split; intros ->; reflexivity.
Qed.

Example pso_eval_fitness_examples :
  Pso.pso_eval_fitness booth_libc "booth"
    (Particle.mk 2 [F32.of_int 1; F32.of_int 3] [] [] S754_nan 0) (F32.of_int 9)
  = (0, S754_zero false) /\
  Pso.pso_eval_fitness booth_libc "Booth"
    (Particle.mk 2 [F32.of_int 1; F32.of_int 3] [] [] S754_nan 0) (F32.of_int 9)
  = (-1, F32.of_int 9).
Proof. split; vm_compute; reflexivity. Qed.

(** ** Initialisation *)

Lemma omp_for_concat {S : Type} (sched : schedule) (f : nat -> S -> S) (s : S) :
  omp_for sched (fun _ i st => f i st) s
  = fold_left (fun st i => f i st) (concat sched) s.
Proof.
  unfold omp_for, omp_threads. generalize 0%nat. revert s.
  induction sched as [|blk rest IH]; intros s tid; [reflexivity|].
  cbn [omp_threads_from concat]. rewrite fold_left_app. apply IH.
Qed.

Section Init.
Variable L : libc.
Variable E : environment.
Variable function : string.
Variable dim : Z.
Variables xmin xmax : float.

Lemma sample_array_length (lo hi : float) (seed : Z) :
  length (fst (Pso.sample_array L dim lo hi seed)) = Z.to_nat dim.
Proof.
  unfold Pso.sample_array.
  assert (H : forall l a s,
            length (fst (fold_left
              (fun '(a, seed) j =>
                 let '(u, seed) := Pso.uniform_omp L lo hi seed in
                 (<[j := u]> a, seed)) l (a, s))) = length a).
  { induction l as [|j l IH]; intros a s; [reflexivity|].
    cbn [fold_left]. destruct (Pso.uniform_omp L lo hi s) as [u s'].
    rewrite IH. apply length_insert. }
  rewrite H. apply length_replicate.
Qed.

Lemma built_particle_ok (sw : swarm_t) (i : nat) (seed : Z) :
  let q := built_particle L dim xmin xmax sw i seed in
  Particle.dim q = dim /\ particle_ok q /\ Particle.pbest q = Particle.x q.
Proof.
  unfold built_particle. cbv zeta.
  set (xs := Pso.sample_array L dim xmin xmax _).
  set (vs := Pso.sample_array L dim _ _ (snd xs)).
  set (q0 := Particle.mk dim (fst xs) (fst vs) _ _ _).
  assert (Hok0 : particle_ok q0).
  { unfold particle_ok, q0, xs, vs. cbn.
    rewrite !sample_array_length, length_replicate. auto. }
  destruct (copy_pbest_spec q0) as (Hd & Hx & Hv & _ & _ & Hp).
  change (Particle.dim q0) with dim in *.
  split; [exact Hd|]. specialize (Hp Hok0).
  split; [|rewrite Hp, Hx; reflexivity].
  destruct Hok0 as (H1 & H2 & H3). unfold particle_ok.
  rewrite Hd, Hx, Hv, Hp. change (Particle.dim q0) with dim in *. auto.
Qed.

Lemma init_particle_known (i : nat) (sw : swarm_t) (seed : Z) :
  known_objective function ->
  exists sw' seed',
    Pso.init_particle L function dim xmin xmax i (Returned (sw, seed))
    = Returned (sw', seed').
Proof.
  intros Hk. unfold Pso.init_particle. cbn [bind].
  destruct (Pso.sample_array L dim xmin xmax _) as [xs s1].
  destruct (Pso.sample_array L dim _ _ s1) as [vs s2].
  match goal with
  | |- context [Pso.pso_eval_fitness L function ?q ?f] =>
      pose proof (eval_fitness_known L function q f Hk) as Hst;
      destruct (Pso.pso_eval_fitness L function q f) as [status fit]
  end.
  cbn [fst] in Hst. subst status. cbn. eauto.
Qed.

Lemma init_particle_unknown (i : nat) (sw : swarm_t) (seed : Z) :
  ~ known_objective function ->
  Pso.init_particle L function dim xmin xmax i (Returned (sw, seed))
  = Exited EXIT_FAILURE (Swarm.set_particle sw i (built_particle L dim xmin xmax sw i seed)).
Proof.
  intros Hu. unfold Pso.init_particle, built_particle. cbn [bind].
  destruct (Pso.sample_array L dim xmin xmax _) as [xs s1]. cbn [fst snd].
  destruct (Pso.sample_array L dim _ _ s1) as [vs s2]. cbn [fst snd].
  rewrite eval_fitness_unknown by assumption. reflexivity.
Qed.

Lemma init_loop_exited (l : list nat) (status : Z) (heap : swarm_t) :
  fold_left (fun st i => Pso.init_particle L function dim xmin xmax i st) l
    (Exited status heap)
  = Exited status heap.
Proof. induction l as [|i l IH]; [reflexivity|]. exact IH. Qed.

Lemma init_loop_known (l : list nat) (sw : swarm_t) (seed : Z) :
  known_objective function ->
  exists sw' seed',
    fold_left (fun st i => Pso.init_particle L function dim xmin xmax i st) l
      (Returned (sw, seed))
    = Returned (sw', seed').
Proof.
  intros Hk. revert sw seed. induction l as [|i l IH]; intros sw seed.
  - cbn. eauto.
  - cbn [fold_left].
    destruct (init_particle_known i sw seed Hk) as (sw1 & s1 & ->). apply IH.
Qed.

(** With a known objective no particle makes the initialisation exit. *)
Lemma pso_init_omp_known (swarm_size num_threads : Z) :
  known_objective function ->
  exists sw,
    Pso.pso_init_omp L E function dim swarm_size xmin xmax num_threads
    = Returned sw.
Proof.
  intros Hk. unfold Pso.pso_init_omp. cbn [Swarm.num_particles].
  rewrite (omp_for_concat _ (Pso.init_particle L function dim xmin xmax)).
  destruct (init_loop_known (concat (omp_schedule E swarm_size num_threads))
              (Swarm.mk swarm_size (replicate (Z.to_nat swarm_size) no_particle))
              (time E mod 2 ^ 32) Hk)
    as (sw' & seed' & ->).
  cbn [bind]. eauto.
Qed.

(** With an unknown objective the run exits when the first particle the
    schedule hands out has been built. *)
Lemma pso_init_omp_unknown (swarm_size num_threads : Z) (i0 : nat)
    (rest : list nat) :
  ~ known_objective function ->
  concat (omp_schedule E swarm_size num_threads) = i0 :: rest ->
  let sw0 := Swarm.mk swarm_size (replicate (Z.to_nat swarm_size) no_particle) in
  Pso.pso_init_omp L E function dim swarm_size xmin xmax num_threads
  = Exited EXIT_FAILURE
      (Swarm.set_particle sw0 i0 (built_particle L dim xmin xmax sw0 i0 (time E mod 2 ^ 32))).
Proof.
  intros Hu Hc sw0. unfold Pso.pso_init_omp. cbn [Swarm.num_particles].
  rewrite (omp_for_concat _ (Pso.init_particle L function dim xmin xmax)).
  rewrite Hc. cbn [fold_left].
  rewrite init_particle_unknown by assumption.
  rewrite init_loop_exited. reflexivity.
Qed.

End Init.

(** ** Configuration errors *)

(** The claim that every configuration error aborts the run before any
    particle state exists fails twice on [[-10, 10]] swapped and on an
    unknown name: with [xmin = 10 > xmax = -10] the initialisation
    returns a swarm, and with the unknown objective "sphere" it exits
    after particle 0 has been built. *)
Lemma configuration_error_counterexample :
  let E := static_environment 0 0 in
  let ten := F32.of_int 10 in
  let minus_ten := F32.of_int (-10) in
  (configuration_error "booth" 2 3 ten minus_ten 2 /\
   ~ aborts_before_construction
       (Pso.pso_init_omp booth_libc E "booth" 2 3 ten minus_ten 2)) /\
  (configuration_error "sphere" 2 3 minus_ten ten 2 /\
   ~ aborts_before_construction
       (Pso.pso_init_omp booth_libc E "sphere" 2 3 minus_ten ten 2)).
Proof.
  intros E ten minus_ten. split; split.
  - right. right. right. right. reflexivity.
  - intros (status & heap & Heq & _).
    destruct (pso_init_omp_known booth_libc E "booth" 2 ten minus_ten 3 2)
      as [sw Hsw]; [repeat constructor|].
    rewrite Hsw in Heq. discriminate.
  - left. unfold known_objective, known_objectives. intros Hin.
    repeat (apply elem_of_cons in Hin as [Hin|Hin]; [discriminate|]).
    inversion Hin.
  - intros (status & heap & Heq & Hnone).
    vm_compute in Heq. injection Heq as _ <-.
    specialize (Hnone _ (list_elem_of_here _ _)). discriminate.
Qed.

(** C5, as the code has it.  An unknown objective is detected, but only
    when the fitness of a first particle is evaluated: the process exits
    with [EXIT_FAILURE] when a particle the schedule hands out has been
    given its [dim] positions, velocities and personal-best cells, which
    are not released.  That [xmin >= xmax] is not detected: with a known
    objective, [swarm_size >= 0], [dim] in the range of the objective and
    [num_threads >= 1] the initialisation returns a swarm whatever
    [xmin] and [xmax] are. *)
Theorem unknown_objective_detected_at_first_particle (L : libc)
    (E : environment) (function : string) (dim swarm_size : Z)
    (xmin xmax : float) (num_threads : Z) :
  let handed_out := concat (omp_schedule E swarm_size num_threads) in
  let init := Pso.pso_init_omp L E function dim swarm_size xmin xmax num_threads in
  (~ known_objective function ->
   forall i0 rest,
     handed_out = i0 :: rest -> (i0 < Z.to_nat swarm_size)%nat ->
     exists heap i,
       init = Exited EXIT_FAILURE heap /\
       Swarm.num_particles heap = swarm_size /\
       i ∈ handed_out /\
       Particle.dim (particle_at heap i) = dim /\
       particle_ok (particle_at heap i) /\
       Particle.pbest (particle_at heap i) = Particle.x (particle_at heap i)) /\
  (known_objective function ->
   0 <= swarm_size -> dim_in_range function dim -> 1 <= num_threads ->
   exists sw, init = Returned sw).
Proof.
  intros handed_out init. split.
  - intros Hu i0 rest Hc Hi0.
    subst init. rewrite (pso_init_omp_unknown L E function dim xmin xmax
                           swarm_size num_threads i0 rest Hu Hc).
    eexists. exists i0. split; [reflexivity|]. split; [reflexivity|].
    split; [rewrite Hc; apply list_elem_of_here|].
    rewrite particle_at_set_eq by (cbn; rewrite length_replicate; exact Hi0).
    destruct (built_particle_ok L dim xmin xmax
                (Swarm.mk swarm_size (replicate (Z.to_nat swarm_size) no_particle))
                i0 (time E mod 2 ^ 32)) as (Hd & Hok & Hp).
    repeat split; try assumption; apply Hok.
  - intros Hk _ _ _. apply pso_init_omp_known. exact Hk.
Qed.

Lemma unknown_objective_detected_at_first_particle_witness :
  let E := static_environment 0 0 in
  let ten := F32.of_int 10 in
  let minus_ten := F32.of_int (-10) in
  (exists heap i,
     Pso.pso_init_omp booth_libc E "sphere" 2 3 minus_ten ten 2
     = Exited EXIT_FAILURE heap /\
     Swarm.num_particles heap = 3 /\
     i ∈ concat (omp_schedule E 3 2) /\
     Particle.dim (particle_at heap i) = 2 /\
     particle_ok (particle_at heap i) /\
     Particle.pbest (particle_at heap i) = Particle.x (particle_at heap i)) /\
  (exists sw,
     Pso.pso_init_omp booth_libc E "booth" 2 3 ten minus_ten 2 = Returned sw).
Proof.
  split.
  - apply (proj1 (unknown_objective_detected_at_first_particle booth_libc
                    (static_environment 0 0) "sphere" 2 3 (F32.of_int (-10))
                    (F32.of_int 10) 2))
      with (i0 := 0%nat) (rest := [1; 2]%nat).
    + unfold known_objective, known_objectives. intros Hin.
      repeat (apply elem_of_cons in Hin as [Hin|Hin]; [discriminate Hin|]).
      inversion Hin.
    + reflexivity.
    + cbn. lia.
  - apply (proj2 (unknown_objective_detected_at_first_particle booth_libc
                    (static_environment 0 0) "booth" 2 3 (F32.of_int 10)
                    (F32.of_int (-10)) 2)).
    + repeat constructor.
    + lia.
    + split; [lia|]. intros _. lia.
    + lia.
Defined.

(** ** No iteration *)




(** On this run the initialisation stores the index 1 of the best particle
    in every particle; with [max_iter = 0] the function still returns -1,
    and with [max_iter = 1] it returns the index found by the iteration. *)
Example no_iteration_example :
  let E := static_environment 0 0 in
  let xmin := F32.of_int (-10) in
  let xmax := F32.of_int 10 in
  (exists sw,
     Pso.pso_init_omp booth_libc E "booth" 2 3 xmin xmax 2 = Returned sw /\
     map Particle.g (Swarm.particle sw) = [1; 1; 1]) /\
  Pso.optimize_using_omp booth_libc E "booth" 2 3 xmin xmax 0 2 = Returned (-1) /\
  Pso.optimize_using_omp booth_libc E "booth" 2 3 xmin xmax (-5) 2 = Returned (-1) /\
  Pso.optimize_using_omp booth_libc E "booth" 2 3 xmin xmax 1 2 = Returned 1.
Proof.
  cbv zeta. split; [eexists; split; vm_compute; reflexivity|].
  repeat split; vm_compute; reflexivity.
Qed.

(** ** Where the code leaves the specification *)

(** C9 fails on the code.  [uniform_omp(min, max, &seed)] computes
    [min + normalized * (max - min)] in binary32.  With [min = -16777215]
    and [max = 0.75] the difference 16777215.75 rounds to 16777216; glibc's
    [rand_r] on the seed 30835466 returns 2147483596, which [(float)]
    rounds to 2^31, so that [normalized] is 1; the result is 1, above
    [max].  With [min = -2e38] and [max = 2e38] the difference overflows
    and the result is +infinity. *)
Theorem uniform_omp_leaves_range :
  let lo := S754_finite true 16777215 0 in
  let hi := S754_finite false 12582912 (-24) in
  let big := S754_finite false 9860761 104 in
  (fle lo hi /\
   fst (glibc_rand_r 30835466) = 2147483596 /\
   (F32.of_int 2147483596 / F32.of_int RAND_MAX)%f32 = F32.of_int 1 /\
   (hi - lo)%f32 = F32.of_int 16777216 /\
   fst (Pso.uniform_omp booth_libc lo hi 30835466) = F32.of_int 1 /\
   flt hi (fst (Pso.uniform_omp booth_libc lo hi 30835466)) /\
   ~ fle (fst (Pso.uniform_omp booth_libc lo hi 30835466)) hi) /\
  (fle (- big)%f32 big /\
   fst (Pso.uniform_omp booth_libc (- big)%f32 big 1) = F32.INFINITY /\
   ~ fle (fst (Pso.uniform_omp booth_libc (- big)%f32 big 1)) big).
Proof. vm_compute. repeat split; discriminate. Qed.

(** C4 fails on the code, through the same sampling.  On [[-16777215,
    0.75]] with the clock at 1641448202 the first position sampled by the
    initialisation is 1, above [xmax].  On [[0, 2e38]] every initial
    velocity is +infinity, above [|xmax - xmin|]. *)
Theorem initial_bounds_violated :
  let lo := S754_finite true 16777215 0 in
  let hi := S754_finite false 12582912 (-24) in
  let big := S754_finite false 9860761 104 in
  let zero := S754_zero false in
  (flt lo hi /\
   exists sw,
     Pso.pso_init_omp booth_libc (static_environment 1641448202 0) "booth" 2 1
       lo hi 1 = Returned sw /\
     rdf (Particle.x (particle_at sw 0)) 0 = F32.of_int 1 /\
     ~ fle (rdf (Particle.x (particle_at sw 0)) 0) hi) /\
  (flt zero big /\
   exists sw,
     Pso.pso_init_omp booth_libc (static_environment 0 0) "booth" 2 1
       zero big 1 = Returned sw /\
     Particle.v (particle_at sw 0) = [F32.INFINITY; F32.INFINITY] /\
     ~ fle (rdf (Particle.v (particle_at sw 0)) 0) (F32.fabsf (big - zero)%f32)).
Proof.
  cbv zeta. split; (split; [reflexivity|]); eexists;
    (split; [vm_compute; reflexivity|]); vm_compute; split;
    first [reflexivity | discriminate].
Qed.

(** C7 fails on the code.  [seed] is [private] in the parallel region of
    [optimize_using_omp], so the value [time(NULL)] gave it is not seen by
    the threads: each starts from whatever its private copy holds.  Two
    runs of the same configuration with one worker, the same clock and
    the same schedule agree after the initialisation and differ after the
    first iteration when the private copy holds 0 in one and 1 in the
    other. *)
Theorem private_seed_breaks_determinism :
  let E1 := static_environment 1612500000 0 in
  let E2 := static_environment 1612500000 1 in
  let xmin := F32.of_int (-10) in
  let xmax := F32.of_int 10 in
  time E1 = time E2 /\
  omp_schedule E1 2 1 = omp_schedule E2 2 1 /\
  Pso.optimize_state booth_libc E1 "booth" 2 2 xmin xmax 0 1
  = Pso.optimize_state booth_libc E2 "booth" 2 2 xmin xmax 0 1 /\
  Pso.optimize_state booth_libc E1 "booth" 2 2 xmin xmax 1 1
  <> Pso.optimize_state booth_libc E2 "booth" 2 2 xmin xmax 1 1.
Proof.
  cbv zeta. split; [reflexivity|]. split; [reflexivity|].
  split; [vm_compute; reflexivity|].
  intros H.
  apply (f_equal (fun o =>
           match o with
           | Returned (sw, _) => Particle.x (particle_at sw 0)
           | Exited _ _ => []
           end)) in H.
  vm_compute in H. discriminate H.
Qed.

(** * Further properties of the code *)

(** ** [min] *)

Lemma fold_min_nan (l : list float) :
  fold_left (fun m y => if (y <? m)%f32 then y else m) l S754_nan = S754_nan.
Proof.
  induction l as [|y l IH]; [reflexivity|]. cbn [fold_left].
  replace (y <? S754_nan)%f32 with false; [exact IH|].
  destruct y as [s|s| |s m e]; reflexivity.
Qed.

Lemma fold_min_skips_nan (l : list float) (f : float) :
  is_nan f = false ->
  let m := fold_left (fun m y => if (y <? m)%f32 then y else m) l f in
  m ∈ f :: l /\ is_nan m = false /\ fle m f /\
  forall y, y ∈ l -> is_nan y = false -> fle m y.
Proof.
  revert f. induction l as [|a l IH]; intros f Hf; cbn [fold_left].
  - split; [apply elem_of_cons; auto|]. split; [assumption|].
    split; [apply fle_refl; assumption|]. intros y Hy. inversion Hy.
  - destruct (a <? f)%f32 eqn:Hlt.
    + destruct (IH a (flt_not_nan_l _ _ Hlt)) as (Hin & Hnan & Hle & Hall).
      split; [apply elem_of_cons; right; assumption|].
      split; [assumption|].
      split; [exact (fle_trans _ _ _ Hle (flt_fle _ _ Hlt))|].
      intros y Hy Hynan. apply elem_of_cons in Hy as [->|Hy]; auto.
    + destruct (IH f Hf) as (Hin & Hnan & Hle & Hall).
      split.
      { apply elem_of_cons in Hin as [Hin|Hin]; apply elem_of_cons; auto.
        right. apply elem_of_cons. right. assumption. }
      split; [assumption|]. split; [assumption|].
      intros y Hy Hynan. apply elem_of_cons in Hy as [->|Hy]; auto.
      apply (fle_trans _ f); [assumption|]. apply not_flt_fle; assumption.
Qed.

(** X1. On a non-empty array [min] is decided by its first cell.  If
    [input[0]] is a NaN the result is a NaN, whatever follows.  Otherwise
    the result is a cell of the array that is not a NaN and is not above
    any cell that is not a NaN: later NaNs are skipped. *)
Theorem min_first_cell_decides (input : list float) :
  input <> [] ->
  let m := Pso.min input (Z.of_nat (length input)) in
  (is_nan (rdf input 0) = true -> m = S754_nan) /\
  (is_nan (rdf input 0) = false ->
   m ∈ input /\ is_nan m = false /\
   forall y, y ∈ input -> is_nan y = false -> fle m y).
Proof.
  intros Hne m. subst m. rewrite min_spec_minimum.
  destruct input as [|f rest]; [congruence|].
  cbn [spec_minimum]. unfold rdf. cbn [lookup list_lookup default].
  change (default S754_nan (Some f)) with f.
  split.
  - intros Hnan. destruct f; try discriminate. apply fold_min_nan.
  - intros Hnan.
    destruct (fold_min_skips_nan rest f Hnan) as (Hin & Hm & Hle & Hall).
    split; [assumption|]. split; [assumption|].
    intros y Hy Hynan. apply elem_of_cons in Hy as [->|Hy]; auto.
Qed.

Lemma min_first_cell_decides_witness :
  let input := [F32.of_int 3; S754_nan; F32.of_int (-2); F32.of_int 5] in
  let m := Pso.min input (Z.of_nat (length input)) in
  (is_nan (rdf input 0) = true -> m = S754_nan) /\
  (is_nan (rdf input 0) = false ->
   m ∈ input /\ is_nan m = false /\
   forall y, y ∈ input -> is_nan y = false -> fle m y).
Proof.
  apply (min_first_cell_decides
           [F32.of_int 3; S754_nan; F32.of_int (-2); F32.of_int 5]).
  discriminate.
Defined.

(** ** The serial reducer *)

Lemma serial_scan_spec (sw : swarm_t) (l : list nat) (f : float) (g : Z) :
  fold_left
    (fun '(best_fitness, g) i =>
       let particle := particle_at sw i in
       if (Particle.fitness particle <? best_fitness)%f32
       then (Particle.fitness particle, Z.of_nat i)
       else (best_fitness, g))
    l (f, g)
  = (snd (spec_local_best (fitness_of sw) l (g, f)),
     fst (spec_local_best (fitness_of sw) l (g, f))).
Proof.
  revert f g. induction l as [|i l IH]; intros f g; [reflexivity|].
  cbn [fold_left spec_local_best snd]. fold (fitness_of sw i).
  destruct (fitness_of sw i <? f)%f32; apply IH.
Qed.

Lemma seq_split_index (n i : nat) (pre post : list nat) :
  seq 0 n = pre ++ i :: post -> pre = seq 0 i /\ (i < n)%nat.
Proof.
  intros Hs.
  assert (Hi : seq 0 n !! length pre = Some i)
    by (rewrite Hs; apply list_lookup_middle; reflexivity).
  apply lookup_seq in Hi as [Hi Hlt]. cbn in Hi. subst i.
  split; [|assumption].
  assert (Ht : take (length pre) (seq 0 n) = pre)
    by (rewrite Hs, take_app_length; reflexivity).
  rewrite <- Ht at 1. rewrite take_seq. f_equal. lia.
Qed.

(** X2. [pso_get_best_fitness] returns -1 exactly when no particle has a
    fitness below +infinity (an empty swarm, or NaN and +infinity only).
    Otherwise it returns the first index of a particle whose fitness is
    least among the comparable ones: every earlier comparable particle is
    strictly worse. *)
Theorem serial_reducer_first_least (sw : swarm_t) :
  let N := Z.to_nat (Swarm.num_particles sw) in
  let fit := fitness_of sw in
  (Pso.pso_get_best_fitness sw = -1 /\
   forall i, (i < N)%nat -> ~ below_inf (fit i))
  \/ exists r : nat,
       Pso.pso_get_best_fitness sw = Z.of_nat r /\ (r < N)%nat /\
       below_inf (fit r) /\
       (forall j, (j < N)%nat -> is_nan (fit j) = false -> fle (fit r) (fit j)) /\
       (forall j, (j < r)%nat -> is_nan (fit j) = false -> flt (fit r) (fit j)).
Proof.
  intros N fit. unfold Pso.pso_get_best_fitness. fold N.
  rewrite serial_scan_spec. cbn [snd]. fold fit.
  destruct (spec_local_best_first_strict_min fit (seq 0 N) (-1, F32.INFINITY))
    as [[-> Hnone]|(pre & i & post & Hsplit & -> & Hi & Hpre & Hpost)];
    cbn [fst snd] in *.
  - left. split; [reflexivity|]. intros i Hi. apply Hnone.
    apply list_elem_of_In, in_seq. lia.
  - right. destruct (seq_split_index N i pre post Hsplit) as [-> HiN].
    exists i. split; [reflexivity|]. split; [assumption|].
    split; [exact Hi|]. split.
    + intros j Hj Hnan.
      assert (Hin : j ∈ seq 0 i ++ i :: post)
        by (rewrite <- Hsplit; apply list_elem_of_In, in_seq; lia).
      apply elem_of_app in Hin as [Hin|Hin]; [apply flt_fle; auto|].
      apply elem_of_cons in Hin as [->|Hin]; [apply fle_refl; assumption|].
      apply not_flt_fle; [assumption|exact (flt_not_nan_l _ _ Hi)|].
      apply not_true_iff_false. exact (Hpost j Hin).
    + intros j Hj Hnan. apply Hpre; [|assumption].
      apply list_elem_of_In, in_seq. lia.
Qed.

Example serial_reducer_examples :
  Pso.pso_get_best_fitness patchy_swarm = 3 /\
  Pso.pso_get_best_fitness blank_swarm = -1 /\
  Pso.pso_get_best_fitness (swarm_of_fitness []) = -1.
Proof. repeat split; vm_compute; reflexivity. Qed.

(** ** The parallel reducer on fitness values that are not all finite *)

(** X3. If some particle has a fitness below +infinity, the index
    [pso_get_best_fitness_omp] returns is in range, its fitness is below
    +infinity and not above the fitness of any particle that is not a
    NaN: particles whose fitness is a NaN or +infinity are never
    selected. *)
Theorem reducer_skips_nan (sw : swarm_t) (N P : nat) (sched : schedule)
    (local_g0 : list Z) (i0 : nat) :
  length sched = P -> length local_g0 = P ->
  block_partition N sched ->
  (i0 < N)%nat -> below_inf (fitness_of sw i0) ->
  exists r : nat,
    Pso.pso_get_best_fitness_omp sched local_g0 sw (Z.of_nat P) = Z.of_nat r /\
    (r < N)%nat /\ below_inf (fitness_of sw r) /\
    forall j, (j < N)%nat -> is_nan (fitness_of sw j) = false ->
      fle (fitness_of sw r) (fitness_of sw j).
Proof.
  intros Hs Hg Hpart Hi0 Hb0.
  rewrite (reducer_refines_spec sw P sched local_g0 Hs Hg).
  destruct (partition_covers N sched i0 Hpart Hi0) as (w0 & blk0 & Hblk0 & H0).
  assert (Hne : sched <> []) by (destruct sched; discriminate).
  destruct (spec_reducer_selects (fitness_of sw) sched local_g0 Hne)
    as (w & blk & g0 & Hblk & Hg0 & Hr & Hleast); [lia|].
  cbv zeta in Hr, Hleast. rewrite Hr.
  destruct (lookup_lt_is_Some_2 local_g0 w0) as [g00 Hg00].
  { rewrite Hg, <- Hs. exact (lookup_lt_Some _ _ _ Hblk0). }
  destruct (spec_local_best_found (fitness_of sw) blk0 g00 i0 H0 Hb0)
    as (i1 & _ & Hbest0 & Hb1).
  destruct (Hleast w0 blk0 g00 Hblk0 Hg00) as [Hle0 _].
  rewrite Hbest0 in Hle0. cbn [snd] in Hle0.
  destruct (spec_local_best_first_strict_min (fitness_of sw) blk (g0, F32.INFINITY))
    as [[Hsame _]|(pre & i & post & Hsplit & Hbest & Hi & _)].
  { exfalso. rewrite Hsame in Hle0. cbn [snd] in Hle0.
    exact (fle_flt_absurd _ _ Hle0 Hb1). }
  rewrite Hbest in *. cbn [fst snd] in *.
  assert (Hin : i ∈ blk).
  { rewrite Hsplit. apply elem_of_app. right. apply elem_of_cons. auto. }
  exists i. split; [reflexivity|].
  split; [exact (partition_bound N sched w blk i Hpart Hblk Hin)|].
  split; [exact Hi|].
  intros j Hj Hnan.
  destruct (partition_covers N sched j Hpart Hj) as (wj & blkj & Hblkj & Hjin).
  destruct (lookup_lt_is_Some_2 local_g0 wj) as [gj Hgj].
  { rewrite Hg, <- Hs. exact (lookup_lt_Some _ _ _ Hblkj). }
  destruct (Hleast wj blkj gj Hblkj Hgj) as [Hlej _].
  apply (fle_trans _ _ _ Hlej).
  apply spec_local_best_lower_bound; assumption.
Qed.

Lemma reducer_skips_nan_witness :
  exists r : nat,
    Pso.pso_get_best_fitness_omp (static_schedule 6 3) [-7; 42; 99] patchy_swarm
      (Z.of_nat 3) = Z.of_nat r /\
    (r < 6)%nat /\ below_inf (fitness_of patchy_swarm r) /\
    forall j, (j < 6)%nat -> is_nan (fitness_of patchy_swarm j) = false ->
      fle (fitness_of patchy_swarm r) (fitness_of patchy_swarm j).
Proof.
  apply (reducer_skips_nan patchy_swarm 6 3 (static_schedule 6 3) [-7; 42; 99] 0).
  - reflexivity.
  - reflexivity.
  - apply Permutation_refl.
  - lia.
  - reflexivity.
Defined.

(** X4. If no particle handed out has a fitness below +infinity, no
    worker ever writes its cell of [local_g], every local fitness stays
    +infinity and so equals the minimum, and the function returns what
    the last cell of [local_g] held when the array was declared: an
    indeterminate value, not -1. *)
Theorem reducer_returns_uninitialised (sw : swarm_t) (P : nat)
    (sched : schedule) (local_g0 : list Z) :
  (1 <= P)%nat -> length sched = P -> length local_g0 = P ->
  (forall i, handed_out sched i -> ~ below_inf (fitness_of sw i)) ->
  Pso.pso_get_best_fitness_omp sched local_g0 sw (Z.of_nat P)
  = rdz local_g0 (P - 1).
Proof.
  intros HP Hs Hg Hnone.
  rewrite (reducer_refines_spec sw P sched local_g0 Hs Hg).
  assert (Hne : sched <> []) by (destruct sched; [cbn in Hs; lia|discriminate]).
  assert (Hloc : forall w blk g0, sched !! w = Some blk ->
            spec_local_best (fitness_of sw) blk (g0, F32.INFINITY)
            = (g0, F32.INFINITY)).
  { intros w blk g0 Hblk.
    destruct (spec_local_best_first_strict_min (fitness_of sw) blk (g0, F32.INFINITY))
      as [[Hsame _]|(pre & i & post & Hsplit & _ & Hi & _)]; [assumption|].
    exfalso. apply (Hnone i); [|exact Hi].
    unfold handed_out. apply list_elem_of_In, in_concat. exists blk.
    split; apply list_elem_of_In.
    - apply list_elem_of_lookup. eauto.
    - rewrite Hsplit. apply elem_of_app. right. apply elem_of_cons. auto. }
  destruct (spec_reducer_selects (fitness_of sw) sched local_g0 Hne)
    as (w & blk & g0 & Hblk & Hg0 & Hr & Hleast); [lia|].
  cbv zeta in Hr, Hleast. rewrite Hr, (Hloc w blk g0 Hblk). cbn [fst].
  assert (Hw : w = (P - 1)%nat).
  { pose proof (lookup_lt_Some _ _ _ Hblk) as Hlt.
    destruct (decide (w = (P - 1)%nat)) as [|Hneq]; [assumption|exfalso].
    destruct (lookup_lt_is_Some_2 sched (P - 1)) as [blk' Hblk']; [lia|].
    destruct (lookup_lt_is_Some_2 local_g0 (P - 1)) as [g0' Hg0']; [lia|].
    destruct (Hleast (P - 1)%nat blk' g0' Hblk' Hg0') as [_ Hlt'].
    rewrite (Hloc w blk g0 Hblk), (Hloc _ blk' g0' Hblk') in Hlt'.
    cbn [snd] in Hlt'. apply (flt_irrefl F32.INFINITY). apply Hlt'. lia. }
  subst w. unfold rdz. rewrite Hg0. reflexivity.
Qed.

Lemma reducer_returns_uninitialised_witness :
  Pso.pso_get_best_fitness_omp (static_schedule 3 2) [-7; 42] blank_swarm
    (Z.of_nat 2)
  = rdz [-7; 42] (2 - 1).
Proof.
  apply (reducer_returns_uninitialised blank_swarm 2 (static_schedule 3 2) [-7; 42]).
  - lia.
  - reflexivity.
  - reflexivity.
  - intros i Hi. unfold handed_out in Hi. cbn in Hi.
    repeat (apply elem_of_cons in Hi as [->|Hi]; [discriminate|]).
    inversion Hi.
Defined.

(** The running index only matters while nothing has been found. *)
Lemma spec_local_best_start fit blk (g g' : Z) (f : float) :
  spec_local_best fit blk (g, f) = spec_local_best fit blk (g', f)
  \/ (spec_local_best fit blk (g, f) = (g, f) /\
      spec_local_best fit blk (g', f) = (g', f)).
Proof.
  revert g g' f. induction blk as [|i blk IH]; intros g g' f; [right; auto|].
  cbn [spec_local_best snd].
  destruct (fit i <? f)%f32; [left; reflexivity|apply IH].
Qed.

(** X5. When one worker scans the whole swarm and the others get nothing
    (a nested region run by one thread), and some particle has a fitness
    below +infinity, [pso_get_best_fitness_omp] returns what the serial
    [pso_get_best_fitness] returns. *)
Theorem reducer_one_worker_is_serial (sw : swarm_t) (P : nat)
    (local_g0 : list Z) (i0 : nat) :
  let N := Z.to_nat (Swarm.num_particles sw) in
  (1 <= P)%nat -> length local_g0 = P ->
  (i0 < N)%nat -> below_inf (fitness_of sw i0) ->
  Pso.pso_get_best_fitness_omp (serial_schedule N P) local_g0 sw (Z.of_nat P)
  = Pso.pso_get_best_fitness sw.
Proof.
  intros N HP Hg Hi0 Hb0.
  destruct (serial_schedule_partition N P HP) as [Hs Hpart].
  rewrite (reducer_refines_spec sw P _ local_g0 Hs Hg).
  assert (Hne : serial_schedule N P <> []) by discriminate.
  destruct (spec_reducer_selects (fitness_of sw) _ local_g0 Hne)
    as (w & blk & g0 & Hblk & Hg0 & Hr & Hleast); [lia|].
  cbv zeta in Hr, Hleast. rewrite Hr. clear Hr.
  assert (H0 : i0 ∈ seq 0 N) by (apply list_elem_of_In, in_seq; lia).
  destruct (lookup_lt_is_Some_2 local_g0 0) as [g00 Hg00]; [lia|].
  destruct (spec_local_best_found (fitness_of sw) (seq 0 N) g00 i0 H0 Hb0)
    as (i1 & _ & Hbest0 & Hb1).
  destruct (Hleast 0%nat (seq 0 N) g00 eq_refl Hg00) as [Hle0 _].
  rewrite Hbest0 in Hle0. cbn [snd] in Hle0.
  assert (Hw : w = 0%nat).
  { destruct w as [|w]; [reflexivity|exfalso].
    unfold serial_schedule in Hblk. cbn in Hblk.
    apply lookup_replicate in Hblk as [-> _].
    cbn [spec_local_best snd] in Hle0. exact (fle_flt_absurd _ _ Hle0 Hb1). }
  subst w. cbn in Hblk. injection Hblk as <-.
  rewrite Hg00 in Hg0. injection Hg0 as <-.
  unfold Pso.pso_get_best_fitness. fold N. rewrite serial_scan_spec. cbn [snd].
  destruct (spec_local_best_start (fitness_of sw) (seq 0 N) g00 (-1) F32.INFINITY)
    as [->|[Hsame _]]; [reflexivity|].
  exfalso. rewrite Hsame in Hbest0. injection Hbest0 as _ Hf.
  unfold below_inf in Hb1. rewrite <- Hf in Hb1.
  exact (flt_irrefl _ Hb1).
Qed.

Lemma reducer_one_worker_is_serial_witness :
  Pso.pso_get_best_fitness_omp
    (serial_schedule (Z.to_nat (Swarm.num_particles patchy_swarm)) 3)
    [-7; 42; 99] patchy_swarm (Z.of_nat 3)
  = Pso.pso_get_best_fitness patchy_swarm.
Proof.
  apply (reducer_one_worker_is_serial patchy_swarm 3 [-7; 42; 99] 0).
  - lia.
  - reflexivity.
  - cbn. lia.
  - reflexivity.
Defined.

(** With three workers and the same swarm the parallel reducer returns
    the last of the two least particles, the serial one the first. *)
Example reducer_three_workers_differs :
  Pso.pso_get_best_fitness_omp (static_schedule 6 3) [-7; 42; 99] patchy_swarm 3
  = 5 /\
  Pso.pso_get_best_fitness patchy_swarm = 3.
Proof. split; vm_compute; reflexivity. Qed.

(** ** The tie-break of the reduction *)

Lemma handed_out_block (sched : schedule) (i : nat) :
  handed_out sched i <-> exists w blk, sched !! w = Some blk /\ i ∈ blk.
Proof.
  unfold handed_out. rewrite list_elem_of_In, in_concat. split.
  - intros (blk & Hblk & Hi).
    apply list_elem_of_In, list_elem_of_lookup in Hblk as [w Hw].
    exists w, blk. split; [assumption|]. apply list_elem_of_In. assumption.
  - intros (w & blk & Hw & Hi). exists blk.
    split; apply list_elem_of_In; [|assumption].
    apply list_elem_of_lookup. eauto.
Qed.

Lemma fle_not_nan_l a b : fle a b -> is_nan a = false.
Proof. intros; forder. Qed.

Lemma not_flt_not_fle_absurd a b :
  is_nan a = false -> is_nan b = false -> ~ flt a b -> ~ fle b a -> False.
Proof.
  intros Ha Hb Hlt Hle. apply Hle. apply not_flt_fle; try assumption.
  apply not_true_iff_false. exact Hlt.
Qed.

(** When something handed out is below +infinity the reduction returns
    the index the two-stage rule selects. *)
Lemma reducer_selects (sw : swarm_t) (P : nat) (sched : schedule)
    (local_g0 : list Z) (i0 : nat) :
  length sched = P -> length local_g0 = P ->
  handed_out sched i0 -> below_inf (fitness_of sw i0) ->
  exists w pre i post,
    Pso.pso_get_best_fitness_omp sched local_g0 sw (Z.of_nat P) = Z.of_nat i /\
    two_stage_selects (fitness_of sw) sched w pre i post.
Proof.
  intros Hs Hg Hout Hb0.
  rewrite (reducer_refines_spec sw P sched local_g0 Hs Hg).
  set (fit := fitness_of sw) in *.
  apply handed_out_block in Hout as (w0 & blk0 & Hblk0 & H0).
  assert (Hne : sched <> []) by (destruct sched; discriminate).
  destruct (spec_reducer_selects fit sched local_g0 Hne)
    as (w & blk & g0 & Hblk & Hg0 & Hr & Hleast); [lia|].
  cbv zeta in Hr, Hleast. rewrite Hr.
  assert (Hcell : forall w' blk', sched !! w' = Some blk' ->
            exists g', local_g0 !! w' = Some g').
  { intros w' blk' Hw'. apply lookup_lt_is_Some_2.
    rewrite Hg, <- Hs. exact (lookup_lt_Some _ _ _ Hw'). }
  destruct (Hcell w0 blk0 Hblk0) as [g00 Hg00].
  destruct (spec_local_best_found fit blk0 g00 i0 H0 Hb0)
    as (i1 & _ & Hbest0 & Hb1).
  destruct (Hleast w0 blk0 g00 Hblk0 Hg00) as [Hle0 _].
  rewrite Hbest0 in Hle0. cbn [snd] in Hle0.
  destruct (spec_local_best_first_strict_min fit blk (g0, F32.INFINITY))
    as [[Hsame _]|(pre & i & post & Hsplit & Hbest & Hi & Hpre & Hpost)].
  { exfalso. rewrite Hsame in Hle0. cbn [snd] in Hle0.
    exact (fle_flt_absurd _ _ Hle0 Hb1). }
  rewrite Hbest in *. cbn [fst snd] in *. subst blk.
  exists w, pre, i, post. split; [reflexivity|].
  split; [exact Hblk|]. split; [exact Hi|]. split; [exact Hpre|].
  split; [exact Hpost|]. split.
  - intros k Hk Hlt.
    apply handed_out_block in Hk as (wk & blkk & Hblkk & Hkin).
    destruct (Hcell wk blkk Hblkk) as [gk Hgk].
    destruct (Hleast wk blkk gk Hblkk Hgk) as [Hlek _].
    apply (fle_flt_absurd (fit i) (fit k)); [|exact Hlt].
    apply (fle_trans _ _ _ Hlek).
    apply spec_local_best_lower_bound; [assumption|].
    exact (flt_not_nan_l _ _ Hlt).
  - intros w' blk' k Hw' Hblk' Hkin Hle.
    destruct (Hcell w' blk' Hblk') as [g' Hg'].
    destruct (Hleast w' blk' g' Hblk' Hg') as [_ Hlt].
    specialize (Hlt Hw').
    apply (fle_flt_absurd (fit k) (fit i)); [exact Hle|].
    apply (flt_fle_trans _ _ _ Hlt).
    apply spec_local_best_lower_bound; [assumption|].
    exact (fle_not_nan_l _ _ Hle).
Qed.

(** The rule selects one index only. *)
Lemma two_stage_selects_unique (fit : nat -> float) (sched : schedule)
    (w w' : nat) (pre pre' : list nat) (i i' : nat) (post post' : list nat) :
  two_stage_selects fit sched w pre i post ->
  two_stage_selects fit sched w' pre' i' post' ->
  i = i'.
Proof.
  intros (Hblk & Hb & Hpre & Hpost & Hmin & Hlater)
         (Hblk' & Hb' & Hpre' & Hpost' & Hmin' & Hlater').
  pose proof (below_inf_not_nan _ Hb) as Hn.
  pose proof (below_inf_not_nan _ Hb') as Hn'.
  assert (Hin : i ∈ pre ++ i :: post)
    by (apply elem_of_app; right; apply elem_of_cons; auto).
  assert (Hin' : i' ∈ pre' ++ i' :: post')
    by (apply elem_of_app; right; apply elem_of_cons; auto).
  assert (Hout : handed_out sched i) by (apply handed_out_block; eauto).
  assert (Hout' : handed_out sched i') by (apply handed_out_block; eauto).
  destruct (Nat.lt_total w w') as [Hlt|[Heq|Hlt]].
  - exfalso.
    exact (not_flt_not_fle_absurd _ _ Hn Hn' (Hmin' i Hout)
             (Hlater w' _ i' Hlt Hblk' Hin')).
  - subst w'. rewrite Hblk in Hblk'. injection Hblk' as Heq.
    assert (Hi : (pre ++ i :: post) !! length pre = Some i)
      by (apply list_lookup_middle; reflexivity).
    assert (Hi' : (pre' ++ i' :: post') !! length pre' = Some i')
      by (apply list_lookup_middle; reflexivity).
    destruct (Nat.lt_total (length pre) (length pre')) as [Hl|[Hl|Hl]].
    + exfalso. rewrite Heq, lookup_app_l in Hi by exact Hl.
      apply list_elem_of_lookup_2 in Hi.
      exact (Hmin i' Hout' (Hpre' i Hi Hn)).
    + rewrite Heq, Hl, Hi' in Hi. congruence.
    + exfalso. rewrite <- Heq, lookup_app_l in Hi' by exact Hl.
      apply list_elem_of_lookup_2 in Hi'.
      exact (Hmin' i Hout (Hpre i' Hi' Hn')).
  - exfalso.
    exact (not_flt_not_fle_absurd _ _ Hn' Hn (Hmin i' Hout')
             (Hlater' w _ i Hlt Hblk Hin)).
Qed.

(** X17. When some particle handed out has a fitness below +infinity,
    for every fitness array and every assignment of the particles to
    [P] workers, the index [pso_get_best_fitness_omp] returns is the one
    the two-stage rule selects: within its block it is the first
    particle with its fitness (an equal value met later does not replace
    it), its fitness is the least handed out, and its worker is the last
    whose local best equals that minimum.  This index is fixed by the
    assignment and the fitness values: what the array [local_g] held
    when it was declared does not matter. *)
Theorem reducer_tie_break (sw : swarm_t) (P : nat) (sched : schedule)
    (local_g0 : list Z) (i0 : nat) :
  length sched = P -> length local_g0 = P ->
  handed_out sched i0 -> below_inf (fitness_of sw i0) ->
  let r := Pso.pso_get_best_fitness_omp sched local_g0 sw (Z.of_nat P) in
  (exists w pre i post,
     r = Z.of_nat i /\ two_stage_selects (fitness_of sw) sched w pre i post) /\
  (forall local_g0' : list Z,
     length local_g0' = P ->
     Pso.pso_get_best_fitness_omp sched local_g0' sw (Z.of_nat P) = r).
Proof.
  intros Hs Hg Hout Hb0 r.
  destruct (reducer_selects sw P sched local_g0 i0 Hs Hg Hout Hb0)
    as (w & pre & i & post & Hr & Hsel).
  split; [exists w, pre, i, post; split; assumption|].
  intros local_g0' Hg'.
  destruct (reducer_selects sw P sched local_g0' i0 Hs Hg' Hout Hb0)
    as (w' & pre' & i' & post' & Hr' & Hsel').
  subst r. rewrite Hr, Hr'. f_equal.
  exact (two_stage_selects_unique _ _ _ _ _ _ _ _ _ _ Hsel' Hsel).
Qed.

Lemma reducer_tie_break_witness :
  let sched := static_schedule 5 2 in
  let r := Pso.pso_get_best_fitness_omp sched [-7; 42] tied_swarm (Z.of_nat 2) in
  (exists w pre i post,
     r = Z.of_nat i /\
     two_stage_selects (fitness_of tied_swarm) sched w pre i post) /\
  (forall local_g0' : list Z,
     length local_g0' = 2%nat ->
     Pso.pso_get_best_fitness_omp sched local_g0' tied_swarm (Z.of_nat 2) = r).
Proof.
  apply (reducer_tie_break tied_swarm 2 (static_schedule 5 2) [-7; 42] 1).
  - reflexivity.
  - reflexivity.
  - unfold handed_out. vm_compute. apply elem_of_cons. right.
    apply elem_of_cons. left. reflexivity.
  - reflexivity.
Defined.

(** The minimum 1 is met at indices 1 and 3.  With two blocks worker 0
    keeps index 1, the first in its block; worker 1 keeps index 3 and,
    being the last worker with the minimum, wins the merge.  When one
    worker scans everything the first index, 1, is returned, as by the
    serial reducer. *)
Example reducer_tie_break_example :
  Pso.pso_get_best_fitness_omp (static_schedule 5 2) [-7; 42] tied_swarm 2 = 3
  /\ Pso.pso_get_best_fitness_omp (serial_schedule 5 2) [-7; 42] tied_swarm 2 = 1
  /\ Pso.pso_get_best_fitness_omp [[0; 1; 2; 3; 4]%nat] [-7] tied_swarm 1 = 1
  /\ Pso.pso_get_best_fitness tied_swarm = 1.
Proof. repeat split; vm_compute; reflexivity. Qed.

(** ** The objective is a function of the position *)

(** X6. [pso_eval_fitness] reads the fields [dim] and [x] of the particle
    and nothing else: two particles with the same dimension and position
    get the same status and the same value, whatever their velocity,
    personal best, stored fitness and [g] are.  For a known objective the
    value written does not depend on what [*fitness] held. *)
Theorem pso_eval_fitness_reads_position (L : libc) (function : string)
    (p q : particle_t) (f f' : float) :
  Particle.dim p = Particle.dim q -> Particle.x p = Particle.x q ->
  Pso.pso_eval_fitness L function p f = Pso.pso_eval_fitness L function q f /\
  (known_objective function ->
   Pso.pso_eval_fitness L function p f = Pso.pso_eval_fitness L function q f').
Proof.
  intros Hd Hx. destruct p as [pd px pv pp pf pg], q as [qd qx qv qp qf qg].
  cbn in Hd, Hx. subst qd qx. split; [reflexivity|].
  unfold known_objective, known_objectives. intros Hin.
  repeat (apply elem_of_cons in Hin as [->|Hin]; [reflexivity|]).
  inversion Hin.
Qed.

Lemma pso_eval_fitness_reads_position_witness :
  let p := Particle.mk 2 [F32.of_int 1; F32.of_int 3] [F32.of_int 5] [] S754_nan 7 in
  let q := Particle.mk 2 [F32.of_int 1; F32.of_int 3] [] [F32.of_int 9]
             (F32.of_int 4) (-1) in
  Pso.pso_eval_fitness booth_libc "booth" p S754_nan
  = Pso.pso_eval_fitness booth_libc "booth" q S754_nan /\
  (known_objective "booth" ->
   Pso.pso_eval_fitness booth_libc "booth" p S754_nan
   = Pso.pso_eval_fitness booth_libc "booth" q (F32.of_int 8)).
Proof.
  apply (pso_eval_fitness_reads_position booth_libc "booth"
           (Particle.mk 2 [F32.of_int 1; F32.of_int 3] [F32.of_int 5] [] S754_nan 7)
           (Particle.mk 2 [F32.of_int 1; F32.of_int 3] [] [F32.of_int 9]
              (F32.of_int 4) (-1))
           S754_nan (F32.of_int 8)); reflexivity.
Defined.

Lemma score_of_particle (L : libc) (function : string) (p : particle_t) (f : float) :
  known_objective function ->
  snd (Pso.pso_eval_fitness L function p f)
  = score L function (Particle.dim p) (Particle.x p).
Proof.
  intros Hk. unfold score.
  destruct p as [pd px pv pp pf pg]. cbn [Particle.dim Particle.x].
  unfold known_objective, known_objectives in Hk.
  repeat (apply elem_of_cons in Hk as [->|Hk]; [reflexivity|]).
  inversion Hk.
Qed.

(** ** Broadcasting the global best *)

Lemma set_g_loop_spec (g : Z) (l : list nat) (sw : swarm_t) :
  let sw' :=
    fold_left
      (fun sw i => Swarm.set_particle sw i (Particle.set_g (particle_at sw i) g))
      l sw in
  Swarm.num_particles sw' = Swarm.num_particles sw /\
  length (Swarm.particle sw') = length (Swarm.particle sw) /\
  forall k,
    (k ∈ l -> (k < length (Swarm.particle sw))%nat ->
     particle_at sw' k = Particle.set_g (particle_at sw k) g) /\
    (k ∉ l -> particle_at sw' k = particle_at sw k).
Proof.
  revert sw. induction l as [|i l IH]; intros sw; cbn [fold_left].
  - split; [reflexivity|]. split; [reflexivity|]. intros k. split; [|auto].
    intros Hk. inversion Hk.
  - set (sw1 := Swarm.set_particle sw i (Particle.set_g (particle_at sw i) g)).
    destruct (IH sw1) as (Hn & Hl & Hk).
    cbv zeta. rewrite Hn, Hl.
    split; [reflexivity|]. split; [apply set_particle_length|].
    intros k. destruct (Hk k) as [Hin Hout].
    assert (H1 : (k < length (Swarm.particle sw))%nat ->
                 Particle.set_g (particle_at sw1 k) g
                 = Particle.set_g (particle_at sw k) g).
    { intros Hlt. destruct (decide (i = k)) as [->|Hne].
      - unfold sw1. rewrite particle_at_set_eq by assumption. reflexivity.
      - unfold sw1. rewrite particle_at_set_ne by assumption. reflexivity. }
    split.
    + intros Hkl Hlt.
      destruct (decide (k ∈ l)) as [Hkl'|Hkl'].
      * rewrite Hin; [apply H1; assumption|assumption|].
        unfold sw1. rewrite set_particle_length. assumption.
      * rewrite (Hout Hkl').
        apply elem_of_cons in Hkl as [->|Hkl]; [|contradiction].
        unfold sw1. apply particle_at_set_eq. assumption.
    + intros Hkl. rewrite Hout.
      * unfold sw1. apply particle_at_set_ne. intros ->. apply Hkl.
        apply elem_of_cons. auto.
      * intros Hkl'. apply Hkl. apply elem_of_cons. auto.
Qed.

(** X7. The broadcast loop writes [g] into the field [g] of every
    particle the schedule hands out and changes nothing else: the other
    fields of those particles, the particles not handed out and the size
    of the swarm are as before. *)
Theorem broadcast_writes_g_only (sched : schedule) (g : Z) (sw : swarm_t)
    (k : nat) :
  (k < length (Swarm.particle sw))%nat ->
  let sw' := Pso.broadcast_g sched g sw in
  Swarm.num_particles sw' = Swarm.num_particles sw /\
  length (Swarm.particle sw') = length (Swarm.particle sw) /\
  (handed_out sched k -> particle_at sw' k = Particle.set_g (particle_at sw k) g) /\
  (~ handed_out sched k -> particle_at sw' k = particle_at sw k).
Proof.
  intros Hk sw'. subst sw'. unfold Pso.broadcast_g, handed_out.
  rewrite (omp_for_concat sched
             (fun i sw => Swarm.set_particle sw i (Particle.set_g (particle_at sw i) g))).
  destruct (set_g_loop_spec g (concat sched) sw) as (Hn & Hl & Hall).
  split; [exact Hn|]. split; [exact Hl|].
  destruct (Hall k) as [Hin Hout]. split; auto.
Qed.

Lemma broadcast_writes_g_only_witness :
  let sw' := Pso.broadcast_g (static_schedule 2 2) 0 two_particles in
  Swarm.num_particles sw' = Swarm.num_particles two_particles /\
  length (Swarm.particle sw') = length (Swarm.particle two_particles) /\
  (handed_out (static_schedule 2 2) 1 ->
   particle_at sw' 1 = Particle.set_g (particle_at two_particles 1) 0) /\
  (~ handed_out (static_schedule 2 2) 1 ->
   particle_at sw' 1 = particle_at two_particles 1).
Proof.
  apply (broadcast_writes_g_only (static_schedule 2 2) 0 two_particles 1).
  cbn. lia.
Defined.

(** ** What the update of a particle touches *)

Section UpdateShape.
Variable L : libc.
Variable function : string.
Variables xmin xmax : float.

Lemma update_particle_shape (i : nat) (sw : swarm_t) (seed : Z) (curr : float) :
  (i < length (Swarm.particle sw))%nat ->
  let p := particle_at sw i in
  let p' :=
    particle_at
      (fst (fst (Pso.update_particle L function xmin xmax i (sw, seed, curr)))) i in
  Particle.dim p' = Particle.dim p /\ Particle.g p' = Particle.g p /\
  length (Particle.x p') = length (Particle.x p) /\
  length (Particle.v p') = length (Particle.v p) /\
  length (Particle.pbest p') = length (Particle.pbest p).
Proof.
  intros Hi p p'. subst p'.
  destruct (update_particle_spec L function xmin xmax i sw seed curr Hi)
    as [_ Hsw].
  rewrite Hsw, particle_at_set_eq by exact Hi. clear Hsw. fold p.
  destruct (dims_loop_spec L xmin xmax i (Z.to_nat (Particle.dim p)) 0 sw
              ((seed + Z.of_nat i) mod 2 ^ 32) Hi)
    as (_ & Hdim & Hpb & _ & Hg & Hlx & Hlv & _).
  fold p in Hdim, Hpb, Hg, Hlx, Hlv.
  set (moved := particle_at (fst (dims_loop _ _ _ _ _ _ _)) i) in *.
  destruct (_ <? _)%f32.
  - match goal with
    | |- context [Pso.copy_pbest ?d ?q] =>
        destruct (copy_pbest_from (Z.to_nat d) 0 q)
          as (Hd' & Hx' & Hv' & _ & Hg' & Hl' & _)
    end.
    unfold Pso.copy_pbest. cbv zeta in Hd', Hx', Hv', Hg', Hl'.
    rewrite Hd', Hx', Hv', Hg', Hl'. cbn. rewrite Hpb. auto.
  - rewrite Hpb. auto.
Qed.

Lemma update_particle_dim_rule (i j : nat) (sw : swarm_t) (seed : Z)
    (curr : float) :
  (i < length (Swarm.particle sw))%nat ->
  particle_ok (particle_at sw i) ->
  (j < Z.to_nat (Particle.dim (particle_at sw i)))%nat ->
  dim_rule L xmin xmax sw j (particle_at sw i)
    (particle_at
       (fst (fst (Pso.update_particle L function xmin xmax i (sw, seed, curr)))) i).
Proof.
  intros Hi (Hlx & Hlv & _) Hj.
  destruct (update_particle_spec L function xmin xmax i sw seed curr Hi)
    as [_ Hsw].
  rewrite Hsw, particle_at_set_eq by exact Hi. clear Hsw.
  set (p := particle_at sw i) in *.
  destruct (dims_loop_spec L xmin xmax i (Z.to_nat (Particle.dim p)) 0 sw
              ((seed + Z.of_nat i) mod 2 ^ 32) Hi)
    as (_ & _ & _ & _ & _ & _ & _ & _ & Hrule).
  fold p in Hrule.
  set (moved := particle_at (fst (dims_loop _ _ _ _ _ _ _)) i) in *.
  pose proof (Hrule j ltac:(lia) ltac:(lia) ltac:(lia)) as Hs0.
  eexists. rewrite <- Hs0.
  destruct (_ <? _)%f32; [|reflexivity].
  match goal with
  | |- context [Pso.copy_pbest ?d ?q] =>
      destruct (copy_pbest_from (Z.to_nat d) 0 q) as (_ & Hx & Hv & _)
  end.
  unfold Pso.copy_pbest. cbv zeta in Hx, Hv. rewrite Hx, Hv. reflexivity.
Qed.
End UpdateShape.

(** X8. The update of particle [i] writes particle [i] only: every other
    particle and the size of the swarm are as before, and particle [i]
    keeps its dimension, its [g] and the sizes of its three arrays. *)
Theorem update_writes_own_particle (L : libc) (function : string)
    (xmin xmax : float) (i : nat) (sw : swarm_t) (seed : Z) (curr : float) :
  (i < length (Swarm.particle sw))%nat ->
  let sw' := fst (fst (Pso.update_particle L function xmin xmax i (sw, seed, curr))) in
  Swarm.num_particles sw' = Swarm.num_particles sw /\
  length (Swarm.particle sw') = length (Swarm.particle sw) /\
  (forall k, k <> i -> particle_at sw' k = particle_at sw k) /\
  Particle.dim (particle_at sw' i) = Particle.dim (particle_at sw i) /\
  Particle.g (particle_at sw' i) = Particle.g (particle_at sw i) /\
  length (Particle.x (particle_at sw' i)) = length (Particle.x (particle_at sw i)) /\
  length (Particle.v (particle_at sw' i)) = length (Particle.v (particle_at sw i)) /\
  length (Particle.pbest (particle_at sw' i))
  = length (Particle.pbest (particle_at sw i)).
Proof.
  intros Hi sw'. subst sw'.
  destruct (update_particle_improves L function xmin xmax i sw seed curr)
    as (Hn & Hl & _).
  split; [exact Hn|]. split; [exact Hl|].
  split.
  - intros k Hk. apply update_particle_frame. congruence.
  - apply update_particle_shape. exact Hi.
Qed.

Lemma update_writes_own_particle_witness :
  let xmin := F32.of_int (-10) in
  let xmax := F32.of_int 10 in
  let sw' :=
    fst (fst (Pso.update_particle booth_libc "booth" xmin xmax 0
                (two_particles, 1, S754_nan))) in
  Swarm.num_particles sw' = Swarm.num_particles two_particles /\
  length (Swarm.particle sw') = length (Swarm.particle two_particles) /\
  (forall k, k <> 0%nat -> particle_at sw' k = particle_at two_particles k) /\
  Particle.dim (particle_at sw' 0) = Particle.dim (particle_at two_particles 0) /\
  Particle.g (particle_at sw' 0) = Particle.g (particle_at two_particles 0) /\
  length (Particle.x (particle_at sw' 0))
  = length (Particle.x (particle_at two_particles 0)) /\
  length (Particle.v (particle_at sw' 0))
  = length (Particle.v (particle_at two_particles 0)) /\
  length (Particle.pbest (particle_at sw' 0))
  = length (Particle.pbest (particle_at two_particles 0)).
Proof.
  apply (update_writes_own_particle booth_libc "booth" (F32.of_int (-10))
           (F32.of_int 10) 0 two_particles 1 S754_nan).
  cbn. lia.
Defined.

(** ** The position clamp at its edges *)

Lemma hard_clamp_nan xmin xmax : hard_clamp xmin xmax S754_nan = S754_nan.
Proof.
  unfold hard_clamp, F32.gtb, F32.ltb, SFltb.
  destruct xmax as [s|s| |s m e], xmin as [s'|s'| |s' m' e']; reflexivity.
Qed.

Lemma hard_clamp_swapped xmin xmax y :
  flt xmax xmin -> is_nan y = false -> hard_clamp xmin xmax y = xmin.
Proof.
  intros Hsw Hy. unfold hard_clamp.
  destruct (F32.gtb y xmax) eqn:H1.
  - unfold flt in Hsw. rewrite Hsw. reflexivity.
  - destruct (F32.ltb y xmin) eqn:H2; [reflexivity|exfalso].
    clear - Hsw Hy H1 H2. forder.
Qed.

(** X9. The two position tests of the update do not repair a position
    that is a NaN, and with the bounds swapped they send every other
    position to [xmin].  In the update of particle [i], for every
    dimension [j], with [moved] the old position plus the new velocity:
    if [moved] is a NaN the new position is a NaN; if [xmax < xmin] and
    [moved] is not a NaN the new position is [xmin]. *)
Theorem position_clamp_edges (L : libc) (function : string)
    (xmin xmax : float) (i j : nat) (sw : swarm_t) (seed : Z) (curr : float) :
  (i < length (Swarm.particle sw))%nat ->
  particle_ok (particle_at sw i) ->
  (j < Z.to_nat (Particle.dim (particle_at sw i)))%nat ->
  let p' :=
    particle_at
      (fst (fst (Pso.update_particle L function xmin xmax i (sw, seed, curr)))) i in
  let moved :=
    (rdf (Particle.x (particle_at sw i)) j + rdf (Particle.v p') j)%f32 in
  (is_nan moved = true -> rdf (Particle.x p') j = S754_nan) /\
  (flt xmax xmin -> is_nan moved = false -> rdf (Particle.x p') j = xmin).
Proof.
  intros Hi Hok Hj p' moved.
  destruct (update_particle_dim_rule L function xmin xmax i j sw seed curr Hi Hok Hj)
    as [s0 Hs0].
  fold p' in Hs0. unfold dim_step in Hs0. cbn [fst snd] in Hs0.
  injection Hs0 as Hvj Hxj. rewrite <- Hvj in Hxj. fold moved in Hxj.
  rewrite Hxj. split.
  - intros Hnan. destruct moved; try discriminate. apply hard_clamp_nan.
  - apply hard_clamp_swapped.
Qed.

Lemma position_clamp_edges_witness :
  let xmin := F32.of_int 10 in
  let xmax := F32.of_int (-10) in
  let p' :=
    particle_at
      (fst (fst (Pso.update_particle booth_libc "booth" xmin xmax 0
                   (two_particles, 1, S754_nan)))) 0 in
  let moved :=
    (rdf (Particle.x (particle_at two_particles 0)) 0 + rdf (Particle.v p') 0)%f32 in
  (is_nan moved = true -> rdf (Particle.x p') 0 = S754_nan) /\
  (flt xmax xmin -> is_nan moved = false -> rdf (Particle.x p') 0 = xmin).
Proof.
  apply (position_clamp_edges booth_libc "booth" (F32.of_int 10) (F32.of_int (-10))
           0 0 two_particles 1 S754_nan).
  - cbn. lia.
  - repeat split.
  - cbn. lia.
Defined.

(** With the bounds swapped one update puts both coordinates of the
    particle on [xmin = 10]. *)
Example swapped_bounds_example :
  Particle.x
    (particle_at
       (fst (fst (Pso.update_particle booth_libc "booth" (F32.of_int 10)
                    (F32.of_int (-10)) 0 (two_particles, 1, S754_nan)))) 0)
  = [F32.of_int 10; F32.of_int 10].
Proof. vm_compute. reflexivity. Qed.

(** ** What the initialisation establishes *)

Section InitPost.
Variable L : libc.
Variable E : environment.
Variable function : string.
Variable dim : Z.
Variables xmin xmax : float.
Hypothesis known : known_objective function.

Lemma init_particle_known_spec (i : nat) (sw : swarm_t) (seed : Z) :
  exists p' seed',
    Pso.init_particle L function dim xmin xmax i (Returned (sw, seed))
    = Returned (Swarm.set_particle sw i p', seed') /\
    init_post L function dim p'.
Proof.
  pose proof (built_particle_ok L dim xmin xmax sw i seed) as Hq.
  cbv zeta in Hq. destruct Hq as (Hd & Hok & Hp).
  unfold Pso.init_particle. cbn [bind].
  unfold built_particle in Hd, Hok, Hp.
  destruct (Pso.sample_array L dim xmin xmax _) as [xs s1]. cbn [fst snd] in *.
  destruct (Pso.sample_array L dim _ _ s1) as [vs s2]. cbn [fst snd] in *.
  set (q := Pso.copy_pbest dim _) in *.
  pose proof (eval_fitness_known L function q S754_nan known) as Hst.
  pose proof (score_of_particle L function q S754_nan known) as Hsc.
  destruct (Pso.pso_eval_fitness L function q S754_nan) as [status fit].
  cbn [fst snd] in Hst, Hsc. subst status. cbn [Z.ltb Z.compare].
  rewrite set_particle_set.
  eexists. exists s2. split; [reflexivity|].
  unfold init_post. cbn. rewrite Hd in Hsc.
  repeat split; try assumption; apply Hok.
Qed.

Lemma init_loop_post (l : list nat) (sw : swarm_t) (seed : Z) :
  exists sw' seed',
    fold_left (fun st i => Pso.init_particle L function dim xmin xmax i st) l
      (Returned (sw, seed))
    = Returned (sw', seed') /\
    Swarm.num_particles sw' = Swarm.num_particles sw /\
    length (Swarm.particle sw') = length (Swarm.particle sw) /\
    forall k, (k < length (Swarm.particle sw))%nat ->
      (k ∈ l -> init_post L function dim (particle_at sw' k)) /\
      (k ∉ l -> particle_at sw' k = particle_at sw k).
Proof.
  revert sw seed. induction l as [|i l IH]; intros sw seed.
  - exists sw, seed. split; [reflexivity|]. split; [reflexivity|].
    split; [reflexivity|]. intros k Hk. split; [|reflexivity].
    intros Hin. inversion Hin.
  - cbn [fold_left].
    destruct (init_particle_known_spec i sw seed) as (p1 & s1 & -> & Hpost).
    destruct (IH (Swarm.set_particle sw i p1) s1)
      as (sw' & seed' & -> & Hn & Hl & Hall).
    exists sw', seed'. split; [reflexivity|].
    rewrite set_particle_num in Hn. rewrite set_particle_length in Hl, Hall.
    split; [exact Hn|]. split; [exact Hl|].
    intros k Hk. destruct (Hall k Hk) as [Hin Hout]. split.
    + intros Hkl. destruct (decide (k ∈ l)) as [Hkl'|Hkl']; [auto|].
      rewrite (Hout Hkl').
      apply elem_of_cons in Hkl as [->|Hkl]; [|contradiction].
      rewrite particle_at_set_eq by assumption. exact Hpost.
    + intros Hkl. rewrite Hout.
      * apply particle_at_set_ne. intros ->. apply Hkl. apply elem_of_cons. auto.
      * intros Hkl'. apply Hkl. apply elem_of_cons. auto.
Qed.
End InitPost.

Lemma omp_threads_ext {S : Type} (sched : schedule)
    (th1 th2 : nat -> list nat -> S -> S) (tid : nat) (s : S) :
  (forall tid blk s, th1 tid blk s = th2 tid blk s) ->
  omp_threads_from tid sched th1 s = omp_threads_from tid sched th2 s.
Proof.
  intros Hth. revert tid s. induction sched as [|blk rest IH]; intros tid s;
    [reflexivity|].
  cbn [omp_threads_from]. rewrite Hth. apply IH.
Qed.

(** The reducer reads the fitness values only. *)
Lemma reducer_reads_fitness (sched : schedule) (local_g0 : list Z)
    (sw sw' : swarm_t) (num_threads : Z) :
  (forall i, fitness_of sw i = fitness_of sw' i) ->
  Pso.pso_get_best_fitness_omp sched local_g0 sw num_threads
  = Pso.pso_get_best_fitness_omp sched local_g0 sw' num_threads.
Proof.
  intros Hfit. unfold Pso.pso_get_best_fitness_omp, omp_for, omp_threads.
  rewrite (omp_threads_ext sched _
             (fun tid blk s =>
                fold_left (fun s i => Pso.local_best_body sw' tid i s) blk s)).
  - reflexivity.
  - intros tid blk. induction blk as [|i blk IH]; intros s; [reflexivity|].
    cbn [fold_left]. rewrite <- IH. f_equal.
    unfold Pso.local_best_body. destruct s as [lf lg].
    fold (fitness_of sw i). fold (fitness_of sw' i). rewrite Hfit. reflexivity.
Qed.

(** X10. For a swarm size that is not negative, a known objective, a
    dimension in the range of the objective, a team of at least one
    thread and a schedule that hands out every particle index,
    [pso_init_omp] returns a swarm of [swarm_size]
    particles in which every particle has [dim] cells in each array, a
    personal best equal to its position, a fitness equal to the score of
    its position, and the same [g], which is the value of the reducer on
    these fitness values. *)
Theorem pso_init_omp_establishes (L : libc) (E : environment)
    (function : string) (dim swarm_size : Z) (xmin xmax : float)
    (num_threads : Z) :
  0 <= swarm_size ->
  known_objective function ->
  dim_in_range function dim ->
  1 <= num_threads ->
  block_partition (Z.to_nat swarm_size) (omp_schedule E swarm_size num_threads) ->
  exists sw,
    Pso.pso_init_omp L E function dim swarm_size xmin xmax num_threads
    = Returned sw /\
    Swarm.num_particles sw = swarm_size /\
    length (Swarm.particle sw) = Z.to_nat swarm_size /\
    let g :=
      Pso.pso_get_best_fitness_omp (reducer_schedule E swarm_size num_threads)
        (map (local_g_at E 0) (seq 0 (Z.to_nat num_threads))) sw num_threads in
    forall i, (i < Z.to_nat swarm_size)%nat ->
      let p := particle_at sw i in
      Particle.dim p = dim /\ particle_ok p /\
      Particle.pbest p = Particle.x p /\
      Particle.fitness p = score L function dim (Particle.x p) /\
      Particle.g p = g.
Proof.
  intros _ Hk _ _ Hpart. unfold Pso.pso_init_omp. cbn [Swarm.num_particles].
  rewrite (omp_for_concat _ (Pso.init_particle L function dim xmin xmax)).
  set (sw0 := Swarm.mk swarm_size (replicate (Z.to_nat swarm_size) no_particle)).
  set (sched := omp_schedule E swarm_size num_threads) in *.
  destruct (init_loop_post L function dim xmin xmax Hk (concat sched) sw0
              (time E mod 2 ^ 32))
    as (sw1 & seed1 & -> & Hn & Hl & Hall).
  cbn [bind]. rewrite Hn. cbn [sw0 Swarm.num_particles].
  set (g := Pso.pso_get_best_fitness_omp _ _ sw1 num_threads).
  assert (Hl0 : length (Swarm.particle sw0) = Z.to_nat swarm_size)
    by (cbn; apply length_replicate).
  rewrite Hl0 in Hl, Hall.
  destruct (set_g_loop_spec g (concat sched) sw1) as (Hbn & Hbl & Hball).
  eexists. split; [reflexivity|].
  unfold Pso.broadcast_g.
  rewrite (omp_for_concat sched
             (fun i sw => Swarm.set_particle sw i (Particle.set_g (particle_at sw i) g))).
  cbv zeta in Hbn, Hbl, Hball.
  split; [rewrite Hbn; exact Hn|]. split; [rewrite Hbl; exact Hl|].
  assert (Hfit : forall i,
            fitness_of sw1 i
            = fitness_of
                (fold_left
                   (fun sw i =>
                      Swarm.set_particle sw i (Particle.set_g (particle_at sw i) g))
                   (concat sched) sw1) i).
  { intros i. symmetry.
    destruct (broadcast_g_fitness sched g sw1) as (_ & _ & Hbf).
    unfold Pso.broadcast_g in Hbf.
    rewrite (omp_for_concat sched
               (fun i sw => Swarm.set_particle sw i
                              (Particle.set_g (particle_at sw i) g))) in Hbf.
    apply Hbf. }
  rewrite <- (reducer_reads_fitness _ _ sw1 _ num_threads Hfit). fold g.
  intros i Hi.
  assert (Hin : i ∈ concat sched).
  { apply list_elem_of_In, (Permutation_in _ (Permutation_sym Hpart)), in_seq. lia. }
  destruct (Hall i Hi) as [Hpost _]. specialize (Hpost Hin).
  destruct (Hball i) as [Hset _].
  rewrite Hset by (try assumption; lia). clear Hset.
  destruct Hpost as (Hd & Hok & Hp & Hf & _).
  cbn. repeat split; try assumption; apply Hok.
Qed.

Lemma pso_init_omp_establishes_witness :
  let E := static_environment 0 0 in
  let xmin := F32.of_int (-10) in
  let xmax := F32.of_int 10 in
  exists sw,
    Pso.pso_init_omp booth_libc E "booth" 2 3 xmin xmax 2 = Returned sw /\
    Swarm.num_particles sw = 3 /\
    length (Swarm.particle sw) = Z.to_nat 3 /\
    let g :=
      Pso.pso_get_best_fitness_omp (reducer_schedule E 3 2)
        (map (local_g_at E 0) (seq 0 (Z.to_nat 2))) sw 2 in
    forall i, (i < Z.to_nat 3)%nat ->
      let p := particle_at sw i in
      Particle.dim p = 2 /\ particle_ok p /\
      Particle.pbest p = Particle.x p /\
      Particle.fitness p = score booth_libc "booth" 2 (Particle.x p) /\
      Particle.g p = g.
Proof.
  apply (pso_init_omp_establishes booth_libc (static_environment 0 0) "booth" 2 3
           (F32.of_int (-10)) (F32.of_int 10) 2).
  - lia.
  - repeat constructor.
  - split; [lia|]. intros _. lia.
  - lia.
  - apply Permutation_refl.
Defined.

(** ** The stored fitness is the score of the personal best *)

Section SwarmInvariant.
Variable L : libc.
Variable E : environment.
Variable function : string.
Variable dim : Z.
Variables xmin xmax : float.
Hypothesis known : known_objective function.

Lemma update_particle_inv (i : nat) (sw : swarm_t) (seed : Z) (curr : float) :
  swarm_inv L function dim sw ->
  swarm_inv L function dim
    (fst (fst (Pso.update_particle L function xmin xmax i (sw, seed, curr)))).
Proof.
  intros Hinv.
  destruct (update_particle_improves L function xmin xmax i sw seed curr)
    as (_ & Hl & _).
  intros k Hk. rewrite Hl in Hk.
  destruct (decide (k = i)) as [->|Hne].
  2:{ rewrite update_particle_frame by congruence. apply Hinv. assumption. }
  destruct (Hinv i Hk) as (Hd & Hok & Hfit).
  destruct (update_particle_shape L function xmin xmax i sw seed curr Hk)
    as (Hd' & _ & Hlx & Hlv & Hlp).
  pose proof (update_particle_pbest_rule L function xmin xmax i sw seed curr Hk)
    as Hrule.
  cbv zeta in Hrule. destruct Hrule as (moved & Hdm & Hxm & Hcurr & Hcase).
  set (res := Pso.update_particle L function xmin xmax i (sw, seed, curr)) in *.
  set (p' := particle_at (fst (fst res)) i) in *.
  split; [congruence|].
  split.
  { destruct Hok as (H1 & H2 & H3). unfold particle_ok.
    rewrite Hd', Hlx, Hlv, Hlp. auto. }
  rewrite (score_of_particle L function moved curr known), Hdm, Hxm, Hd in Hcurr.
  destruct (F32.ltb (snd res) (Particle.fitness (particle_at sw i))).
  - destruct Hcase as [Hf Hp]. rewrite Hf, (Hp Hok). exact Hcurr.
  - destruct Hcase as [Hf Hp]. rewrite Hf, Hp. exact Hfit.
Qed.

Lemma update_thread_inv (iter tid : nat) (blk : list nat) (sw : swarm_t) :
  swarm_inv L function dim sw ->
  swarm_inv L function dim (Pso.update_thread L E function xmin xmax iter tid blk sw).
Proof.
  unfold Pso.update_thread.
  generalize (seed_at E iter tid mod 2 ^ 32) (curr_fitness_at E iter tid).
  revert sw. induction blk as [|i blk IH]; intros sw seed curr Hinv; [exact Hinv|].
  cbn [fold_left].
  pose proof (update_particle_inv i sw seed curr Hinv) as H1.
  destruct (Pso.update_particle L function xmin xmax i (sw, seed, curr))
    as [[sw1 s1] c1].
  apply IH. exact H1.
Qed.

Lemma omp_threads_inv (thread : nat -> list nat -> swarm_t -> swarm_t)
    (sched : schedule) (tid : nat) (sw : swarm_t) :
  (forall tid blk sw, swarm_inv L function dim sw ->
     swarm_inv L function dim (thread tid blk sw)) ->
  swarm_inv L function dim sw ->
  swarm_inv L function dim (omp_threads_from tid sched thread sw).
Proof.
  intros Hthread. revert tid sw.
  induction sched as [|blk rest IH]; intros tid sw Hinv; [exact Hinv|].
  cbn [omp_threads_from]. apply IH, Hthread, Hinv.
Qed.

Lemma broadcast_g_inv (sched : schedule) (g : Z) (sw : swarm_t) :
  swarm_inv L function dim sw ->
  swarm_inv L function dim (Pso.broadcast_g sched g sw).
Proof.
  intros Hinv. unfold Pso.broadcast_g.
  rewrite (omp_for_concat sched
             (fun i sw => Swarm.set_particle sw i (Particle.set_g (particle_at sw i) g))).
  destruct (set_g_loop_spec g (concat sched) sw) as (_ & Hl & Hall).
  cbv zeta in Hl, Hall. intros k Hk. rewrite Hl in Hk.
  destruct (Hall k) as [Hin Hout].
  destruct (decide (k ∈ concat sched)) as [Hd|Hd].
  - rewrite (Hin Hd Hk). destruct (Hinv k Hk) as (H1 & H2 & H3).
    split; [exact H1|]. split; [exact H2|exact H3].
  - rewrite (Hout Hd). apply Hinv. assumption.
Qed.

Lemma iteration_inv (num_threads : Z) (iter : nat) (st : swarm_t * Z) :
  swarm_inv L function dim (fst st) ->
  swarm_inv L function dim
    (fst (Pso.iteration L E function xmin xmax num_threads iter st)).
Proof.
  destruct st as [sw g]. cbn [fst]. intros Hinv. unfold Pso.iteration. cbn [fst].
  apply broadcast_g_inv. unfold omp_threads.
  apply omp_threads_inv; [|exact Hinv].
  intros. apply update_thread_inv. assumption.
Qed.

Lemma while_loop_inv (fuel : nat) (max_iter num_threads : Z) (iter : nat)
    (st : swarm_t * Z) :
  swarm_inv L function dim (fst st) ->
  swarm_inv L function dim
    (fst (Pso.while_loop L E fuel function xmin xmax max_iter num_threads iter st)).
Proof.
  revert iter st. induction fuel as [|fuel IH]; intros iter st Hinv; [exact Hinv|].
  cbn [Pso.while_loop]. destruct (Z.of_nat iter <? max_iter); [|exact Hinv].
  apply IH, iteration_inv, Hinv.
Qed.
End SwarmInvariant.

(** X11. For a known objective the update, the iteration and the whole
    loop keep this invariant of every particle of the swarm: its
    dimension is [dim], its three arrays hold [dim] cells, and its stored
    fitness is the score of its personal best position. *)
Theorem fitness_is_score_of_pbest (L : libc) (E : environment)
    (function : string) (dim : Z) (xmin xmax : float) (sw : swarm_t) :
  known_objective function ->
  swarm_inv L function dim sw ->
  (forall i seed curr,
     swarm_inv L function dim
       (fst (fst (Pso.update_particle L function xmin xmax i (sw, seed, curr))))) /\
  (forall num_threads iter g,
     swarm_inv L function dim
       (fst (Pso.iteration L E function xmin xmax num_threads iter (sw, g)))) /\
  (forall fuel max_iter num_threads iter g,
     swarm_inv L function dim
       (fst (Pso.while_loop L E fuel function xmin xmax max_iter num_threads
               iter (sw, g)))).
Proof.
  intros Hk Hinv. split; [|split].
  - intros. apply update_particle_inv; assumption.
  - intros. apply (iteration_inv L E function dim xmin xmax Hk _ _ (sw, g)).
    exact Hinv.
  - intros. apply (while_loop_inv L E function dim xmin xmax Hk _ _ _ _ (sw, g)).
    exact Hinv.
Qed.

Lemma booth_swarm_inv : swarm_inv booth_libc "booth" 2 booth_swarm.
Proof.
  intros i Hi. cbn in Hi.
  do 2 (destruct i as [|i]; [repeat split; vm_compute; reflexivity|]). lia.
Qed.

Lemma fitness_is_score_of_pbest_witness :
  let E := static_environment 0 0 in
  let xmin := F32.of_int (-10) in
  let xmax := F32.of_int 10 in
  (forall i seed curr,
     swarm_inv booth_libc "booth" 2
       (fst (fst (Pso.update_particle booth_libc "booth" xmin xmax i
                    (booth_swarm, seed, curr))))) /\
  (forall num_threads iter g,
     swarm_inv booth_libc "booth" 2
       (fst (Pso.iteration booth_libc E "booth" xmin xmax num_threads iter
               (booth_swarm, g)))) /\
  (forall fuel max_iter num_threads iter g,
     swarm_inv booth_libc "booth" 2
       (fst (Pso.while_loop booth_libc E fuel "booth" xmin xmax max_iter
               num_threads iter (booth_swarm, g)))).
Proof.
  apply (fitness_is_score_of_pbest booth_libc (static_environment 0 0) "booth" 2
           (F32.of_int (-10)) (F32.of_int 10) booth_swarm).
  - repeat constructor.
  - exact booth_swarm_inv.
Defined.

(** ** The number of iterations and the value returned *)

Section Loop.
Variable L : libc.
Variable E : environment.
Variable function : string.
Variables xmin xmax : float.
Variable num_threads : Z.

Lemma while_loop_from (fuel : nat) (max_iter : Z) (iter : nat) (st : swarm_t * Z) :
  (Z.to_nat (max_iter - Z.of_nat iter) <= fuel)%nat ->
  Pso.while_loop L E fuel function xmin xmax max_iter num_threads iter st
  = fold_left
      (fun st it => Pso.iteration L E function xmin xmax num_threads it st)
      (seq iter (Z.to_nat (max_iter - Z.of_nat iter))) st.
Proof.
  revert iter st. induction fuel as [|fuel IH]; intros iter st Hfuel.
  - replace (Z.to_nat (max_iter - Z.of_nat iter)) with 0%nat by lia. reflexivity.
  - cbn [Pso.while_loop]. destruct (Z.ltb_spec (Z.of_nat iter) max_iter) as [Hlt|Hge].
    + rewrite IH by lia.
      replace (Z.to_nat (max_iter - Z.of_nat iter))
        with (S (Z.to_nat (max_iter - Z.of_nat (S iter)))) by lia.
      reflexivity.
    + replace (Z.to_nat (max_iter - Z.of_nat iter)) with 0%nat by lia. reflexivity.
Qed.

Lemma iterations_succ (n : nat) (st : swarm_t * Z) :
  iterations L E function xmin xmax num_threads (S n) st
  = Pso.iteration L E function xmin xmax num_threads n
      (iterations L E function xmin xmax num_threads n st).
Proof.
  unfold iterations. rewrite seq_S, fold_left_app. reflexivity.
Qed.

Lemma iterations_improves (n : nat) (st : swarm_t * Z) :
  improves (fst (iterations L E function xmin xmax num_threads n st)) (fst st).
Proof.
  induction n as [|n IH]; [apply improves_refl|].
  rewrite iterations_succ.
  eapply improves_trans; [apply iteration_improves|exact IH].
Qed.

Lemma optimize_state_iterations (dim swarm_size max_iter : Z) :
  Pso.optimize_state L E function dim swarm_size xmin xmax max_iter num_threads
  = bind (Pso.pso_init_omp L E function dim swarm_size xmin xmax num_threads)
      (fun sw =>
         Returned (iterations L E function xmin xmax num_threads
                     (Z.to_nat max_iter) (sw, -1))).
Proof.
  unfold Pso.optimize_state.
  destruct (Pso.pso_init_omp L E function dim swarm_size xmin xmax num_threads)
    as [sw|status heap]; [|reflexivity].
  cbn [bind]. rewrite while_loop_from by (cbn; lia). unfold iterations.
  replace (max_iter - Z.of_nat 0) with max_iter by lia. reflexivity.
Qed.
End Loop.

(** X12. The loop runs its body exactly [max_iter] times, for the
    iterations [0, 1, ..., max_iter - 1] in this order, and not at all
    when [max_iter <= 0]; fuel beyond [max_iter] changes nothing.  Hence,
    for a swarm size that is not negative, a dimension in the range of
    the objective and a team of at least one thread, the state in which
    [optimize_using_omp] leaves its loop is that of [max_iter] iterations
    from the initialised swarm and [g = -1], or the run has exited in
    the initialisation. *)
Theorem loop_runs_max_iter_times (L : libc) (E : environment)
    (function : string) (dim swarm_size : Z) (xmin xmax : float)
    (max_iter num_threads : Z) (fuel : nat) (st : swarm_t * Z) :
  (Z.to_nat max_iter <= fuel)%nat ->
  Pso.while_loop L E fuel function xmin xmax max_iter num_threads 0 st
  = iterations L E function xmin xmax num_threads (Z.to_nat max_iter) st /\
  (0 <= swarm_size -> dim_in_range function dim -> 1 <= num_threads ->
   Pso.optimize_state L E function dim swarm_size xmin xmax max_iter num_threads
   = bind (Pso.pso_init_omp L E function dim swarm_size xmin xmax num_threads)
       (fun sw =>
          Returned (iterations L E function xmin xmax num_threads
                      (Z.to_nat max_iter) (sw, -1)))).
Proof.
  intros Hfuel. split.
  - rewrite while_loop_from by (cbn; lia). unfold iterations.
    replace (max_iter - Z.of_nat 0) with max_iter by lia. reflexivity.
  - intros _ _ _. apply optimize_state_iterations.
Qed.

Lemma loop_runs_max_iter_times_witness :
  let E := static_environment 0 0 in
  let xmin := F32.of_int (-10) in
  let xmax := F32.of_int 10 in
  Pso.while_loop booth_libc E 7 "booth" xmin xmax 3 2 0 (booth_swarm, -1)
  = iterations booth_libc E "booth" xmin xmax 2 (Z.to_nat 3) (booth_swarm, -1) /\
  Pso.optimize_state booth_libc E "booth" 2 2 xmin xmax 3 2
  = bind (Pso.pso_init_omp booth_libc E "booth" 2 2 xmin xmax 2)
      (fun sw =>
         Returned (iterations booth_libc E "booth" xmin xmax 2 (Z.to_nat 3) (sw, -1))).
Proof.
  destruct (loop_runs_max_iter_times booth_libc (static_environment 0 0) "booth"
              2 2 (F32.of_int (-10)) (F32.of_int 10) 3 2 7 (booth_swarm, -1))
    as [Hloop Hstate].
  - cbn. lia.
  - split; [exact Hloop|]. apply Hstate.
    + lia.
    + split; [lia|]. intros _. lia.
    + lia.
Defined.

(** X13. When [max_iter >= 1], the initialisation returns a swarm on
    which the reduction is well defined, and the schedule of the
    broadcast hands out every particle, [optimize_using_omp] returns the
    index of a particle of least fitness in the final swarm; the index is
    in range and is the [g] stored in every particle. *)
Theorem optimize_returns_least_particle (L : libc) (E : environment)
    (function : string) (dim swarm_size : Z) (xmin xmax : float)
    (max_iter num_threads : Z) (sw0 : swarm_t) :
  1 <= max_iter ->
  Pso.pso_init_omp L E function dim swarm_size xmin xmax num_threads
  = Returned sw0 ->
  reducible E num_threads sw0 ->
  length (Swarm.particle sw0) = Z.to_nat (Swarm.num_particles sw0) ->
  block_partition (Z.to_nat (Swarm.num_particles sw0))
    (omp_schedule E (Swarm.num_particles sw0) num_threads) ->
  exists (sw : swarm_t) (r : nat),
    Pso.optimize_state L E function dim swarm_size xmin xmax max_iter num_threads
    = Returned (sw, Z.of_nat r) /\
    Pso.optimize_using_omp L E function dim swarm_size xmin xmax max_iter num_threads
    = Returned (Z.of_nat r) /\
    (r < Z.to_nat (Swarm.num_particles sw0))%nat /\
    forall k, (k < Z.to_nat (Swarm.num_particles sw0))%nat ->
      fle (fitness_of sw r) (fitness_of sw k) /\
      Particle.g (particle_at sw k) = Z.of_nat r.
Proof.
  intros Hmax Hinit Hred Hlen Hpart.
  pose proof (optimize_state_iterations L E function xmin xmax num_threads
                dim swarm_size max_iter) as Hstate.
  rewrite Hinit in Hstate. cbn [bind] in Hstate.
  unfold Pso.optimize_using_omp. rewrite Hstate. clear Hstate. cbn [bind].
  destruct (Z.to_nat max_iter) as [|n] eqn:Hn; [lia|].
  rewrite iterations_succ.
  set (prev := iterations L E function xmin xmax num_threads n (sw0, -1)).
  pose proof (iterations_improves L E function xmin xmax num_threads n (sw0, -1))
    as Himp.
  fold prev in Himp. cbn [fst] in Himp.
  pose proof (improves_reducible E num_threads _ _ Himp Hred) as Hredp.
  destruct Himp as (Hnp & Hlp & _).
  destruct prev as [swp gp]. cbn [fst] in *.
  destruct (iteration_global_best L E function xmin xmax num_threads n swp gp Hredp)
    as (r & Hr & HrN & Hleast & _).
  rewrite Hnp in HrN, Hleast.
  (* every particle carries the broadcast value *)
  assert (Hg : forall k, (k < Z.to_nat (Swarm.num_particles sw0))%nat ->
            Particle.g (particle_at
              (fst (Pso.iteration L E function xmin xmax num_threads n (swp, gp))) k)
            = snd (Pso.iteration L E function xmin xmax num_threads n (swp, gp))).
  { intros k Hk. unfold Pso.iteration. cbn [fst snd].
    set (sched := omp_schedule E (Swarm.num_particles swp) num_threads).
    set (sw1 := omp_threads sched _ swp).
    set (g := Pso.pso_get_best_fitness_omp _ _ sw1 num_threads).
    assert (Hl1 : length (Swarm.particle sw1) = length (Swarm.particle swp)).
    { assert (Hi1 : improves sw1 swp).
      { apply omp_threads_improves. intros. apply update_thread_improves. }
      apply Hi1. }
    unfold Pso.broadcast_g.
    rewrite (omp_for_concat sched
               (fun i sw => Swarm.set_particle sw i
                              (Particle.set_g (particle_at sw i) g))).
    destruct (set_g_loop_spec g (concat sched) sw1) as (_ & _ & Hall).
    destruct (Hall k) as [Hin _]. rewrite Hin; [reflexivity| |lia].
    unfold sched. rewrite Hnp.
    apply list_elem_of_In, (Permutation_in _ (Permutation_sym Hpart)), in_seq.
    lia. }
  destruct (Pso.iteration L E function xmin xmax num_threads n (swp, gp))
    as [sw g] eqn:Hit. cbn [fst snd] in *. subst g.
  exists sw, r. split; [reflexivity|]. split; [reflexivity|].
  split; [exact HrN|]. intros k Hk. split; [apply Hleast; exact Hk|apply Hg; exact Hk].
Qed.

Lemma optimize_returns_least_particle_witness :
  let E := static_environment 0 0 in
  let xmin := F32.of_int (-10) in
  let xmax := F32.of_int 10 in
  exists (sw : swarm_t) (r : nat),
    Pso.optimize_state booth_libc E "booth" 2 3 xmin xmax 2 2
    = Returned (sw, Z.of_nat r) /\
    Pso.optimize_using_omp booth_libc E "booth" 2 3 xmin xmax 2 2
    = Returned (Z.of_nat r) /\
    (r < Z.to_nat (Swarm.num_particles initial_swarm))%nat /\
    forall k, (k < Z.to_nat (Swarm.num_particles initial_swarm))%nat ->
      fle (fitness_of sw r) (fitness_of sw k) /\
      Particle.g (particle_at sw k) = Z.of_nat r.
Proof.
  apply (optimize_returns_least_particle booth_libc (static_environment 0 0)
           "booth" 2 3 (F32.of_int (-10)) (F32.of_int 10) 2 2 initial_swarm).
  - lia.
  - vm_compute. reflexivity.
  - unfold reducible.
    change (Swarm.num_particles initial_swarm) with 3.
    split; [cbn; lia|]. split; [lia|]. split; [reflexivity|].
    split; [apply Permutation_refl|].
    intros i Hi. cbn in Hi.
    do 3 (destruct i as [|i]; [vm_compute; reflexivity|]). lia.
  - vm_compute. reflexivity.
  - change (Swarm.num_particles initial_swarm) with 3. apply Permutation_refl.
Defined.

(** ** How [optimize_using_omp] ends *)

(** X14. For an unknown objective, as soon as the schedule of the
    initialisation hands out a particle, [optimize_using_omp] leaves
    through [exit(EXIT_FAILURE)] inside [pso_init_omp], whatever
    [max_iter] is: no iteration is run and nothing is returned, not even
    the -1 that a known objective gives when [max_iter <= 0]. *)
Theorem optimize_exits_on_unknown_objective (L : libc) (E : environment)
    (function : string) (dim swarm_size : Z) (xmin xmax : float)
    (max_iter num_threads : Z) :
  ~ known_objective function ->
  concat (omp_schedule E swarm_size num_threads) <> [] ->
  exists heap,
    Pso.pso_init_omp L E function dim swarm_size xmin xmax num_threads
    = Exited EXIT_FAILURE heap /\
    Pso.optimize_state L E function dim swarm_size xmin xmax max_iter num_threads
    = Exited EXIT_FAILURE heap /\
    Pso.optimize_using_omp L E function dim swarm_size xmin xmax max_iter
      num_threads = Exited EXIT_FAILURE heap.
Proof.
  intros Hu Hne.
  destruct (concat (omp_schedule E swarm_size num_threads)) as [|i0 rest] eqn:Hc;
    [congruence|].
  pose proof (pso_init_omp_unknown L E function dim xmin xmax swarm_size
                num_threads i0 rest Hu Hc) as Hinit.
  cbv zeta in Hinit.
  eexists. split; [exact Hinit|].
  unfold Pso.optimize_using_omp, Pso.optimize_state. rewrite Hinit.
  split; reflexivity.
Qed.

Lemma optimize_exits_on_unknown_objective_witness :
  let E := static_environment 0 0 in
  let xmin := F32.of_int (-10) in
  let xmax := F32.of_int 10 in
  exists heap,
    Pso.pso_init_omp booth_libc E "sphere" 2 3 xmin xmax 2
    = Exited EXIT_FAILURE heap /\
    Pso.optimize_state booth_libc E "sphere" 2 3 xmin xmax 0 2
    = Exited EXIT_FAILURE heap /\
    Pso.optimize_using_omp booth_libc E "sphere" 2 3 xmin xmax 0 2
    = Exited EXIT_FAILURE heap.
Proof.
  apply (optimize_exits_on_unknown_objective booth_libc (static_environment 0 0)
           "sphere" 2 3 (F32.of_int (-10)) (F32.of_int 10) 0 2).
  - unfold known_objective, known_objectives. intros Hin.
    repeat (apply elem_of_cons in Hin as [Hin|Hin]; [discriminate Hin|]).
    inversion Hin.
  - vm_compute. discriminate.
Defined.

(** ** The serial initialisation *)

(** A particle built from sampled arrays of [dim] cells *)
Lemma copy_pbest_built (dim : Z) (xs vs : list float) (f : float) (g : Z) :
  length xs = Z.to_nat dim -> length vs = Z.to_nat dim ->
  let q :=
    Pso.copy_pbest dim
      (Particle.mk dim xs vs (replicate (Z.to_nat dim) S754_nan) f g) in
  Particle.dim q = dim /\ particle_ok q /\ Particle.pbest q = Particle.x q.
Proof.
  intros Hx Hv. cbv zeta.
  set (q0 := Particle.mk dim xs vs _ f g).
  assert (Hok0 : particle_ok q0).
  { unfold particle_ok, q0. cbn. rewrite length_replicate. auto. }
  destruct (copy_pbest_spec q0) as (Hd & Hx' & Hv' & _ & _ & Hp).
  change (Particle.dim q0) with dim in *.
  split; [exact Hd|]. specialize (Hp Hok0).
  split; [|rewrite Hp, Hx'; reflexivity].
  destruct Hok0 as (H1 & H2 & H3). unfold particle_ok.
  rewrite Hd, Hx', Hv', Hp. change (Particle.dim q0) with dim in *. auto.
Qed.

Lemma spec_local_best_ext (fit fit' : nat -> float) (blk : list nat)
    (start : Z * float) :
  (forall i, fit i = fit' i) ->
  spec_local_best fit blk start = spec_local_best fit' blk start.
Proof.
  intros Hfit. revert start. induction blk as [|i blk IH]; intros start;
    [reflexivity|].
  cbn [spec_local_best]. rewrite Hfit. apply IH.
Qed.

Lemma serial_reducer_reads_fitness (sw sw' : swarm_t) :
  Swarm.num_particles sw = Swarm.num_particles sw' ->
  (forall i, fitness_of sw i = fitness_of sw' i) ->
  Pso.pso_get_best_fitness sw = Pso.pso_get_best_fitness sw'.
Proof.
  intros Hn Hfit. unfold Pso.pso_get_best_fitness.
  rewrite !serial_scan_spec, Hn. cbn [snd].
  rewrite (spec_local_best_ext _ _ _ _ Hfit). reflexivity.
Qed.

Section SerialInit.
Variable L : libc.
Variable rand : Z -> Z * Z.
Variable function : string.
Variable dim : Z.
Variables xmin xmax : float.

Lemma serial_sample_array_length (lo hi : float) (s : Z) :
  length (fst (PsoSerial.sample_array rand dim lo hi s)) = Z.to_nat dim.
Proof.
  unfold PsoSerial.sample_array.
  assert (H : forall l a s0,
            length (fst (fold_left
              (fun '(a, s) j =>
                 let '(u, s) := PsoSerial.uniform rand lo hi s in
                 (<[j := u]> a, s)) l (a, s0))) = length a).
  { induction l as [|j l IH]; intros a s0; [reflexivity|].
    cbn [fold_left]. destruct (PsoSerial.uniform rand lo hi s0) as [u s'].
    rewrite IH. apply length_insert. }
  rewrite H. apply length_replicate.
Qed.

Lemma serial_sample_array_state (lo hi : float) (s : Z) :
  snd (PsoSerial.sample_array rand dim lo hi s)
  = rand_state_after rand (Z.to_nat dim) s.
Proof.
  unfold PsoSerial.sample_array.
  assert (H : forall (l : list nat) (a : list float) (s0 : Z),
            snd (fold_left
              (fun '(a, s) j =>
                 let '(u, s) := PsoSerial.uniform rand lo hi s in
                 (<[j := u]> a, s)) l (a, s0))
            = rand_state_after rand (length l) s0).
  { induction l as [|j l IH]; intros a s0; [reflexivity|].
    cbn [fold_left length]. unfold PsoSerial.uniform at 2.
    destruct (rand s0) as [k s'] eqn:Hr. rewrite IH.
    unfold rand_state_after. rewrite Nat.iter_succ_r, Hr. reflexivity. }
  rewrite H, length_seq. reflexivity.
Qed.

Lemma rand_state_after_add (n m : nat) (s : Z) :
  rand_state_after rand n (rand_state_after rand m s)
  = rand_state_after rand (m + n) s.
Proof.
  unfold rand_state_after. rewrite Nat.add_comm. symmetry. apply Nat.iter_add.
Qed.

Lemma serial_init_particle_spec (i : nat) (sw : swarm_t) (s : Z) :
  let s' := rand_state_after rand (2 * Z.to_nat dim) s in
  exists q,
    Particle.dim q = dim /\ particle_ok q /\ Particle.pbest q = Particle.x q /\
    (known_objective function ->
     PsoSerial.init_particle L rand function dim xmin xmax i (inl (sw, s))
     = inl (Swarm.set_particle sw i
              (Particle.set_g
                 (Particle.set_fitness q (score L function dim (Particle.x q)))
                 (-1)), s')) /\
    (~ known_objective function ->
     PsoSerial.init_particle L rand function dim xmin xmax i (inl (sw, s))
     = inr (Swarm.set_particle sw i q, s')).
Proof.
  unfold PsoSerial.init_particle.
  pose proof (serial_sample_array_length xmin xmax s) as Hlx.
  pose proof (serial_sample_array_state xmin xmax s) as Hsx.
  destruct (PsoSerial.sample_array rand dim xmin xmax s) as [xs s1].
  cbn [fst snd] in Hlx, Hsx.
  pose proof (serial_sample_array_state
                (- F32.fabsf (xmax - xmin))%f32 (F32.fabsf (xmax - xmin)%f32) s1)
    as Hsv.
  pose proof (serial_sample_array_length
                (- F32.fabsf (xmax - xmin))%f32 (F32.fabsf (xmax - xmin)%f32) s1)
    as Hlv.
  destruct (PsoSerial.sample_array rand dim _ _ s1) as [vs s2].
  cbn [fst snd] in Hlv, Hsv.
  assert (Hs2 : s2 = rand_state_after rand (2 * Z.to_nat dim) s).
  { rewrite Hsv, Hsx, rand_state_after_add. f_equal. lia. }
  clear Hsx Hsv. subst s2.
  destruct (copy_pbest_built dim xs vs (Particle.fitness (particle_at sw i))
              (Particle.g (particle_at sw i)) Hlx Hlv) as (Hd & Hok & Hp).
  set (q := Pso.copy_pbest dim _) in *.
  exists q. split; [exact Hd|]. split; [exact Hok|]. split; [exact Hp|].
  split.
  - intros Hk.
    pose proof (eval_fitness_known L function q S754_nan Hk) as Hst.
    pose proof (score_of_particle L function q S754_nan Hk) as Hsc.
    destruct (Pso.pso_eval_fitness L function q S754_nan) as [status fit].
    cbn [fst snd] in Hst, Hsc. subst status. cbn [Z.ltb Z.compare].
    rewrite set_particle_set, Hsc, Hd. reflexivity.
  - intros Hu. rewrite eval_fitness_unknown by assumption. reflexivity.
Qed.

Lemma serial_init_loop_stopped (l : list nat) (stopped : swarm_t * Z) :
  fold_left (fun st i => PsoSerial.init_particle L rand function dim xmin xmax i st)
    l (inr stopped)
  = inr stopped.
Proof. induction l as [|i l IH]; [reflexivity|exact IH]. Qed.

Lemma serial_init_loop_post (l : list nat) (sw : swarm_t) (s : Z) :
  known_objective function ->
  exists sw',
    fold_left (fun st i => PsoSerial.init_particle L rand function dim xmin xmax i st)
      l (inl (sw, s))
    = inl (sw', rand_state_after rand (2 * Z.to_nat dim * length l) s) /\
    Swarm.num_particles sw' = Swarm.num_particles sw /\
    length (Swarm.particle sw') = length (Swarm.particle sw) /\
    forall k, (k < length (Swarm.particle sw))%nat ->
      (k ∈ l -> init_post L function dim (particle_at sw' k)) /\
      (k ∉ l -> particle_at sw' k = particle_at sw k).
Proof.
  intros Hk. revert sw s. induction l as [|i l IH]; intros sw s.
  - exists sw. rewrite Nat.mul_0_r.
    split; [reflexivity|]. split; [reflexivity|].
    split; [reflexivity|]. intros k Hlt. split; [|reflexivity].
    intros Hin. inversion Hin.
  - cbn [fold_left].
    destruct (serial_init_particle_spec i sw s)
      as (q & Hd & Hok & Hp & Hknown & _).
    rewrite (Hknown Hk). clear Hknown.
    set (p1 := Particle.set_g _ (-1)).
    assert (Hpost : init_post L function dim p1).
    { unfold init_post, p1. cbn. repeat split; try assumption; apply Hok. }
    destruct (IH (Swarm.set_particle sw i p1)
                (rand_state_after rand (2 * Z.to_nat dim) s))
      as (sw' & -> & Hn & Hl & Hall).
    exists sw'. split.
    { rewrite rand_state_after_add. cbn [length].
      replace (2 * Z.to_nat dim + 2 * Z.to_nat dim * length l)%nat
        with (2 * Z.to_nat dim * S (length l))%nat by lia.
      reflexivity. }
    rewrite set_particle_num in Hn. rewrite set_particle_length in Hl, Hall.
    split; [exact Hn|]. split; [exact Hl|].
    intros k Hlt. destruct (Hall k Hlt) as [Hin Hout]. split.
    + intros Hkl. destruct (decide (k ∈ l)) as [Hkl'|Hkl']; [auto|].
      rewrite (Hout Hkl').
      apply elem_of_cons in Hkl as [->|Hkl]; [|contradiction].
      rewrite particle_at_set_eq by assumption. exact Hpost.
    + intros Hkl. rewrite Hout.
      * apply particle_at_set_ne. intros ->. apply Hkl. apply elem_of_cons. auto.
      * intros Hkl'. apply Hkl. apply elem_of_cons. auto.
Qed.
End SerialInit.

(** X15. For a swarm size that is not negative, a known objective and a
    dimension in the range of the objective the serial [pso_init] returns, after [2 * dim * swarm_size] calls of
    [rand], a swarm of [swarm_size] particles in which every particle has [dim] cells in
    each array, a personal best equal to its position, a fitness equal to
    the score of its position, and the same [g], the value of
    [pso_get_best_fitness] on the swarm. *)
Theorem pso_init_establishes (L : libc) (rand : Z -> Z * Z) (function : string)
    (dim swarm_size : Z) (xmin xmax : float) (s : Z) :
  0 <= swarm_size ->
  known_objective function ->
  dim_in_range function dim ->
  exists sw,
    PsoSerial.pso_init L rand function dim swarm_size xmin xmax s
    = inl (sw, rand_state_after rand
                 (2 * Z.to_nat dim * Z.to_nat swarm_size) s) /\
    Swarm.num_particles sw = swarm_size /\
    length (Swarm.particle sw) = Z.to_nat swarm_size /\
    forall i, (i < Z.to_nat swarm_size)%nat ->
      let p := particle_at sw i in
      Particle.dim p = dim /\ particle_ok p /\
      Particle.pbest p = Particle.x p /\
      Particle.fitness p = score L function dim (Particle.x p) /\
      Particle.g p = Pso.pso_get_best_fitness sw.
Proof.
  intros _ Hk _. unfold PsoSerial.pso_init. cbn [Swarm.num_particles].
  set (sw0 := Swarm.mk swarm_size (replicate (Z.to_nat swarm_size) no_particle)).
  destruct (serial_init_loop_post L rand function dim xmin xmax
              (seq 0 (Z.to_nat swarm_size)) sw0 s Hk)
    as (sw1 & -> & Hn & Hl & Hall).
  rewrite Hn, length_seq. cbn [sw0 Swarm.num_particles].
  assert (Hl0 : length (Swarm.particle sw0) = Z.to_nat swarm_size)
    by (cbn; apply length_replicate).
  rewrite Hl0 in Hl, Hall.
  set (g := Pso.pso_get_best_fitness sw1).
  destruct (set_g_loop_spec g (seq 0 (Z.to_nat swarm_size)) sw1)
    as (Hbn & Hbl & Hball).
  cbv zeta in Hbn, Hbl, Hball.
  eexists. split; [reflexivity|].
  split; [rewrite Hbn; exact Hn|]. split; [rewrite Hbl; exact Hl|].
  set (sw2 := fold_left _ _ sw1) in *.
  assert (Hg : Pso.pso_get_best_fitness sw2 = g).
  { symmetry. apply serial_reducer_reads_fitness; [symmetry; exact Hbn|].
    intros i. unfold fitness_of.
    destruct (Nat.lt_ge_cases i (Z.to_nat swarm_size)) as [Hi|Hi].
    - destruct (Hball i) as [Hin _]. rewrite Hin; [reflexivity| |lia].
      apply list_elem_of_In, in_seq. lia.
    - unfold particle_at.
      rewrite !(proj2 (lookup_ge_None _ _)); [reflexivity|lia|lia]. }
  rewrite Hg. intros i Hi.
  assert (Hin : i ∈ seq 0 (Z.to_nat swarm_size))
    by (apply list_elem_of_In, in_seq; lia).
  destruct (Hall i Hi) as [Hpost _]. specialize (Hpost Hin).
  destruct (Hball i) as [Hset _]. rewrite Hset by (try assumption; lia).
  destruct Hpost as (Hd & Hok & Hp & Hf & _).
  cbn. repeat split; try assumption; apply Hok.
Qed.

Lemma pso_init_establishes_witness :
  let xmin := F32.of_int (-10) in
  let xmax := F32.of_int 10 in
  exists sw,
    PsoSerial.pso_init booth_libc example_rand "booth" 2 3 xmin xmax 1
    = inl (sw, rand_state_after example_rand (2 * Z.to_nat 2 * Z.to_nat 3) 1) /\
    Swarm.num_particles sw = 3 /\
    length (Swarm.particle sw) = Z.to_nat 3 /\
    forall i, (i < Z.to_nat 3)%nat ->
      let p := particle_at sw i in
      Particle.dim p = 2 /\ particle_ok p /\
      Particle.pbest p = Particle.x p /\
      Particle.fitness p = score booth_libc "booth" 2 (Particle.x p) /\
      Particle.g p = Pso.pso_get_best_fitness sw.
Proof.
  apply (pso_init_establishes booth_libc example_rand "booth" 2 3
           (F32.of_int (-10)) (F32.of_int 10) 1).
  - lia.
  - repeat constructor.
  - split; [lia|]. intros _. lia.
Defined.

(** X16. For an unknown objective and [swarm_size >= 1] the serial
    [pso_init] returns [NULL] when it has built particle 0, where
    [pso_init_omp] exits: the swarm and the three arrays of particle 0,
    of [dim] cells each, are left allocated, no other particle has been
    touched, and [rand] has been called [2 * dim] times. *)
Theorem pso_init_returns_null (L : libc) (rand : Z -> Z * Z) (function : string)
    (dim swarm_size : Z) (xmin xmax : float) (s : Z) :
  ~ known_objective function ->
  1 <= swarm_size ->
  exists heap,
    PsoSerial.pso_init L rand function dim swarm_size xmin xmax s
    = inr (heap, rand_state_after rand (2 * Z.to_nat dim) s) /\
    Swarm.num_particles heap = swarm_size /\
    Particle.dim (particle_at heap 0) = dim /\
    particle_ok (particle_at heap 0) /\
    Particle.pbest (particle_at heap 0) = Particle.x (particle_at heap 0) /\
    forall k, k <> 0%nat -> particle_at heap k = no_particle.
Proof.
  intros Hu HN. unfold PsoSerial.pso_init. cbn [Swarm.num_particles].
  destruct (Z.to_nat swarm_size) as [|n] eqn:Hn; [lia|].
  cbn [seq fold_left].
  destruct (serial_init_particle_spec L rand function dim xmin xmax 0
              (Swarm.mk swarm_size (replicate (S n) no_particle)) s)
    as (q & Hd & Hok & Hp & _ & Hunknown).
  rewrite (Hunknown Hu), serial_init_loop_stopped.
  eexists. split; [reflexivity|]. split; [reflexivity|].
  rewrite particle_at_set_eq by (cbn; lia).
  split; [exact Hd|]. split; [exact Hok|]. split; [exact Hp|].
  intros k Hk. rewrite particle_at_set_ne by congruence.
  unfold particle_at. cbn [Swarm.particle].
  destruct (replicate (S n) no_particle !! k) eqn:Hl; [|reflexivity].
  apply lookup_replicate in Hl as [-> _]. reflexivity.
Qed.

Lemma pso_init_returns_null_witness :
  exists heap,
    PsoSerial.pso_init booth_libc example_rand "sphere" 2 3 (F32.of_int (-10))
      (F32.of_int 10) 1
    = inr (heap, rand_state_after example_rand (2 * Z.to_nat 2) 1) /\
    Swarm.num_particles heap = 3 /\
    Particle.dim (particle_at heap 0) = 2 /\
    particle_ok (particle_at heap 0) /\
    Particle.pbest (particle_at heap 0) = Particle.x (particle_at heap 0) /\
    forall k, k <> 0%nat -> particle_at heap k = no_particle.
Proof.
  apply (pso_init_returns_null booth_libc example_rand "sphere" 2 3
           (F32.of_int (-10)) (F32.of_int 10) 1).
  - unfold known_objective, known_objectives. intros Hin.
    repeat (apply elem_of_cons in Hin as [Hin|Hin]; [discriminate Hin|]).
    inversion Hin.
  - lia.
Defined.
